(** * Connect 4 solver: negamax with alpha-beta pruning, a transposition
      table and iterative null-window narrowing.

    Shallow embedding of [solver.cpp] ([Solver::negamax], [Solver::solve],
    the constructor's [columnOrder] and the line loop of [main]) together
    with the collaborators it includes ([position.hpp],
    [TranspositionTable.hpp], [MoveSorter.hpp]), and the properties of the
    solver established over that embedding. *)

From Stdlib Require Import ZArith Zdivisibility List Lia Bool String Ascii
  DecimalString.
Import ListNotations.
Local Open Scope Z_scope.

(** ** Machine integers *)

(** [uint64_t] arithmetic wraps modulo [2^64]. *)
Definition u64 (x : Z) : Z := x mod 2 ^ 64.

(** [x << n] on [uint64_t]. *)
Definition shl64 (x n : Z) : Z := u64 (Z.shiftl x n).

(** [~x] on [uint64_t]. *)
Definition not64 (x : Z) : Z := u64 (Z.lnot x).

(** Integer division of C++ truncates toward zero. *)
Definition cdiv (a b : Z) : Z := Z.quot a b.

(** ** Position (position.hpp) *)

Module Position.

(** Modelled from the spec: the board has 7 columns and 6 rows (the
    constants [WIDTH] and [HEIGHT] of position.hpp). *)
Definition WIDTH : Z := 7.
Definition HEIGHT : Z := 6.

(** Modelled from the spec: the score domain of section 3,
    [MIN_SCORE = -(WIDTH*HEIGHT)/2] (the constant of position.hpp). *)
Definition MIN_SCORE : Z := cdiv (- (WIDTH * HEIGHT)) 2.

(** Modelled from the spec: [MAX_SCORE = (WIDTH*HEIGHT+1)/2] (the constant
    of position.hpp). *)
Definition MAX_SCORE : Z := cdiv (WIDTH * HEIGHT + 1) 2.

(** Modelled from the spec: a position is the bitmask of the stones of the
    player to move, the bitmask of all stones and the number of moves
    played (the three fields of class Position). *)
Record t : Type := mk {
  current_position : Z;
  mask : Z;
  moves : Z
}.

(** Modelled from the spec: positions are constructed empty. *)
Definition empty : t := mk 0 0 0.

(** Modelled from the spec: the mask with the lowest cell of each of the
    first [w] columns set; column [c] starts at bit [c*(HEIGHT+1)]. *)
Fixpoint bottom (w : nat) : Z :=
  match w with
  | O => 0
  | S w' => Z.lor (bottom w') (Z.shiftl 1 (Z.of_nat w' * (HEIGHT + 1)))
  end.

(** Modelled from the spec: [bottom_row_mask], the lowest cell of every
    column. *)
Definition bottom_mask : Z := bottom (Z.to_nat WIDTH).

(** Modelled from the spec: all playable cells, [HEIGHT] per column, the
    sentinel row excluded. *)
Definition board_mask : Z := bottom_mask * (Z.shiftl 1 HEIGHT - 1).

(** Modelled from the spec: [column_mask(c)], the [HEIGHT] playable cells of
    column [c]. *)
Definition column_mask (col : Z) : Z :=
  shl64 (Z.shiftl 1 HEIGHT - 1) (col * (HEIGHT + 1)).

(** Modelled from the spec (section 4.1, winning cells computation): in a
    direction whose neighbouring cells are [s] bits apart, the cells that
    complete an alignment of four with three stones of [position]: the two
    three-in-a-row extensions and the two split patterns. *)
Definition aligned3 (position s : Z) : Z :=
  let p := Z.land (shl64 position s) (shl64 position (2 * s)) in
  let q := Z.land (Z.shiftr position s) (Z.shiftr position (2 * s)) in
  Z.lor (Z.lor (Z.land p (shl64 position (3 * s)))
               (Z.land p (Z.shiftr position s)))
        (Z.lor (Z.land q (shl64 position s))
               (Z.land q (Z.shiftr position (3 * s)))).

(** Modelled from the spec (section 4.1, winning cells computation): the
    cells that complete an alignment of four with three stones of
    [position], in the vertical, the horizontal and both diagonal
    directions. *)
Definition alignments (position : Z) : Z :=
  let vertical :=
    Z.land (Z.land (shl64 position 1) (shl64 position 2)) (shl64 position 3) in
  Z.lor (Z.lor vertical (aligned3 position (HEIGHT + 1)))
        (Z.lor (aligned3 position HEIGHT) (aligned3 position (HEIGHT + 2))).

(** Modelled from the spec (section 4.1): the winning cells of the stones
    [position]; the output is masked to the cells of the board that are
    empty. *)
Definition compute_winning_position (position msk : Z) : Z :=
  Z.land (alignments position) (Z.lxor board_mask msk).

(** Modelled from the spec (section 4.1, legal moves): the set of all
    next-move cells is [(mask + bottom_row_mask) & board_mask]. *)
Definition possible (P : t) : Z :=
  Z.land (u64 (mask P + bottom_mask)) board_mask.

(** Modelled from the spec: the winning cells of the player to move. *)
Definition winning_position (P : t) : Z :=
  compute_winning_position (current_position P) (mask P).

(** Modelled from the spec (section 3, opponent derivation): the winning
    cells of the opponent, whose stones are [current_position XOR mask]. *)
Definition opponent_winning_position (P : t) : Z :=
  compute_winning_position (Z.lxor (current_position P) (mask P)) (mask P).

(** Modelled from the spec: [canWinNext()], the winning cells of the player
    to move intersected with the legal next-move cells. *)
Definition canWinNext (P : t) : bool :=
  negb (Z.land (winning_position P) (possible P) =? 0).

(** Modelled from the spec: [nbMoves()], the move count. *)
Definition nbMoves (P : t) : Z := moves P.

(** Modelled from the spec: [key()], [current_position + mask]. *)
Definition key (P : t) : Z := u64 (current_position P + mask P).

(** Modelled from the spec: [possibleNonLosingMoves()].  Start from all legal
    move cells; an opponent winning cell among them forces the move, two of
    them leave no non-losing move; never play directly below an opponent
    winning cell. *)
Definition possibleNonLosingMoves (P : t) : Z :=
  let possible_mask := possible P in
  let opponent_win := opponent_winning_position P in
  let forced_moves := Z.land possible_mask opponent_win in
  if negb (forced_moves =? 0) then
    if negb (Z.land forced_moves (u64 (forced_moves - 1)) =? 0) then 0
    else Z.land forced_moves (not64 (Z.shiftr opponent_win 1))
  else Z.land possible_mask (not64 (Z.shiftr opponent_win 1)).

(** Modelled from the spec: [play(move_bitmask)] updates [mask], flips
    [current_position] to the opponent and increments [moves]. *)
Definition play (P : t) (move : Z) : t :=
  mk (Z.lxor (current_position P) (mask P)) (Z.lor (mask P) move) (moves P + 1).

(** Modelled from the spec: the number of bits set among the low [n] bits
    (the count [moveScore] takes). *)
Fixpoint popcount_upto (n : nat) (x : Z) : Z :=
  match n with
  | O => 0
  | S n' => Z.b2z (Z.testbit x (Z.of_nat n')) + popcount_upto n' x
  end.

(** Modelled from the spec: the number of bits set in a [uint64_t]. *)
Definition popcount (x : Z) : Z := popcount_upto 64 x.

(** Modelled from the spec: [moveScore(move)], the number of winning cells
    the player to move has once the cell [move] is theirs. *)
Definition moveScore (P : t) (move : Z) : Z :=
  popcount (compute_winning_position (Z.lor (current_position P) move) (mask P)).

(** Modelled from the spec (section 4.1, legal moves): the cell a stone
    dropped in column [col] lands on, the lowest empty cell of the column
    when it is inside the playable region, and 0 when the column is full. *)
Definition move_in (P : t) (col : Z) : Z :=
  Z.land (possible P) (column_mask col).

(** Modelled from the spec: one character of [play(sequence_string)] is
    accepted when it is a digit ['1'..'7'], its column is not full and the
    move does not complete an alignment. *)
Definition valid_char (P : t) (ch : ascii) : bool :=
  let col := Z.of_nat (nat_of_ascii ch) - Z.of_nat (nat_of_ascii "1"%char) in
  (0 <=? col) && (col <? WIDTH)
  && negb (move_in P col =? 0)
  && (Z.land (winning_position P) (move_in P col) =? 0).

(** Modelled from the spec: the move an accepted character stands for, a
    stone in the column the digit names. *)
Definition play_char (P : t) (ch : ascii) : t :=
  play P (move_in P (Z.of_nat (nat_of_ascii ch) - Z.of_nat (nat_of_ascii "1"%char))).

(** Modelled from the spec: [play(sequence_string)] applies the characters in
    order, stops at the first invalid one and returns the number of
    characters applied, together with the position reached. *)
Fixpoint play_seq (P : t) (seq : string) : t * Z :=
  match seq with
  | EmptyString => (P, 0)
  | String ch rest =>
      if valid_char P ch then
        let (P', n) := play_seq (play_char P ch) rest in (P', n + 1)
      else (P, 0)
  end.

End Position.

(** ** Transposition table (TranspositionTable.hpp) *)

Module TranspositionTable.

(** Modelled from the spec (section 4.2): the capacity is a prime [C] near
    [2^23]; the first prime above [2^23] is taken.  The proofs use only that
    it is odd and that [C * 2^k], with [k] the width of the partial keys,
    exceeds every key. *)
Definition size : Z := 8388617.

(** Modelled from the spec: a slot keeps [key mod 2^k] with [k] about 32. *)
Definition partial_bits : Z := 32.

(** Modelled from the spec: two parallel arrays of length [size], the
    partial keys and the values. *)
Record t : Type := mk {
  K : Z -> Z;
  V : Z -> Z
}.

(** Modelled from the spec: the slot of a key, [key mod C]. *)
Definition index (key : Z) : Z := key mod size.

(** Modelled from the spec: the partial key, the low bits of the key. *)
Definition truncate (key : Z) : Z := key mod 2 ^ partial_bits.

(** Modelled from the spec: [reset()] zeroes both arrays. *)
Definition reset : t := mk (fun _ => 0) (fun _ => 0).

(** Modelled from the spec: [put(key, value)] overwrites the partial key and
    the value of slot [key mod C]. *)
Definition put (T : t) (key value : Z) : t :=
  mk (fun i => if i =? index key then truncate key else K T i)
     (fun i => if i =? index key then value else V T i).

(** Modelled from the spec: [get(key)] returns the value of slot
    [key mod C] when its partial key is the one of [key], and 0 otherwise. *)
Definition get (T : t) (key : Z) : Z :=
  if K T (index key) =? truncate key then V T (index key) else 0.

End TranspositionTable.

(** ** Move sorter (MoveSorter.hpp) *)

Module MoveSorter.

(** Modelled from the spec (section 4.3): a list of at most [WIDTH] entries
    [(move, score)] kept in ascending score order. *)
Definition t : Type := list (Z * Z).

(** Modelled from the spec: a sorter is created empty. *)
Definition empty : t := [].

(** Modelled from the spec: [add(move, score)] inserts keeping the scores
    ascending; the entries of strictly lower score stay on the left of the
    new one. *)
Fixpoint add (entries : t) (move score : Z) : t :=
  match entries with
  | [] => [(move, score)]
  | (m, s) :: rest =>
      if s <? score then (m, s) :: add rest move score
      else (move, score) :: (m, s) :: rest
  end.

(** Modelled from the spec: [getNext()] pops the entry of highest score, the
    last one, and returns 0 when the list is empty. *)
Definition getNext (entries : t) : Z * t :=
  match rev entries with
  | [] => (0, [])
  | (m, _) :: rest => (m, rev rest)
  end.

(** Modelled from the spec: the number of entries held. *)
Definition size (entries : t) : nat := List.length entries.

End MoveSorter.

(** ** Solver (solver.cpp) *)

Module Solver.

Import Position.

(** [constexpr unsigned int log2(unsigned int n)]:
    [n <= 1 ? 0 : log2(n/2)+1]; [fuel] bounds the recursion, 32 steps reach
    every [unsigned int]. *)
Fixpoint log2_rec (fuel : nat) (n : Z) : Z :=
  match fuel with
  | O => 0
  | S fuel' => if n <=? 1 then 0 else log2_rec fuel' (n / 2) + 1
  end.

Definition log2 (n : Z) : Z := log2_rec 32 n.

(** The three arguments of the [TranspositionTable] template: the number of
    bits of a key, of a value, and the base 2 logarithm of the capacity. *)
Definition table_key_size : Z := WIDTH * (HEIGHT + 1).
Definition table_value_size : Z := log2 (MAX_SCORE - MIN_SCORE + 1) + 1.
Definition table_log_size : Z := 23.

(** The two data members that change: the node counter
    ([unsigned long long]) and the transposition table. *)
Record t : Type := mk {
  nodeCount : Z;
  transTable : TranspositionTable.t
}.

(** [columnOrder[i] = WIDTH/2 + (1-2*(i%2))*(i+1)/2], filled by the
    constructor. *)
Definition columnOrder_at (i : Z) : Z :=
  cdiv WIDTH 2 + cdiv ((1 - 2 * Z.rem i 2) * (i + 1)) 2.

Definition columnOrder : list Z :=
  map (fun i => columnOrder_at (Z.of_nat i)) (seq 0 (Z.to_nat WIDTH)).

(** [reset()]. *)
Definition reset (s : t) : t := mk 0 TranspositionTable.reset.

(** [for(int i = WIDTH; i--; ) if(move = next & column_mask(columnOrder[i]))
    moves.add(move, P.moveScore(move));] *)
Definition collect_moves (P : Position.t) (next : Z) : MoveSorter.t :=
  fold_left
    (fun moves col =>
       let move := Z.land next (column_mask col) in
       if move =? 0 then moves else MoveSorter.add moves move (moveScore P move))
    (rev columnOrder) MoveSorter.empty.

(** How the [while] loop over the sorted moves ends: by [return score] on a
    beta cutoff, or by running out of moves with the final [alpha]. *)
Inductive loop_exit : Type :=
| Cutoff (score : Z)
| Exhausted (alpha : Z).

(** The loop [while(uint64_t next = moves.getNext()) { ... }] of
    [negamax]; [rec] is the recursive call and [budget] bounds the number of
    iterations. *)
Fixpoint explore (rec : Position.t -> Z -> Z -> t -> option (Z * t))
    (budget : nat) (P : Position.t) (moves : MoveSorter.t)
    (alpha beta : Z) (s : t) : option (loop_exit * t) :=
  match budget with
  | O => None
  | S budget' =>
      let (next, moves') := MoveSorter.getNext moves in
      if next =? 0 then Some (Exhausted alpha, s)
      else
        let P2 := play P next in
        match rec P2 (- beta) (- alpha) s with
        | None => None
        | Some (r, s') =>
            let score := - r in
            if score >=? beta then Some (Cutoff score, s')
            else explore rec budget' P moves'
                   (if score >? alpha then score else alpha) beta s'
        end
  end.

(** [Solver::negamax]; [fuel] bounds the depth of the recursion.  The two
    [assert]s of the function are in force in [Asserting.negamax]; here a
    call outside of them goes on. *)
Fixpoint negamax (fuel : nat) (P : Position.t) (alpha beta : Z) (s : t)
    : option (Z * t) :=
  match fuel with
  | O => None
  | S fuel' =>
      let s := mk (u64 (nodeCount s + 1)) (transTable s) in
      let next := possibleNonLosingMoves P in
      if next =? 0 then Some (cdiv (- (WIDTH * HEIGHT - nbMoves P)) 2, s)
      else if nbMoves P >=? WIDTH * HEIGHT - 2 then Some (0, s)
      else
        let min := cdiv (- (WIDTH * HEIGHT - 2 - nbMoves P)) 2 in
        if (alpha <? min) && (min >=? beta) then Some (min, s)
        else
          let alpha := if alpha <? min then min else alpha in
          let max := cdiv (WIDTH * HEIGHT - 1 - nbMoves P) 2 in
          let val := TranspositionTable.get (transTable s) (key P) in
          let max := if val =? 0 then max else val + MIN_SCORE - 1 in
          if (beta >? max) && (alpha >=? max) then Some (max, s)
          else
            let beta := if beta >? max then max else beta in
            let moves := collect_moves P next in
            match explore (negamax fuel') (S (MoveSorter.size moves))
                    P moves alpha beta s with
            | None => None
            | Some (Cutoff score, s') => Some (score, s')
            | Some (Exhausted alpha', s') =>
                Some (alpha',
                      mk (nodeCount s')
                         (TranspositionTable.put (transTable s') (key P)
                            (alpha' - MIN_SCORE + 1)))
            end
  end.

(** The probe point of one iteration of the loop of [solve]:
    [int med = min + (max - min)/2;
     if(med <= 0 && min/2 < med) med = min/2;
     else if(med >= 0 && max/2 > med) med = max/2;] *)
Definition median (min max : Z) : Z :=
  let med := min + cdiv (max - min) 2 in
  if (med <=? 0) && (cdiv min 2 <? med) then cdiv min 2
  else if (med >=? 0) && (cdiv max 2 >? med) then cdiv max 2
  else med.

(** The loop [while(min < max) { ... }] of [solve]; [iterations] bounds the
    number of iterations. *)
Fixpoint narrow (fuel iterations : nat) (P : Position.t) (min max : Z) (s : t)
    : option (Z * t) :=
  if min <? max then
    match iterations with
    | O => None
    | S iterations' =>
        let med := median min max in
        match negamax fuel P med (med + 1) s with
        | None => None
        | Some (r, s') =>
            if r <=? med then narrow fuel iterations' P min r s'
            else narrow fuel iterations' P r max s'
        end
    end
  else Some (min, s).

(** [Solver::solve]. *)
Definition solve (fuel : nat) (P : Position.t) (weak : bool) (s : t)
    : option (Z * t) :=
  if canWinNext P then Some (cdiv (WIDTH * HEIGHT + 1 - nbMoves P) 2, s)
  else
    let min := cdiv (- (WIDTH * HEIGHT - nbMoves P)) 2 in
    let max := cdiv (WIDTH * HEIGHT + 1 - nbMoves P) 2 in
    let min := if weak then -1 else min in
    let max := if weak then 1 else max in
    narrow fuel fuel P min max s.

End Solver.

(** ** Driver (main of solver.cpp) *)

Module Driver.

Import Position.

(** Decimal output of [operator<<] on integers. *)
Definition show (z : Z) : string := NilZero.string_of_int (Z.to_int z).

Definition quote : string := String (ascii_of_nat 34) EmptyString.

(** [std::endl]. *)
Definition endl : string := String (ascii_of_nat 10) EmptyString.

(** [argc > 1 && argv[1][0] == '-' && argv[1][1] == 'w']; [args] is [argv]
    from [argv[1]] on. *)
Definition weak_flag (args : list string) : bool :=
  match args with
  | String c0 (String c1 _) :: _ =>
      Ascii.eqb c0 "-"%char && Ascii.eqb c1 "w"%char
  | _ => false
  end.

(** What one line of input adds to standard output and standard error. *)
Record emitted : Type := mk_emitted {
  to_stdout : string;
  to_stderr : list string
}.

(** The text written to [std::cerr] for an invalid line. *)
Definition diagnostic (l k : Z) (line : string) : string :=
  ("Line " ++ show l ++ ": Invalid move " ++ show k ++ " " ++ quote ++ line
     ++ quote ++ endl)%string.

(** The body of the loop of [main] for input line number [l]; [start_time]
    and [end_time] are the two readings of [getTimeMicrosec]. *)
Definition main_line (fuel : nat) (weak : bool) (start_time end_time : Z)
    (l : Z) (line : string) (solver : Solver.t)
    : option (emitted * Solver.t) :=
  let (P, played) := play_seq empty line in
  if negb (played =? Z.of_nat (String.length line)) then
    Some (mk_emitted endl [diagnostic l (nbMoves P + 1) line], solver)
  else
    let solver := Solver.reset solver in
    match Solver.solve fuel P weak solver with
    | None => None
    | Some (score, solver') =>
        Some (mk_emitted
                (line ++ " " ++ show score ++ " "
                   ++ show (Solver.nodeCount solver') ++ " "
                   ++ show (u64 (end_time - start_time)) ++ endl)%string
                [],
              solver')
    end.

(** [for(int l = 1; std::getline(std::cin, line); l++) { ... }]; [clock]
    gives the two clock readings taken for a line. *)
Fixpoint main_loop (fuel : nat) (weak : bool) (clock : Z -> Z * Z)
    (l : Z) (lines : list string) (solver : Solver.t)
    : option (list emitted) :=
  match lines with
  | [] => Some []
  | line :: rest =>
      match main_line fuel weak (fst (clock l)) (snd (clock l)) l line solver with
      | None => None
      | Some (e, solver') =>
          match main_loop fuel weak clock (l + 1) rest solver' with
          | None => None
          | Some es => Some (e :: es)
          end
      end
  end.

(** [main]: [args] are the command-line arguments and [lines] the lines of
    standard input; the result lists what each line has emitted. *)
Definition main (fuel : nat) (args : list string) (clock : Z -> Z * Z)
    (lines : list string) : option (list emitted) :=
  main_loop fuel (weak_flag args) clock 1 lines
    (Solver.mk 0 TranspositionTable.reset).

End Driver.

(** ** The game and its value *)

Module Game.

Import Position.

Definition columns : list Z := map Z.of_nat (seq 0 (Z.to_nat WIDTH)).

(** The cells a stone can be dropped on, one per column that is not full. *)
Definition legal_moves (P : Position.t) : list Z :=
  filter (fun move => negb (move =? 0)) (map (move_in P) columns).

(** The positions built by valid move sequences: from the empty board, a
    stone is dropped in a column that is not full and does not complete an
    alignment (the moves [play(sequence_string)] accepts). *)
Inductive legal : Position.t -> Prop :=
| legal_empty : legal empty
| legal_play (P : Position.t) (col : Z) :
    legal P ->
    0 <= col < WIDTH ->
    move_in P col <> 0 ->
    Z.land (winning_position P) (move_in P col) = 0 ->
    legal (play P (move_in P col)).

(** Four stones of [stones] in a row in the direction whose neighbouring
    cells are [d] bits apart. *)
Definition aligned4 (stones d : Z) : bool :=
  let pairs := Z.land stones (Z.shiftr stones d) in
  negb (Z.land pairs (Z.shiftr pairs (2 * d)) =? 0).

(** A player has won when four of their stones are aligned vertically,
    horizontally or along a diagonal. *)
Definition has_won (stones : Z) : bool :=
  aligned4 stones 1 || aligned4 stones (HEIGHT + 1)
  || aligned4 stones HEIGHT || aligned4 stones (HEIGHT + 2).

(** The game is already won in a position when either player has. *)
Definition already_won (P : Position.t) : bool :=
  has_won (current_position P)
  || has_won (Z.lxor (current_position P) (mask P)).

(** Result of a position for the player to move under optimal play, with the
    number of stones the winner still has to place. *)
Inductive Outcome : Type :=
| Win (stones : Z)
| Draw
| Loss (stones : Z).

(** The outcome of a position, seen by the player who has just moved into
    it. *)
Definition flip (o : Outcome) : Outcome :=
  match o with
  | Win stones => Loss stones
  | Draw => Draw
  | Loss stones => Win (stones + 1)
  end.

(** A player prefers winning to drawing to losing, a quicker win to a slower
    one and a slower loss to a quicker one. *)
Definition prefers (a b : Outcome) : bool :=
  match a, b with
  | Win s, Win t => s <=? t
  | Win _, _ => true
  | Draw, Win _ => false
  | Draw, _ => true
  | Loss s, Loss t => t <=? s
  | Loss _, _ => false
  end.

Definition better (a b : Outcome) : Outcome := if prefers a b then a else b.

Definition best (outcomes : list Outcome) : Outcome :=
  match outcomes with
  | [] => Draw
  | o :: rest => fold_left better rest o
  end.

(** Exhaustive minimax: the player to move wins at once when a move
    completes an alignment, the game is drawn when the board is full, and
    otherwise the player picks the move whose outcome they prefer. *)
Fixpoint value_rec (n : nat) (P : Position.t) : Outcome :=
  if canWinNext P then Win 1
  else
    match n with
    | O => Draw
    | S n' =>
        best (map (fun move => flip (value_rec n' (play P move))) (legal_moves P))
    end.

Definition value (P : Position.t) : Outcome :=
  value_rec (Z.to_nat (WIDTH * HEIGHT - nbMoves P)) P.

(** The score of an outcome at a position with [m] stones on the board.
    Each player owns [WIDTH*HEIGHT/2] stones; the score of a win is one
    more than the number of stones the winner has left when the game ends,
    and it is negated when the winner is the opponent.  The player to move
    has placed [m/2] stones so far and the opponent [(m+1)/2]. *)
Definition score_of (m : Z) (o : Outcome) : Z :=
  match o with
  | Win stones => WIDTH * HEIGHT / 2 + 1 - (m / 2 + stones)
  | Draw => 0
  | Loss stones => - (WIDTH * HEIGHT / 2 + 1 - ((m + 1) / 2 + stones))
  end.

Definition true_score (P : Position.t) : Z := score_of (nbMoves P) (value P).

(** The contract in the comment of [negamax]: the returned value [r] against
    the actual score [s] and the window. *)
Definition fail_soft (s alpha beta r : Z) : Prop :=
  (s <= alpha -> s <= r <= alpha) /\
  (s >= beta -> beta <= r <= s) /\
  (alpha <= s <= beta -> r = s).

(** Every value readable from the table is an upper bound of the score of
    the position it is read for. *)
Definition bound_valid (T : TranspositionTable.t) : Prop :=
  forall Q v, legal Q ->
    TranspositionTable.get T (key Q) = v -> v <> 0 ->
    true_score Q <= v + MIN_SCORE - 1.

(** The states a solver goes through: after [reset], and after each solve of
    a legal position, strong or weak, run to completion. *)
Inductive reachable : Solver.t -> Prop :=
| reachable_reset (s : Solver.t) : reachable (Solver.reset s)
| reachable_solve (s s' : Solver.t) (fuel : nat) (P : Position.t)
    (weak : bool) (r : Z) :
    reachable s -> legal P -> (43 <= fuel)%nat ->
    Solver.solve fuel P weak s = Some (r, s') ->
    reachable s'.

Definition sign (z : Z) : Z := Z.sgn z.

End Game.

(** * Vocabulary of the properties *)

(** [colsum n f] is the bitboard whose column [c < n] holds the seven bits of
    [f c]. *)
Fixpoint colsum (n : nat) (f : Z -> Z) : Z :=
  match n with
  | O => 0
  | S n' => colsum n' f + f (Z.of_nat n') * 2 ^ (7 * Z.of_nat n')
  end.

(** [filled h] is the mask of a board with [h c] stones in column [c]. *)
Definition filled (h : Z -> Z) : Z := colsum 7 (fun c => Z.ones (h c)).

(** The number of stones in the first [n] columns. *)
Fixpoint stones (n : nat) (h : Z -> Z) : Z :=
  match n with
  | O => 0
  | S n' => stones n' h + h (Z.of_nat n')
  end.

(** The heights after one more stone in column [c]. *)
Definition raise (h : Z -> Z) (c : Z) : Z -> Z :=
  fun c' => if c' =? c then h c + 1 else h c'.

(** A position whose columns are stacks of [h c] stones, [c] in [0..6]: the
    mask is the one of the stacks, the stones of the player to move are
    among them and [moves] counts them. *)
Record well_formed (h : Z -> Z) (P : Position.t) : Prop := {
  wf_heights : forall c, 0 <= c < 7 -> 0 <= h c <= 6;
  wf_mask : Position.mask P = filled h;
  wf_current :
    Z.land (Position.current_position P) (Position.mask P) =
    Position.current_position P;
  wf_moves : Position.moves P = stones 7 h
}.

(** The cells that complete an alignment of the opponent. *)
Definition opponent_alignments (P : Position.t) : Z :=
  Position.alignments
    (Z.lxor (Position.current_position P) (Position.mask P)).

(** The legal cells the opponent would win on: [forced_moves] of
    [possibleNonLosingMoves]. *)
Definition forced_moves (P : Position.t) : Z :=
  Z.land (Position.possible P) (Position.opponent_winning_position P).

(** The outcomes that fit in the stones left: the stone that wins is at most
    the 42nd of the game. *)
Definition feasible (m : Z) (o : Game.Outcome) : Prop :=
  match o with
  | Game.Win t => 1 <= t /\ m + 2 * t <= 43
  | Game.Draw => True
  | Game.Loss t => 1 <= t /\ m + 2 * t <= 42
  end.

(** What the recursive call has to provide on the positions after the moves
    of the sorter. *)
Definition sound_on (rec : Position.t -> Z -> Z -> Solver.t -> option (Z * Solver.t))
    (Q : Position.t) : Prop :=
  forall a b s, a < b -> Game.bound_valid (Solver.transTable s) ->
    exists r s', rec Q a b s = Some (r, s') /\
      Game.fail_soft (Game.true_score Q) a b r /\
      Game.bound_valid (Solver.transTable s').

(** The fuel that suffices for [negamax] on [P]. *)
Definition enough_fuel (fuel : nat) (P : Position.t) : Prop :=
  Position.WIDTH * Position.HEIGHT - Position.nbMoves P < Z.of_nat fuel.

(** What the narrowing loop returns when started from the bounds [lo] and
    [hi], against the score [sc] of the position. *)
Definition narrowed (sc lo hi v : Z) : Prop :=
  (sc < lo -> v = lo) /\
  (lo <= sc <= hi -> v = sc) /\
  (lo <= sc -> hi < sc -> hi <= v <= sc).

(** The position a valid move sequence leads to. *)
Definition position (seq : string) : Position.t :=
  fst (Position.play_seq Position.empty seq).

(** A solver right after construction. *)
Definition fresh : Solver.t := Solver.mk 0 TranspositionTable.reset.

(** The state after [nodeCount++]. *)
Definition counted (s : Solver.t) : Solver.t :=
  Solver.mk (u64 (Solver.nodeCount s + 1)) (Solver.transTable s).

(** The lower bound [min] of [negamax]. *)
Definition score_min (P : Position.t) : Z :=
  cdiv (- (Position.WIDTH * Position.HEIGHT - 2 - Position.nbMoves P)) 2.

(** The upper bound [max] of [negamax], read from the table when it has an
    entry for the position. *)
Definition score_max (P : Position.t) (s : Solver.t) : Z :=
  let val := TranspositionTable.get (Solver.transTable s) (Position.key P) in
  if val =? 0
  then cdiv (Position.WIDTH * Position.HEIGHT - 1 - Position.nbMoves P) 2
  else val + Position.MIN_SCORE - 1.

(** [alpha] after the lower bound tightening of [negamax]. *)
Definition tightened_alpha (P : Position.t) (alpha : Z) : Z :=
  if alpha <? score_min P then score_min P else alpha.

(** [beta] after the upper bound tightening of [negamax]. *)
Definition tightened_beta (P : Position.t) (beta : Z) (s : Solver.t) : Z :=
  if beta >? score_max P s then score_max P s else beta.

(** The four returns of [negamax] that come before the loop over the
    moves: no non-losing move, the draw cutoff, and the two returns on a
    window closed by the bounds. *)
Definition returns_early (P : Position.t) (alpha beta : Z) (s : Solver.t) : bool :=
  (Position.possibleNonLosingMoves P =? 0)
  || (Position.nbMoves P >=? Position.WIDTH * Position.HEIGHT - 2)
  || ((alpha <? score_min P) && (score_min P >=? beta))
  || ((beta >? score_max P s) && (tightened_alpha P alpha >=? score_max P s)).

(** The loop over the moves as [negamax] runs it. *)
Definition moves_loop (fuel : nat) (P : Position.t) (alpha beta : Z) (s : Solver.t)
    : option (Solver.loop_exit * Solver.t) :=
  let moves := Solver.collect_moves P (Position.possibleNonLosingMoves P) in
  Solver.explore (Solver.negamax fuel) (S (MoveSorter.size moves)) P moves
    (tightened_alpha P alpha) (tightened_beta P beta s) (counted s).

(** The first invalid character of a line: the characters before it are all
    applied, it is the [k]-th one, and it is rejected in the position they
    lead to. *)
Definition first_invalid (line : string) (k : Z) : Prop :=
  exists (prefix : string) (ch : ascii) (rest : string) (Q : Position.t),
    line = (prefix ++ String ch rest)%string /\
    Z.of_nat (String.length prefix) = k - 1 /\
    Position.play_seq Position.empty prefix = (Q, k - 1) /\
    Position.valid_char Q ch = false.

(** How a score [v] encodes an outcome at a position with [m] stones: a
    positive score is one more than the number of stones the winner has left
    when the game ends, so the player to move wins with their own
    [WIDTH*HEIGHT/2 + 1 - v]-th stone, that is after
    [WIDTH*HEIGHT/2 + 1 - v - m/2] more stones; symmetrically for the
    opponent when the score is negative. *)
Definition encodes (m : Z) (o : Game.Outcome) (v : Z) : Prop :=
  match o with
  | Game.Win stones =>
      0 < v /\ stones = Position.WIDTH * Position.HEIGHT / 2 + 1 - v - m / 2
  | Game.Draw => v = 0
  | Game.Loss stones =>
      v < 0 /\ stones = Position.WIDTH * Position.HEIGHT / 2 + 1 + v - (m + 1) / 2
  end.

(** The solver after one strong solve of the position reached by [seq]. *)
Definition solved (seq : string) : Solver.t :=
  match Solver.solve 43 (position seq) false fresh with
  | Some (_, s) => s
  | None => fresh
  end.

(** The state a run ends in. *)
Definition final_state (run : option (Z * Solver.t)) : Solver.t :=
  match run with
  | Some (_, s) => s
  | None => fresh
  end.

(** The moves the loop of [negamax] takes from the sorter. *)
Definition candidates (P : Position.t) : list Z :=
  map fst (Solver.collect_moves P (Position.possibleNonLosingMoves P)).

(** [threaded rec P moves s0 s1]: the state [s1] is what a sequence of
    recursive calls leaves when it starts in [s0]; each call is [rec] on the
    position after a move among [moves], and it starts in the state the call
    before it has returned.  Nothing else touches the state. *)
Inductive threaded (rec : Position.t -> Z -> Z -> Solver.t -> option (Z * Solver.t))
    (P : Position.t) (moves : list Z) : Solver.t -> Solver.t -> Prop :=
| threaded_none (s : Solver.t) : threaded rec P moves s s
| threaded_call (s s1 s2 : Solver.t) (move a b r : Z) :
    In move moves ->
    rec (Position.play P move) a b s = Some (r, s1) ->
    threaded rec P moves s1 s2 ->
    threaded rec P moves s s2.

(** No entry has appeared in [T'] for a legal position of at most [m]
    stones: what [T'] returns for it is what [T] returned, or nothing. *)
Definition kept (m : Z) (T T' : TranspositionTable.t) : Prop :=
  forall Q, Game.legal Q -> Position.nbMoves Q <= m ->
    TranspositionTable.get T' (Position.key Q) = TranspositionTable.get T (Position.key Q)
    \/ TranspositionTable.get T' (Position.key Q) = 0.

(** * The solver with its assertions *)

Module Asserting.

Import Position.

(** How a run ends: it returns, it is aborted by an [assert] that fails, or
    the fuel runs out before either. *)
Inductive run (A : Type) : Type :=
| Returned (a : A)
| Aborted
| Unfinished.

Arguments Returned {A} a.
Arguments Aborted {A}.
Arguments Unfinished {A}.

(** The loop over the sorted moves, around a recursive call that can
    abort. *)
Fixpoint explore (rec : Position.t -> Z -> Z -> Solver.t -> run (Z * Solver.t))
    (budget : nat) (P : Position.t) (moves : MoveSorter.t)
    (alpha beta : Z) (s : Solver.t) : run (Solver.loop_exit * Solver.t) :=
  match budget with
  | O => Unfinished
  | S budget' =>
      let (next, moves') := MoveSorter.getNext moves in
      if next =? 0 then Returned (Solver.Exhausted alpha, s)
      else
        let P2 := play P next in
        match rec P2 (- beta) (- alpha) s with
        | Unfinished => Unfinished
        | Aborted => Aborted
        | Returned (r, s') =>
            let score := - r in
            if score >=? beta then Returned (Solver.Cutoff score, s')
            else explore rec budget' P moves'
                   (if score >? alpha then score else alpha) beta s'
        end
  end.

(** [Solver::negamax] with [assert(alpha < beta)] and
    [assert(!P.canWinNext())] in force. *)
Fixpoint negamax (fuel : nat) (P : Position.t) (alpha beta : Z) (s : Solver.t)
    : run (Z * Solver.t) :=
  match fuel with
  | O => Unfinished
  | S fuel' =>
      if negb (alpha <? beta) then Aborted
      else if negb (negb (canWinNext P)) then Aborted
      else
        let s := Solver.mk (u64 (Solver.nodeCount s + 1)) (Solver.transTable s) in
        let next := possibleNonLosingMoves P in
        if next =? 0 then Returned (cdiv (- (WIDTH * HEIGHT - nbMoves P)) 2, s)
        else if nbMoves P >=? WIDTH * HEIGHT - 2 then Returned (0, s)
        else
          let min := cdiv (- (WIDTH * HEIGHT - 2 - nbMoves P)) 2 in
          if (alpha <? min) && (min >=? beta) then Returned (min, s)
          else
            let alpha := if alpha <? min then min else alpha in
            let max := cdiv (WIDTH * HEIGHT - 1 - nbMoves P) 2 in
            let val := TranspositionTable.get (Solver.transTable s) (key P) in
            let max := if val =? 0 then max else val + MIN_SCORE - 1 in
            if (beta >? max) && (alpha >=? max) then Returned (max, s)
            else
              let beta := if beta >? max then max else beta in
              let moves := Solver.collect_moves P next in
              match explore (negamax fuel') (S (MoveSorter.size moves))
                      P moves alpha beta s with
              | Unfinished => Unfinished
              | Aborted => Aborted
              | Returned (Solver.Cutoff score, s') => Returned (score, s')
              | Returned (Solver.Exhausted alpha', s') =>
                  Returned (alpha',
                            Solver.mk (Solver.nodeCount s')
                              (TranspositionTable.put (Solver.transTable s') (key P)
                                 (alpha' - MIN_SCORE + 1)))
              end
  end.

(** The loop of [solve] around the asserting [negamax]. *)
Fixpoint narrow (fuel iterations : nat) (P : Position.t) (min max : Z)
    (s : Solver.t) : run (Z * Solver.t) :=
  if min <? max then
    match iterations with
    | O => Unfinished
    | S iterations' =>
        let med := Solver.median min max in
        match negamax fuel P med (med + 1) s with
        | Unfinished => Unfinished
        | Aborted => Aborted
        | Returned (r, s') =>
            if r <=? med then narrow fuel iterations' P min r s'
            else narrow fuel iterations' P r max s'
        end
    end
  else Returned (min, s).

(** [Solver::solve] around the asserting [negamax]. *)
Definition solve (fuel : nat) (P : Position.t) (weak : bool) (s : Solver.t)
    : run (Z * Solver.t) :=
  if canWinNext P then Returned (cdiv (WIDTH * HEIGHT + 1 - nbMoves P) 2, s)
  else
    let min := cdiv (- (WIDTH * HEIGHT - nbMoves P)) 2 in
    let max := cdiv (WIDTH * HEIGHT + 1 - nbMoves P) 2 in
    let min := if weak then -1 else min in
    let max := if weak then 1 else max in
    narrow fuel fuel P min max s.

(** A run without assertions, seen as a run with them. *)
Definition of_option {A : Type} (o : option A) : run A :=
  match o with
  | Some a => Returned a
  | None => Unfinished
  end.

End Asserting.

(** * The clock *)

(** [struct timeval], as [gettimeofday] fills it. *)
Record timeval : Type := mk_timeval {
  tv_sec : Z;
  tv_usec : Z
}.

(** [getTimeMicrosec]: [NOW.tv_sec*1000000LL + NOW.tv_usec], computed on
    [long long] and returned as [unsigned long long]; [NOW] is the reading
    of [gettimeofday]. *)
Definition getTimeMicrosec (NOW : timeval) : Z :=
  u64 (tv_sec NOW * 1000000 + tv_usec NOW).

(** The readings [gettimeofday] can give for which the sum stays inside
    [long long]: a second count from 0 on, and less than a second of
    microseconds. *)
Definition plausible (NOW : timeval) : Prop :=
  0 <= tv_sec NOW < 2 ^ 43 /\ 0 <= tv_usec NOW < 1000000.

(** [a] is not later than [b]. *)
Definition not_later (a b : timeval) : Prop :=
  tv_sec a < tv_sec b \/ (tv_sec a = tv_sec b /\ tv_usec a <= tv_usec b).

(** The microseconds from [a] to [b]. *)
Definition microseconds_between (a b : timeval) : Z :=
  (tv_sec b - tv_sec a) * 1000000 + (tv_usec b - tv_usec a).

(** * Vocabulary of the further properties *)

(** Every value held by the table fits in the [table_value_size] bits the
    table has for it. *)
Definition values_fit (T : TranspositionTable.t) : Prop :=
  forall i, 0 <= TranspositionTable.V T i < 2 ^ Solver.table_value_size.

(** Two solvers with the same table whose node counters are [d] apart,
    modulo [2^64]. *)
Definition counters_apart (d : Z) (s1 s2 : Solver.t) : Prop :=
  Solver.transTable s1 = Solver.transTable s2 /\
  u64 (Solver.nodeCount s1 - Solver.nodeCount s2) = u64 d.

(** Two runs that end alike: both out of fuel, or both with the same score
    and with states that are again [d] apart. *)
Definition same_run (d : Z) (r1 r2 : option (Z * Solver.t)) : Prop :=
  match r1, r2 with
  | Some (v1, s1), Some (v2, s2) => v1 = v2 /\ counters_apart d s1 s2
  | None, None => True
  | _, _ => False
  end.

(** The search of the weak [solve] written out: the null window [0, 1]
    first, and the null window [-1, 0] only after the score 0. *)
Definition two_probes (fuel : nat) (P : Position.t) (s : Solver.t)
    : option (Z * Solver.t) :=
  match Solver.negamax fuel P 0 1 s with
  | None => None
  | Some (r1, s1) =>
      if r1 >? 0 then Some (r1, s1)
      else if r1 <? 0 then Some (-1, s1)
      else
        match Solver.negamax fuel P (-1) 0 s1 with
        | None => None
        | Some (r2, s2) => if r2 <? 0 then Some (-1, s2) else Some (r2, s2)
        end
  end.

(** The text [main] writes to standard output for a line it has solved. *)
Definition solved_line (line : string) (score nodes elapsed : Z) : string :=
  (line ++ " " ++ Driver.show score ++ " " ++ Driver.show nodes ++ " "
     ++ Driver.show elapsed ++ Driver.endl)%string.

(** What [main] emits for one line: for a line [play] does not apply in
    full an empty line on standard output and one diagnostic; for any other
    line one result line and no diagnostic. *)
Definition line_entry (line : string) (e : Driver.emitted) : Prop :=
  (snd (Position.play_seq Position.empty line) <> Z.of_nat (String.length line) /\
   exists l k, e = Driver.mk_emitted Driver.endl [Driver.diagnostic l k line])
  \/
  (snd (Position.play_seq Position.empty line) = Z.of_nat (String.length line) /\
   exists score nodes elapsed,
     e = Driver.mk_emitted (solved_line line score nodes elapsed) []).

(** The state the loop over the moves ends in. *)
Definition loop_end (run : option (Solver.loop_exit * Solver.t)) : Solver.t :=
  match run with
  | Some (_, s) => s
  | None => fresh
  end.

(** The midpoint [min + (max - min)/2] the loop of [solve] starts from. *)
Definition midpoint (min max : Z) : Z := min + cdiv (max - min) 2.

(** * Tactics *)

(** Case analysis on the integer comparisons of a goal. *)
Ltac bdestruct :=
  repeat match goal with
  | |- context [?a <? ?b] => destruct (Z.ltb_spec a b)
  | |- context [?a <=? ?b] => destruct (Z.leb_spec a b)
  | |- context [?a =? ?b] => destruct (Z.eqb_spec a b)
  end.

(** Goals on booleans that are comparisons of integers. *)
Ltac bsolve :=
  bdestruct; cbn [andb orb negb xorb];
  try reflexivity; try lia; try congruence.

(** Arithmetic with the two integer divisions. *)
Ltac zdiv :=
  unfold cdiv, Position.nbMoves in *; cbn [Position.play Position.moves] in *;
  change Position.WIDTH with 7 in *; change Position.HEIGHT with 6 in *;
  Z.to_euclidean_division_equations; lia.

(** Boolean comparisons among the hypotheses, as propositions. *)
Ltac b2p :=
  rewrite ?Z.gtb_ltb, ?Z.geb_leb in *;
  repeat match goal with
  | H : (_ && _) = true |- _ => apply andb_true_iff in H; destruct H
  | H : (_ && _) = false |- _ => apply andb_false_iff in H
  | H : (_ <? _) = true |- _ => apply Z.ltb_lt in H
  | H : (_ <? _) = false |- _ => apply Z.ltb_ge in H
  | H : (_ <=? _) = true |- _ => apply Z.leb_le in H
  | H : (_ <=? _) = false |- _ => apply Z.leb_gt in H
  | H : (_ =? _) = true |- _ => apply Z.eqb_eq in H
  | H : (_ =? _) = false |- _ => apply Z.eqb_neq in H
  end.

(** * Properties *)

(** ** Bitboards column by column *)

Lemma colsum_bound (n : nat) (f : Z -> Z) :
  (forall c, 0 <= c < Z.of_nat n -> 0 <= f c < 128) ->
  0 <= colsum n f < 2 ^ (7 * Z.of_nat n).
Proof.
  induction n as [|n IH]; intros Hf.
  - simpl. lia.
  - cbn [colsum].
    assert (Hn : 0 <= f (Z.of_nat n) < 128) by (apply Hf; lia).
    assert (IH' : 0 <= colsum n f < 2 ^ (7 * Z.of_nat n))
      by (apply IH; intros; apply Hf; lia).
    replace (7 * Z.of_nat (S n)) with (7 * Z.of_nat n + 7) by lia.
    rewrite Z.pow_add_r by lia.
    change (2 ^ 7) with 128. nia.
Qed.

Lemma testbit_add_mul_pow2 (a b k i : Z) :
  0 <= a < 2 ^ k -> 0 <= k -> 0 <= i ->
  Z.testbit (a + b * 2 ^ k) i =
  if i <? k then Z.testbit a i else Z.testbit b (i - k).
Proof.
  intros Ha Hk Hi. destruct (Z.ltb_spec i k) as [Hlt|Hge].
  - rewrite <- (Z.mod_pow2_bits_low (a + b * 2 ^ k) k i) by lia.
    rewrite Z.mod_add by lia. rewrite Z.mod_small by lia. reflexivity.
  - replace i with ((i - k) + k) at 1 by lia.
    rewrite <- Z.div_pow2_bits by lia.
    rewrite Z.div_add by lia. rewrite Z.div_small by lia. reflexivity.
Qed.

Lemma testbit_small (a i : Z) : 0 <= a < 128 -> 7 <= i -> Z.testbit a i = false.
Proof.
  intros Ha Hi. rewrite <- (Z.mod_small a (2 ^ 7)) by (change (2 ^ 7) with 128; lia).
  apply Z.mod_pow2_bits_high. lia.
Qed.

Lemma colsum_spec (n : nat) (f : Z -> Z) (i : Z) :
  (forall c, 0 <= c < Z.of_nat n -> 0 <= f c < 128) ->
  0 <= i ->
  Z.testbit (colsum n f) i =
  (i / 7 <? Z.of_nat n) && Z.testbit (f (i / 7)) (i mod 7).
Proof.
  induction n as [|n IH]; intros Hf Hi.
  - simpl. rewrite Z.bits_0.
    destruct (Z.ltb_spec (i / 7) 0); [|reflexivity].
    assert (0 <= i / 7) by (apply Z.div_pos; lia). lia.
  - cbn [colsum].
    assert (Hb : 0 <= colsum n f < 2 ^ (7 * Z.of_nat n))
      by (apply colsum_bound; intros; apply Hf; lia).
    rewrite testbit_add_mul_pow2 by lia.
    destruct (Z.ltb_spec i (7 * Z.of_nat n)) as [Hlt|Hge].
    + rewrite IH by (try assumption; intros; apply Hf; lia).
      assert (i / 7 < Z.of_nat n) by (apply Z.div_lt_upper_bound; lia).
      destruct (Z.ltb_spec (i / 7) (Z.of_nat n)); [|lia].
      destruct (Z.ltb_spec (i / 7) (Z.of_nat (S n))); [|lia].
      reflexivity.
    + assert (Z.of_nat n <= i / 7) by (apply Z.div_le_lower_bound; lia).
      destruct (Z.ltb_spec (i / 7) (Z.of_nat (S n))) as [Hc|Hc]; cbn [andb].
      * assert (Heq : i / 7 = Z.of_nat n) by lia.
        rewrite Heq. f_equal.
        pose proof (Z.div_mod i 7 ltac:(lia)). lia.
      * apply testbit_small; [apply Hf; lia|].
        pose proof (Z.div_mod i 7 ltac:(lia)).
        pose proof (Z.mod_pos_bound i 7 ltac:(lia)). lia.
Qed.

Lemma colsum_add (n : nat) (f g : Z -> Z) :
  colsum n f + colsum n g = colsum n (fun c => f c + g c).
Proof.
  induction n as [|n IH]; cbn [colsum]; [reflexivity|].
  rewrite <- IH. ring.
Qed.

Lemma colsum_ext (n : nat) (f g : Z -> Z) :
  (forall c, 0 <= c < Z.of_nat n -> f c = g c) -> colsum n f = colsum n g.
Proof.
  induction n as [|n IH]; intros H; cbn [colsum]; [reflexivity|].
  rewrite IH by (intros; apply H; lia). rewrite H by lia. reflexivity.
Qed.

(** The row and the column of bit [i]. *)
Lemma cell_coords (i : Z) : 0 <= i -> i = 7 * (i / 7) + i mod 7 /\ 0 <= i mod 7 < 7 /\ 0 <= i / 7.
Proof.
  intros Hi. pose proof (Z.div_mod i 7 ltac:(lia)).
  pose proof (Z.mod_pos_bound i 7 ltac:(lia)).
  assert (0 <= i / 7) by (apply Z.div_pos; lia). lia.
Qed.

Lemma cell_col (c k : Z) : 0 <= k < 7 -> (7 * c + k) / 7 = c.
Proof.
  intros Hk. replace (7 * c + k) with (k + c * 7) by lia.
  rewrite Z.div_add by lia. rewrite Z.div_small by lia. lia.
Qed.

Lemma cell_row (c k : Z) : 0 <= k < 7 -> (7 * c + k) mod 7 = k.
Proof.
  intros Hk. replace (7 * c + k) with (k + c * 7) by lia.
  rewrite Z.mod_add by lia. apply Z.mod_small. lia.
Qed.

Lemma bottom_mask_colsum : Position.bottom_mask = colsum 7 (fun _ => 1).
Proof. reflexivity. Qed.

Lemma board_mask_colsum : Position.board_mask = colsum 7 (fun _ => 63).
Proof. reflexivity. Qed.

Lemma column_mask_colsum (c : Z) :
  0 <= c < 7 ->
  Position.column_mask c = colsum 7 (fun c' => if c' =? c then 63 else 0).
Proof.
  intros Hc.
  assert (H : c = 0 \/ c = 1 \/ c = 2 \/ c = 3 \/ c = 4 \/ c = 5 \/ c = 6) by lia.
  repeat destruct H as [H|H]; subst c; reflexivity.
Qed.

Lemma board_mask_spec (i : Z) :
  0 <= i ->
  Z.testbit Position.board_mask i = (i / 7 <? 7) && (i mod 7 <? 6).
Proof.
  intros Hi. rewrite board_mask_colsum, colsum_spec by (intros; lia).
  f_equal. change 63 with (Z.ones 6).
  apply Z.testbit_ones_nonneg; [lia|]. apply cell_coords; assumption.
Qed.

Lemma column_mask_spec (c i : Z) :
  0 <= c < 7 -> 0 <= i ->
  Z.testbit (Position.column_mask c) i = (i / 7 =? c) && (i mod 7 <? 6).
Proof.
  intros Hc Hi. rewrite column_mask_colsum by assumption.
  rewrite colsum_spec by (intros; bsolve; assumption).
  destruct (cell_coords i Hi) as (_ & Hr & Hq).
  destruct (Z.eqb_spec (i / 7) c) as [Heq|Hne].
  - change 63 with (Z.ones 6). rewrite Z.testbit_ones_nonneg by lia.
    change (Z.of_nat 7) with 7. bsolve.
  - rewrite Z.bits_0. rewrite andb_false_r. reflexivity.
Qed.

(** ** Well-formed positions: every column is a stack of stones *)

Lemma ones_bound (n : Z) : 0 <= n <= 6 -> 0 <= Z.ones n < 128.
Proof.
  intros Hn. rewrite Z.ones_equiv.
  assert (0 < 2 ^ n) by (apply Z.pow_pos_nonneg; lia).
  assert (2 ^ n <= 2 ^ 6) by (apply Z.pow_le_mono_r; lia).
  change (2 ^ 6) with 64 in *. lia.
Qed.

Lemma pow2_bound (n : Z) : 0 <= n <= 6 -> 0 <= 2 ^ n < 128.
Proof.
  intros Hn.
  assert (0 < 2 ^ n) by (apply Z.pow_pos_nonneg; lia).
  assert (2 ^ n <= 2 ^ 6) by (apply Z.pow_le_mono_r; lia).
  change (2 ^ 6) with 64 in *. lia.
Qed.

Lemma filled_spec (h : Z -> Z) (i : Z) :
  (forall c, 0 <= c < 7 -> 0 <= h c <= 6) -> 0 <= i ->
  Z.testbit (filled h) i = (i / 7 <? 7) && (i mod 7 <? h (i / 7)).
Proof.
  intros Hh Hi. unfold filled.
  rewrite colsum_spec by (try assumption; intros; apply ones_bound, Hh; lia).
  change (Z.of_nat 7) with 7.
  destruct (cell_coords i Hi) as (_ & Hr & Hq).
  destruct (Z.ltb_spec (i / 7) 7); [|reflexivity]. cbn [andb].
  apply Z.testbit_ones_nonneg; [apply Hh|]; lia.
Qed.

Lemma filled_bound (h : Z -> Z) :
  (forall c, 0 <= c < 7 -> 0 <= h c <= 6) -> 0 <= filled h < 2 ^ 49.
Proof.
  intros Hh. apply (colsum_bound 7). intros. apply ones_bound, Hh. lia.
Qed.

(** [mask + bottom_mask] marks the first empty cell of every column, in the
    sentinel row when the column is full. *)
Lemma filled_plus_bottom (h : Z -> Z) :
  filled h + Position.bottom_mask = colsum 7 (fun c => 2 ^ h c).
Proof.
  unfold filled. rewrite bottom_mask_colsum, colsum_add.
  apply colsum_ext. intros c _. rewrite Z.ones_equiv. lia.
Qed.

Lemma tops_spec (h : Z -> Z) (i : Z) :
  (forall c, 0 <= c < 7 -> 0 <= h c <= 6) -> 0 <= i ->
  Z.testbit (filled h + Position.bottom_mask) i =
  (i / 7 <? 7) && (i mod 7 =? h (i / 7)).
Proof.
  intros Hh Hi. rewrite filled_plus_bottom.
  rewrite colsum_spec by (try assumption; intros; apply pow2_bound, Hh; lia).
  change (Z.of_nat 7) with 7.
  destruct (cell_coords i Hi) as (_ & Hr & Hq).
  destruct (Z.ltb_spec (i / 7) 7); [|reflexivity]. cbn [andb].
  rewrite Z.pow2_bits_eqb by (apply Hh; lia). apply Z.eqb_sym.
Qed.

Lemma tops_bound (h : Z -> Z) :
  (forall c, 0 <= c < 7 -> 0 <= h c <= 6) ->
  0 <= filled h + Position.bottom_mask < 2 ^ 49.
Proof.
  intros Hh. rewrite filled_plus_bottom.
  apply (colsum_bound 7). intros. apply pow2_bound, Hh. lia.
Qed.

(** Replace bit index [i] by its column [q] and row [r]. *)
Ltac coords i Hi :=
  let E := fresh "E" in
  let Hr := fresh "Hr" in
  let Hq := fresh "Hq" in
  destruct (cell_coords i Hi) as (E & Hr & Hq);
  revert E Hr Hq;
  generalize (i mod 7); generalize (i / 7);
  let q := fresh "q" in let r := fresh "r" in
  intros q r E Hr Hq; subst i.

Lemma nonzero_bit (x : Z) :
  0 <= x -> x <> 0 -> exists i, 0 <= i /\ Z.testbit x i = true.
Proof.
  intros Hx Hne. exists (Z.log2 x). split; [apply Z.log2_nonneg|].
  apply Z.bit_log2. lia.
Qed.

Lemma bit_nonzero (x i : Z) : Z.testbit x i = true -> x <> 0.
Proof. intros Hb ->. rewrite Z.bits_0 in Hb. discriminate. Qed.

Lemma u64_small (x : Z) : 0 <= x < 2 ^ 49 -> u64 x = x.
Proof.
  intros Hx. unfold u64. apply Z.mod_small.
  assert (2 ^ 49 < 2 ^ 64) by (apply Z.pow_lt_mono_r; lia). lia.
Qed.

Lemma not64_spec (x i : Z) :
  0 <= i < 64 -> Z.testbit (not64 x) i = negb (Z.testbit x i).
Proof.
  intros Hi. unfold not64, u64.
  rewrite Z.mod_pow2_bits_low by lia. apply Z.lnot_spec. lia.
Qed.

(** A number [x] with [x & (x - 1) = 0] has at most one bit set. *)
Lemma single_bit_pos (p : positive) (i j : Z) :
  Z.land (Z.pos p) (Z.pos p - 1) = 0 ->
  0 <= i -> 0 <= j ->
  Z.testbit (Z.pos p) i = true -> Z.testbit (Z.pos p) j = true -> i = j.
Proof.
  revert i j. induction p as [p IH|p IH|]; intros i j Hland Hi Hj Bi Bj.
  - exfalso. rewrite Pos2Z.inj_xI in Hland.
    replace (2 * Z.pos p + 1 - 1) with (2 * Z.pos p) in Hland by lia.
    destruct (nonzero_bit (Z.pos p)) as (k & Hk & Bk); [lia|lia|].
    apply (f_equal (fun x => Z.testbit x (Z.succ k))) in Hland.
    rewrite Z.land_spec, Z.testbit_odd_succ, Z.testbit_even_succ, Bk, Z.bits_0
      in Hland by assumption.
    discriminate.
  - rewrite Pos2Z.inj_xO in *.
    assert (Hrec : Z.land (Z.pos p) (Z.pos p - 1) = 0).
    { apply Z.bits_inj'. intros k Hk. rewrite Z.bits_0.
      apply (f_equal (fun x => Z.testbit x (Z.succ k))) in Hland.
      replace (2 * Z.pos p - 1) with (2 * (Z.pos p - 1) + 1) in Hland by lia.
      rewrite Z.land_spec, Z.testbit_odd_succ, Z.testbit_even_succ, Z.bits_0
        in Hland by assumption.
      rewrite Z.land_spec. exact Hland. }
    assert (Hpos : forall k, 0 <= k -> Z.testbit (2 * Z.pos p) k = true ->
                     0 <= k - 1 /\ Z.testbit (Z.pos p) (k - 1) = true).
    { intros k Hk Bk. destruct (Z.eq_dec k 0) as [->|Hne].
      - rewrite Z.testbit_even_0 in Bk. discriminate.
      - split; [lia|]. replace k with (Z.succ (k - 1)) in Bk by lia.
        rewrite Z.testbit_even_succ in Bk by lia. exact Bk. }
    destruct (Hpos i Hi Bi) as (Hi' & Bi').
    destruct (Hpos j Hj Bj) as (Hj' & Bj').
    pose proof (IH (i - 1) (j - 1) Hrec Hi' Hj' Bi' Bj'). lia.
  - change 1 with (2 ^ 0) in Bi, Bj.
    rewrite Z.pow2_bits_eqb in Bi, Bj by lia.
    apply Z.eqb_eq in Bi, Bj. lia.
Qed.

Lemma single_bit (x i j : Z) :
  0 < x -> Z.land x (x - 1) = 0 ->
  0 <= i -> 0 <= j ->
  Z.testbit x i = true -> Z.testbit x j = true -> i = j.
Proof.
  intros Hx. destruct x as [|p|p]; try lia. intros. eapply single_bit_pos; eauto.
Qed.

Lemma pow2_land_pred (k : Z) : 0 <= k -> Z.land (2 ^ k) (2 ^ k - 1) = 0.
Proof.
  intros Hk. apply Z.bits_inj'. intros i Hi.
  rewrite Z.land_spec, Z.bits_0, Z.pow2_bits_eqb by assumption.
  replace (2 ^ k - 1) with (Z.ones k) by (rewrite Z.ones_equiv; lia).
  rewrite Z.testbit_ones_nonneg by assumption. bsolve.
Qed.

Section WellFormedPosition.

Variable h : Z -> Z.
Variable P : Position.t.
Hypothesis WF : well_formed h P.

Lemma wf_mask_bound : 0 <= Position.mask P < 2 ^ 49.
Proof. rewrite (wf_mask _ _ WF). apply filled_bound, WF. Qed.

Lemma wf_current_bound : 0 <= Position.current_position P < 2 ^ 49.
Proof.
  pose proof wf_mask_bound as Hm. pose proof (wf_current _ _ WF) as Hc.
  assert (H0 : 0 <= Position.current_position P)
    by (rewrite <- Hc; apply Z.land_nonneg; lia).
  split; [exact H0|].
  destruct (Z.eq_dec (Position.current_position P) 0) as [->|Hne]; [lia|].
  apply Z.log2_lt_pow2; [lia|].
  assert (Z.log2 (Position.current_position P) <= Z.log2 (Position.mask P)).
  { pose proof (Z.log2_land (Position.current_position P) (Position.mask P)
                  H0 (proj1 Hm)) as Hl.
    rewrite Hc in Hl. lia. }
  assert (Position.mask P <> 0).
  { intros E. rewrite E, Z.land_0_r in Hc. congruence. }
  assert (Z.log2 (Position.mask P) < 49) by (apply Z.log2_lt_pow2; lia).
  lia.
Qed.

Lemma possible_spec (i : Z) :
  0 <= i ->
  Z.testbit (Position.possible P) i =
  (i / 7 <? 7) && (i mod 7 =? h (i / 7)) && (i mod 7 <? 6).
Proof.
  intros Hi. unfold Position.possible. rewrite (wf_mask _ _ WF).
  rewrite u64_small by (apply tops_bound, WF).
  rewrite Z.land_spec, tops_spec, board_mask_spec by (try assumption; apply WF).
  bsolve.
Qed.

Lemma possible_nonneg : 0 <= Position.possible P.
Proof.
  unfold Position.possible. apply Z.land_nonneg. right.
  rewrite board_mask_colsum. apply (colsum_bound 7). intros; lia.
Qed.

(** The cell of column [c] a stone can be dropped on. *)
Lemma move_in_spec (c : Z) :
  0 <= c < 7 ->
  Position.move_in P c = if h c <? 6 then 2 ^ (7 * c + h c) else 0.
Proof.
  intros Hc. pose proof (wf_heights _ _ WF c Hc) as Hh.
  apply Z.bits_inj'. intros i Hi. unfold Position.move_in.
  rewrite Z.land_spec, possible_spec, column_mask_spec by assumption.
  destruct (Z.ltb_spec (h c) 6) as [Hlt|Hge].
  - rewrite Z.pow2_bits_eqb by lia. coords i Hi.
    destruct (Z.eqb_spec q c) as [->|Hne]; bsolve.
  - rewrite Z.bits_0. coords i Hi.
    destruct (Z.eqb_spec q c) as [->|Hne]; bsolve.
Qed.

(** A bitboard meets the legal cells exactly when it holds the first empty
    cell of a column that is not full. *)
Lemma land_possible_nonzero (X : Z) :
  Z.land X (Position.possible P) <> 0 <->
  exists c, 0 <= c < 7 /\ h c < 6 /\ Z.testbit X (7 * c + h c) = true.
Proof.
  split.
  - intros Hne. destruct (nonzero_bit _ (proj2 (Z.land_nonneg _ _) (or_intror possible_nonneg)) Hne)
      as (i & Hi & Bi).
    rewrite Z.land_spec, possible_spec in Bi by assumption.
    revert Bi. coords i Hi. intros Bi.
    apply andb_true_iff in Bi. destruct Bi as (BX & Bi).
    exists q. revert Bi. bdestruct; cbn [andb]; try discriminate. intros _.
    subst r. auto with zarith.
  - intros (c & Hc & Hh & BX). pose proof (wf_heights _ _ WF c Hc) as Hb.
    apply (bit_nonzero _ (7 * c + h c)).
    rewrite Z.land_spec, possible_spec, BX by lia.
    rewrite cell_col, cell_row by lia. bsolve.
Qed.

(** The empty cells of the board. *)
Lemma free_cells_spec (i : Z) :
  0 <= i ->
  Z.testbit (Z.lxor Position.board_mask (Position.mask P)) i =
  (i / 7 <? 7) && (h (i / 7) <=? i mod 7) && (i mod 7 <? 6).
Proof.
  intros Hi. rewrite Z.lxor_spec, board_mask_spec, (wf_mask _ _ WF), filled_spec
    by (try assumption; apply WF).
  coords i Hi. destruct (Z.ltb_spec q 7) as [Hlt|Hge]; [|reflexivity].
  pose proof (wf_heights _ _ WF q ltac:(lia)). bsolve.
Qed.

End WellFormedPosition.

(** *** Dropping a stone *)

Lemma raise_heights (h : Z -> Z) (c : Z) :
  (forall c', 0 <= c' < 7 -> 0 <= h c' <= 6) -> 0 <= c < 7 -> h c < 6 ->
  forall c', 0 <= c' < 7 -> 0 <= raise h c c' <= 6.
Proof.
  intros Hh Hc Hlt c' Hc'. unfold raise.
  pose proof (Hh c Hc). pose proof (Hh c' Hc'). bsolve.
Qed.

Lemma stones_raise (h : Z -> Z) (c : Z) :
  0 <= c < 7 -> stones 7 (raise h c) = stones 7 h + 1.
Proof.
  intros Hc.
  assert (H : c = 0 \/ c = 1 \/ c = 2 \/ c = 3 \/ c = 4 \/ c = 5 \/ c = 6) by lia.
  repeat destruct H as [H|H]; subst c; unfold raise; simpl; lia.
Qed.

Lemma stones_bound (h : Z -> Z) :
  (forall c, 0 <= c < 7 -> 0 <= h c <= 6) -> 0 <= stones 7 h <= 42.
Proof.
  intros Hh. simpl.
  pose proof (Hh 0 ltac:(lia)). pose proof (Hh 1 ltac:(lia)).
  pose proof (Hh 2 ltac:(lia)). pose proof (Hh 3 ltac:(lia)).
  pose proof (Hh 4 ltac:(lia)). pose proof (Hh 5 ltac:(lia)).
  pose proof (Hh 6 ltac:(lia)). lia.
Qed.

(** A full board has 42 stones. *)
Lemma stones_full (h : Z -> Z) :
  (forall c, 0 <= c < 7 -> 0 <= h c <= 6) ->
  (forall c, 0 <= c < 7 -> h c = 6) <-> stones 7 h = 42.
Proof.
  intros Hh.
  pose proof (Hh 0 ltac:(lia)). pose proof (Hh 1 ltac:(lia)).
  pose proof (Hh 2 ltac:(lia)). pose proof (Hh 3 ltac:(lia)).
  pose proof (Hh 4 ltac:(lia)). pose proof (Hh 5 ltac:(lia)).
  pose proof (Hh 6 ltac:(lia)).
  split.
  - intros Hfull. simpl. rewrite !Hfull by lia. reflexivity.
  - simpl. intros Hs c Hc.
    assert (E : c = 0 \/ c = 1 \/ c = 2 \/ c = 3 \/ c = 4 \/ c = 5 \/ c = 6) by lia.
    repeat destruct E as [E|E]; subst c; lia.
Qed.

Lemma play_well_formed (h : Z -> Z) (P : Position.t) (c : Z) :
  well_formed h P -> 0 <= c < 7 -> h c < 6 ->
  well_formed (raise h c) (Position.play P (Position.move_in P c)).
Proof.
  intros WF Hc Hlt. pose proof (wf_heights _ _ WF) as Hh.
  pose proof (raise_heights h c Hh Hc Hlt) as Hh'.
  assert (Hmask : Z.lor (Position.mask P) (Position.move_in P c) = filled (raise h c)).
  { rewrite (move_in_spec h P WF c Hc).
    destruct (Z.ltb_spec (h c) 6); [|lia].
    apply Z.bits_inj'. intros i Hi.
    rewrite Z.lor_spec, (wf_mask _ _ WF), !filled_spec by assumption.
    pose proof (Hh c Hc).
    rewrite Z.pow2_bits_eqb by lia. unfold raise. coords i Hi.
    destruct (Z.eqb_spec q c) as [->|Hne]; bsolve. }
  constructor; cbn [Position.play Position.mask Position.current_position Position.moves].
  - exact Hh'.
  - exact Hmask.
  - apply Z.bits_inj'. intros i Hi.
    rewrite Z.land_spec, Z.lor_spec, Z.lxor_spec.
    pose proof (f_equal (fun x => Z.testbit x i) (wf_current _ _ WF)) as B.
    cbn beta in B. rewrite Z.land_spec in B.
    destruct (Z.testbit (Position.current_position P) i),
             (Z.testbit (Position.mask P) i); cbn in *; congruence.
  - rewrite (wf_moves _ _ WF). symmetry. apply stones_raise, Hc.
Qed.

Lemma empty_well_formed : well_formed (fun _ => 0) Position.empty.
Proof. constructor; try reflexivity. intros; lia. Qed.

Lemma legal_well_formed (P : Position.t) :
  Game.legal P -> exists h, well_formed h P.
Proof.
  induction 1 as [|P col _ (h & WF) Hcol Hmove _].
  - exists (fun _ => 0). apply empty_well_formed.
  - exists (raise h col). apply play_well_formed; try assumption.
    rewrite (move_in_spec h P WF col Hcol) in Hmove.
    destruct (Z.ltb_spec (h col) 6); [assumption|congruence].
Qed.

(** *** The key identifies the position *)

Lemma u64_id (x : Z) : 0 <= x < 2 ^ 64 -> u64 x = x.
Proof. intros Hx. unfold u64. apply Z.mod_small, Hx. Qed.

(** The stones of the player to move and the markers of the first empty
    cells do not overlap. *)
Lemma current_tops_disjoint (h : Z -> Z) (P : Position.t) :
  well_formed h P ->
  Z.land (Position.current_position P) (Position.mask P + Position.bottom_mask) = 0.
Proof.
  intros WF. pose proof (wf_heights _ _ WF) as Hh.
  apply Z.bits_inj'. intros i Hi. rewrite Z.bits_0, Z.land_spec.
  pose proof (f_equal (fun x => Z.testbit x i) (wf_current _ _ WF)) as B.
  cbn beta in B. rewrite Z.land_spec in B. rewrite <- B.
  rewrite (wf_mask _ _ WF), tops_spec, filled_spec by assumption.
  destruct (Z.testbit (Position.current_position P) i); [|reflexivity].
  coords i Hi. bsolve.
Qed.

Lemma lor_bound (a b n : Z) :
  0 <= a < 2 ^ n -> 0 <= b < 2 ^ n -> 0 <= Z.lor a b < 2 ^ n.
Proof.
  intros Ha Hb.
  assert (H0 : 0 <= Z.lor a b) by (apply Z.lor_nonneg; lia).
  split; [exact H0|].
  destruct (Z.eq_dec (Z.lor a b) 0) as [->|Hne]; [lia|].
  apply Z.log2_lt_pow2; [lia|]. rewrite Z.log2_lor by lia.
  destruct (Z.eq_dec a 0) as [->|Ha0], (Z.eq_dec b 0) as [->|Hb0];
    try (rewrite Z.lor_0_l in Hne); try (rewrite Z.lor_0_r in Hne);
    try congruence.
  - change (Z.log2 0) with 0.
    assert (Z.log2 b < n) by (apply Z.log2_lt_pow2; lia).
    pose proof (Z.log2_nonneg b). lia.
  - change (Z.log2 0) with 0.
    assert (Z.log2 a < n) by (apply Z.log2_lt_pow2; lia).
    pose proof (Z.log2_nonneg a). lia.
  - assert (Z.log2 a < n) by (apply Z.log2_lt_pow2; lia).
    assert (Z.log2 b < n) by (apply Z.log2_lt_pow2; lia). lia.
Qed.

(** A key fits in the [WIDTH*(HEIGHT+1)] bits the table is declared with. *)
Lemma key_bound (h : Z -> Z) (P : Position.t) :
  well_formed h P ->
  Position.key P = Position.current_position P + Position.mask P /\
  0 <= Position.key P < 2 ^ 49.
Proof.
  intros WF. pose proof (wf_mask_bound h P WF). pose proof (wf_current_bound h P WF).
  assert (E : 2 ^ 50 = 2 * 2 ^ 49) by reflexivity.
  assert (2 ^ 50 < 2 ^ 64) by reflexivity.
  unfold Position.key. rewrite u64_id by lia. split; [reflexivity|].
  split; [lia|].
  pose proof (current_tops_disjoint h P WF) as Hdisj.
  pose proof (tops_bound h (wf_heights _ _ WF)) as Ht.
  rewrite <- (wf_mask _ _ WF) in Ht.
  pose proof (lor_bound _ _ 49 (wf_current_bound h P WF) Ht) as Hl.
  rewrite <- Z.lxor_lor, <- Z.add_nocarry_lxor in Hl by assumption.
  assert (0 < Position.bottom_mask) by reflexivity. lia.
Qed.

(** [key + bottom_mask] holds the stones of the player to move below the
    marker of the first empty cell of each column. *)
Lemma key_plus_bottom_spec (h : Z -> Z) (P : Position.t) (q r : Z) :
  well_formed h P -> 0 <= q < 7 -> 0 <= r < 7 ->
  Z.testbit (Position.key P + Position.bottom_mask) (7 * q + r) =
  (Z.testbit (Position.current_position P) (7 * q + r) && (r <? h q))
  || (r =? h q).
Proof.
  intros WF Hq Hr. pose proof (wf_heights _ _ WF) as Hh.
  destruct (key_bound h P WF) as (-> & _).
  pose proof (current_tops_disjoint h P WF) as Hdisj.
  rewrite <- Z.add_assoc, Z.add_nocarry_lxor, Z.lxor_lor by assumption.
  rewrite Z.lor_spec, (wf_mask _ _ WF), tops_spec by (try assumption; lia).
  rewrite cell_col, cell_row by lia.
  pose proof (f_equal (fun x => Z.testbit x (7 * q + r)) (wf_current _ _ WF)) as B.
  cbn beta in B. rewrite Z.land_spec, (wf_mask _ _ WF), filled_spec in B
    by (try assumption; lia).
  rewrite cell_col, cell_row in B by lia.
  destruct (Z.testbit (Position.current_position P) (7 * q + r)); revert B; bsolve.
Qed.

Lemma key_injective (h1 h2 : Z -> Z) (P1 P2 : Position.t) :
  well_formed h1 P1 -> well_formed h2 P2 ->
  Position.key P1 = Position.key P2 -> P1 = P2.
Proof.
  intros WF1 WF2 Hkey.
  pose proof (wf_heights _ _ WF1) as Hh1. pose proof (wf_heights _ _ WF2) as Hh2.
  assert (Hh : forall c, 0 <= c < 7 -> h1 c = h2 c).
  { intros c Hc. pose proof (Hh1 c Hc). pose proof (Hh2 c Hc).
    pose proof (key_plus_bottom_spec h1 P1 c (h2 c) WF1 Hc ltac:(lia)) as B1.
    pose proof (key_plus_bottom_spec h2 P2 c (h2 c) WF2 Hc ltac:(lia)) as B2.
    pose proof (key_plus_bottom_spec h1 P1 c (h1 c) WF1 Hc ltac:(lia)) as B3.
    pose proof (key_plus_bottom_spec h2 P2 c (h1 c) WF2 Hc ltac:(lia)) as B4.
    rewrite Hkey in B1, B3. rewrite B2 in B1. rewrite B4 in B3.
    clear B2 B4. revert B1 B3. rewrite !Z.eqb_refl, !Z.ltb_irrefl, !andb_false_r.
    cbn [orb]. rewrite ?orb_true_r.
    destruct (Z.ltb_spec (h2 c) (h1 c)), (Z.ltb_spec (h1 c) (h2 c)),
             (Z.eqb_spec (h2 c) (h1 c)), (Z.eqb_spec (h1 c) (h2 c));
      rewrite ?andb_false_r; cbn [orb]; intros; try lia; try discriminate. }
  assert (Hmask : Position.mask P1 = Position.mask P2).
  { rewrite (wf_mask _ _ WF1), (wf_mask _ _ WF2). unfold filled.
    apply colsum_ext. intros c Hc. rewrite Hh by (change (Z.of_nat 7) with 7 in Hc; lia).
    reflexivity. }
  assert (Hmoves : Position.moves P1 = Position.moves P2).
  { rewrite (wf_moves _ _ WF1), (wf_moves _ _ WF2). simpl. rewrite !Hh by lia.
    reflexivity. }
  destruct (key_bound h1 P1 WF1) as (K1 & _).
  destruct (key_bound h2 P2 WF2) as (K2 & _).
  destruct P1 as [c1 m1 n1], P2 as [c2 m2 n2]. cbn in *.
  f_equal; lia.
Qed.

(** *** No false hit in the transposition table *)

Lemma odd_coprime_pow2 (C k : Z) :
  Z.odd C = true -> 0 <= k -> Z.gcd C (2 ^ k) = 1.
Proof.
  intros Hodd Hk. apply Z.coprime_pow_r; [exact Hk|].
  unfold Z.coprime.
  pose proof (Z.gcd_nonneg C 2) as Hnn.
  pose proof (Z.gcd_divide_r C 2) as Hd2.
  pose proof (Z.gcd_divide_l C 2) as HdC.
  assert (Hle : Z.gcd C 2 <= 2) by (apply Z.divide_pos_le; [lia|exact Hd2]).
  assert (Hcase : Z.gcd C 2 = 0 \/ Z.gcd C 2 = 1 \/ Z.gcd C 2 = 2) by lia.
  destruct Hcase as [E|[E|E]]; [|exact E|]; rewrite E in *; exfalso.
  - destruct Hd2 as (q & Hq). lia.
  - destruct HdC as (q & Hq). rewrite Hq in Hodd.
    rewrite Z.odd_mul in Hodd. rewrite andb_false_r in Hodd. discriminate.
Qed.

(** Chinese remainders: a number below [2^n] is determined by its residues
    modulo an odd capacity [C] and modulo [2^k] as soon as
    [2^n <= C * 2^k].  This holds for every odd capacity near [2^23] with
    partial keys of 26 bits or more and keys of 49 bits. *)
Lemma residues_determine (C k n k1 k2 : Z) :
  Z.odd C = true -> 0 < C -> 0 <= k -> 2 ^ n <= C * 2 ^ k ->
  0 <= k1 < 2 ^ n -> 0 <= k2 < 2 ^ n ->
  k1 mod C = k2 mod C -> k1 mod 2 ^ k = k2 mod 2 ^ k -> k1 = k2.
Proof.
  intros Hodd HC Hk Hsize H1 H2 Hi Ht.
  assert (Hp : 0 < 2 ^ k) by (apply Z.pow_pos_nonneg; lia).
  assert (Hd1 : (C | k1 - k2)).
  { apply Z.mod_divide; [lia|]. rewrite Zminus_mod, Hi, Z.sub_diag. reflexivity. }
  assert (Hd2 : (2 ^ k | k1 - k2)).
  { apply Z.mod_divide; [lia|]. rewrite Zminus_mod, Ht, Z.sub_diag. reflexivity. }
  destruct Hd2 as (e & He).
  assert (Hd3 : (C | e)).
  { apply (Z.gauss C (2 ^ k) e); [|apply odd_coprime_pow2; assumption].
    rewrite Z.mul_comm, <- He. exact Hd1. }
  destruct Hd3 as (f & Hf). subst e.
  assert (f = 0) by nia. subst f. lia.
Qed.

(** The slot and the partial key of the table determine a key of 49 bits. *)
Lemma slot_determines_key (k1 k2 : Z) :
  0 <= k1 < 2 ^ 49 -> 0 <= k2 < 2 ^ 49 ->
  TranspositionTable.index k1 = TranspositionTable.index k2 ->
  TranspositionTable.truncate k1 = TranspositionTable.truncate k2 ->
  k1 = k2.
Proof.
  unfold TranspositionTable.index, TranspositionTable.truncate.
  apply residues_determine; try reflexivity.
  - unfold TranspositionTable.partial_bits. lia.
  - unfold TranspositionTable.size, TranspositionTable.partial_bits.
    intros C. vm_compute in C. discriminate.
Qed.

(** *** Moves that hand the opponent a win *)

Lemma land_bound_l (a b n : Z) : 0 <= a < 2 ^ n -> 0 <= b -> 0 <= Z.land a b < 2 ^ n.
Proof.
  intros Ha Hb.
  assert (H0 : 0 <= Z.land a b) by (apply Z.land_nonneg; lia).
  split; [exact H0|].
  destruct (Z.eq_dec (Z.land a b) 0) as [->|Hne]; [lia|].
  destruct (Z.eq_dec a 0) as [->|Ha0]; [rewrite Z.land_0_l in Hne; congruence|].
  pose proof (Z.log2_land a b ltac:(lia) Hb).
  assert (Z.log2 a < n) by (apply Z.log2_lt_pow2; lia).
  apply Z.log2_lt_pow2; lia.
Qed.

Section Threats.

Variable h : Z -> Z.
Variable P : Position.t.
Hypothesis WF : well_formed h P.

Lemma opponent_win_spec (i : Z) :
  0 <= i ->
  Z.testbit (Position.opponent_winning_position P) i =
  Z.testbit (opponent_alignments P) i && ((i / 7 <? 7) && (h (i / 7) <=? i mod 7) && (i mod 7 <? 6)).
Proof.
  intros Hi. unfold Position.opponent_winning_position,
    Position.compute_winning_position.
  rewrite Z.land_spec, (free_cells_spec h P WF) by assumption. reflexivity.
Qed.

Lemma possible_bound : 0 <= Position.possible P < 2 ^ 49.
Proof.
  unfold Position.possible. rewrite (wf_mask _ _ WF).
  rewrite u64_small by (apply tops_bound, WF).
  apply land_bound_l; [apply tops_bound, WF|].
  rewrite board_mask_colsum. apply (colsum_bound 7). intros; lia.
Qed.

Lemma opponent_win_nonneg : 0 <= Position.opponent_winning_position P.
Proof.
  unfold Position.opponent_winning_position, Position.compute_winning_position.
  apply Z.land_nonneg. right. apply Z.lxor_nonneg.
  pose proof (wf_mask_bound h P WF).
  assert (0 <= Position.board_mask) by (rewrite board_mask_colsum; apply (colsum_bound 7); intros; lia).
  lia.
Qed.

Lemma forced_bound : 0 <= forced_moves P < 2 ^ 49.
Proof. apply land_bound_l; [apply possible_bound|apply opponent_win_nonneg]. Qed.

(** The bit of [forced_moves] on the first empty cell of column [q]. *)
Lemma forced_top (q : Z) :
  0 <= q < 7 -> h q < 6 ->
  Z.testbit (forced_moves P) (7 * q + h q) = Z.testbit (opponent_alignments P) (7 * q + h q).
Proof.
  intros Hq Hlt. pose proof (wf_heights _ _ WF q Hq).
  unfold forced_moves. rewrite Z.land_spec, (possible_spec h P WF), opponent_win_spec by lia.
  rewrite cell_col, cell_row by lia.
  destruct (Z.testbit (opponent_alignments P) (7 * q + h q)); bsolve.
Qed.

(** [forced_moves] has no other bits. *)
Lemma forced_bits (i : Z) :
  0 <= i -> Z.testbit (forced_moves P) i = true ->
  exists q, 0 <= q < 7 /\ h q < 6 /\ i = 7 * q + h q /\
            Z.testbit (opponent_alignments P) (7 * q + h q) = true.
Proof.
  intros Hi. unfold forced_moves.
  rewrite Z.land_spec, (possible_spec h P WF), opponent_win_spec by lia.
  coords i Hi. intros B. exists q.
  destruct (Z.testbit (opponent_alignments P) (7 * q + r)) eqn:BR; revert B; bdestruct; cbn [andb];
    try discriminate; intros _; subst r; repeat split; auto with zarith.
Qed.

(** The cell above the first empty cell of column [q]. *)
Lemma opponent_win_above (q : Z) :
  0 <= q < 7 -> h q < 6 ->
  Z.testbit (Position.opponent_winning_position P) (7 * q + h q + 1) =
  Z.testbit (opponent_alignments P) (7 * q + h q + 1) && (h q + 1 <? 6).
Proof.
  intros Hq Hlt. pose proof (wf_heights _ _ WF q Hq).
  rewrite opponent_win_spec by lia.
  replace (7 * q + h q + 1) with (7 * q + (h q + 1)) by lia.
  rewrite cell_col, cell_row by lia.
  destruct (Z.testbit (opponent_alignments P) (7 * q + (h q + 1))); bsolve.
Qed.

Lemma not_below_spec (q : Z) :
  0 <= q < 7 -> h q < 6 ->
  Z.testbit (not64 (Z.shiftr (Position.opponent_winning_position P) 1))
    (7 * q + h q) =
  negb (Z.testbit (opponent_alignments P) (7 * q + h q + 1) && (h q + 1 <? 6)).
Proof.
  intros Hq Hlt. pose proof (wf_heights _ _ WF q Hq).
  rewrite not64_spec by lia. rewrite Z.shiftr_spec by lia.
  rewrite opponent_win_above by assumption. reflexivity.
Qed.

Lemma non_losing_subset (i : Z) :
  0 <= i ->
  Z.testbit (Position.possibleNonLosingMoves P) i = true ->
  Z.testbit (Position.possible P) i = true.
Proof.
  intros Hi. unfold Position.possibleNonLosingMoves.
  destruct (negb _).
  - destruct (negb _).
    + rewrite Z.bits_0. discriminate.
    + rewrite !Z.land_spec. intros B.
      apply andb_true_iff in B. destruct B as (B & _).
      apply andb_true_iff in B. apply B.
  - rewrite Z.land_spec. intros B. apply andb_true_iff in B. apply B.
Qed.

(** The opponent can win right after a stone is dropped in column [c]
    exactly when an alignment cell of theirs tops a column. *)
Lemma can_win_after (c : Z) :
  0 <= c < 7 -> h c < 6 ->
  Position.canWinNext (Position.play P (Position.move_in P c)) = true <->
  exists c', 0 <= c' < 7 /\ raise h c c' < 6 /\
             Z.testbit (opponent_alignments P) (7 * c' + raise h c c') = true.
Proof.
  intros Hc Hlt.
  pose proof (play_well_formed h P c WF Hc Hlt) as WF'.
  pose proof (wf_heights _ _ WF') as Hh'.
  unfold Position.canWinNext. rewrite negb_true_iff, Z.eqb_neq.
  rewrite (land_possible_nonzero (raise h c) _ WF').
  split; intros (c' & Hc' & Hlt' & B); exists c'; (split; [exact Hc'|split; [exact Hlt'|]]);
    pose proof (Hh' c' Hc');
    revert B; unfold Position.winning_position, Position.compute_winning_position;
    rewrite Z.land_spec, (free_cells_spec _ _ WF') by lia;
    rewrite cell_col, cell_row by lia;
    cbn [Position.play Position.current_position Position.mask];
    fold (opponent_alignments P);
    destruct (Z.testbit (opponent_alignments P) (7 * c' + raise h c c')); bsolve.
Qed.

(** What the opponent threatens once a stone is dropped in column [c]: a
    winning cell on top of another column, or the cell above the stone. *)
Lemma threat_cases (c : Z) :
  0 <= c < 7 -> h c < 6 ->
  Position.canWinNext (Position.play P (Position.move_in P c)) = true ->
  Z.testbit (opponent_alignments P) (7 * c + h c + 1) && (h c + 1 <? 6) = true \/
  exists c', c' <> c /\ 0 <= c' < 7 /\ h c' < 6 /\
             Z.testbit (opponent_alignments P) (7 * c' + h c') = true.
Proof.
  intros Hc Hlt Hwin. apply (can_win_after c Hc Hlt) in Hwin.
  destruct Hwin as (c' & Hc' & Hlt' & B). unfold raise in Hlt', B.
  destruct (Z.eqb_spec c' c) as [->|Hne].
  - left. replace (7 * c + h c + 1) with (7 * c + (h c + 1)) by lia.
    rewrite B. bsolve.
  - right. exists c'. auto.
Qed.

Lemma no_threat_elsewhere (c q : Z) :
  0 <= c < 7 -> h c < 6 ->
  Position.canWinNext (Position.play P (Position.move_in P c)) = false ->
  0 <= q < 7 -> h q < 6 -> Z.testbit (opponent_alignments P) (7 * q + h q) = true -> q = c.
Proof.
  intros Hc Hlt Hwin Hq Hltq B.
  destruct (Z.eq_dec q c) as [E|Hne]; [exact E|exfalso].
  assert (Position.canWinNext (Position.play P (Position.move_in P c)) = true);
    [|congruence].
  apply (can_win_after c Hc Hlt). exists q. unfold raise.
  destruct (Z.eqb_spec q c); [contradiction|auto].
Qed.

Lemma no_threat_above (c : Z) :
  0 <= c < 7 -> h c < 6 ->
  Position.canWinNext (Position.play P (Position.move_in P c)) = false ->
  Z.testbit (opponent_alignments P) (7 * c + h c + 1) && (h c + 1 <? 6) = false.
Proof.
  intros Hc Hlt Hwin.
  destruct (Z.testbit (opponent_alignments P) (7 * c + h c + 1) && (h c + 1 <? 6)) eqn:E; [|reflexivity].
  exfalso. apply andb_true_iff in E. destruct E as (B & L). apply Z.ltb_lt in L.
  assert (Position.canWinNext (Position.play P (Position.move_in P c)) = true);
    [|congruence].
  apply (can_win_after c Hc Hlt). exists c. unfold raise. rewrite Z.eqb_refl.
  replace (7 * c + (h c + 1)) with (7 * c + h c + 1) by lia. auto.
Qed.

Lemma only_forced (c : Z) :
  0 <= c < 7 -> h c < 6 ->
  Position.canWinNext (Position.play P (Position.move_in P c)) = false ->
  (forced_moves P) <> 0 -> (forced_moves P) = 2 ^ (7 * c + h c).
Proof.
  intros Hc Hlt Hwin Hne. pose proof (wf_heights _ _ WF c Hc) as Hhc.
  assert (Honly : forall j, 0 <= j -> Z.testbit (forced_moves P) j = true -> j = 7 * c + h c).
  { intros j Hj Bj. destruct (forced_bits j Hj Bj) as (q & Hq & Hltq & -> & BR).
    rewrite (no_threat_elsewhere c q Hc Hlt Hwin Hq Hltq BR). reflexivity. }
  destruct (nonzero_bit (forced_moves P) (proj1 forced_bound) Hne) as (j0 & Hj0 & Bj0).
  pose proof (Honly j0 Hj0 Bj0) as E0. subst j0.
  apply Z.bits_inj'. intros j Hj. rewrite Z.pow2_bits_eqb by lia.
  destruct (Z.eqb_spec (7 * c + h c) j) as [<-|Hnej]; [exact Bj0|].
  destruct (Z.testbit (forced_moves P) j) eqn:Bj; [|reflexivity].
  pose proof (Honly j Hj Bj). lia.
Qed.

(** The first empty cell of column [c] is a non-losing move exactly when
    the opponent cannot win right after a stone is dropped there. *)
Lemma non_losing_bit (c : Z) :
  0 <= c < 7 -> h c < 6 ->
  Z.testbit (Position.possibleNonLosingMoves P) (7 * c + h c) =
  negb (Position.canWinNext (Position.play P (Position.move_in P c))).
Proof.
  intros Hc Hlt. pose proof (wf_heights _ _ WF c Hc) as Hhc.
  pose proof forced_bound as Hfb.
  unfold Position.possibleNonLosingMoves. fold (forced_moves P).
  destruct (Z.eqb_spec (forced_moves P) 0) as [Hf0|Hfne]; cbn [negb].
  - rewrite Z.land_spec, (possible_spec h P WF), not_below_spec by (try assumption; lia).
    rewrite cell_col, cell_row by lia.
    destruct (Position.canWinNext (Position.play P (Position.move_in P c))) eqn:Ecw.
    + destruct (threat_cases c Hc Hlt Ecw) as [Ha|(c' & Hne & Hc' & Hlt' & B)].
      * rewrite Ha. bsolve.
      * exfalso. apply (bit_nonzero (forced_moves P) (7 * c' + h c')); [|exact Hf0].
        rewrite forced_top; assumption.
    + rewrite (no_threat_above c Hc Hlt Ecw). bsolve.
  - destruct (Z.eqb_spec (Z.land (forced_moves P) (u64 ((forced_moves P) - 1))) 0) as [Hs|Hm]; cbn [negb].
    + rewrite u64_small in Hs by lia.
      rewrite Z.land_spec, not_below_spec, forced_top by assumption.
      destruct (Position.canWinNext (Position.play P (Position.move_in P c))) eqn:Ecw.
      * destruct (threat_cases c Hc Hlt Ecw) as [Ha|(c' & Hne & Hc' & Hlt' & B)].
        -- rewrite Ha. apply andb_false_r.
        -- destruct (Z.testbit (opponent_alignments P) (7 * c + h c)) eqn:BR; [exfalso|reflexivity].
           pose proof (wf_heights _ _ WF c' Hc').
           assert (7 * c + h c = 7 * c' + h c'); [|lia].
           apply (single_bit (forced_moves P)); try lia; try assumption.
           ++ rewrite forced_top; assumption.
           ++ rewrite forced_top; assumption.
      * rewrite (no_threat_above c Hc Hlt Ecw).
        rewrite <- forced_top by assumption.
        rewrite (only_forced c Hc Hlt Ecw Hfne).
        rewrite Z.pow2_bits_eqb by lia. rewrite Z.eqb_refl. reflexivity.
    + rewrite Z.bits_0.
      destruct (Position.canWinNext (Position.play P (Position.move_in P c))) eqn:Ecw;
        [reflexivity|exfalso].
      apply Hm. rewrite (only_forced c Hc Hlt Ecw Hfne).
      assert (2 ^ (7 * c + h c) <= 2 ^ 48) by (apply Z.pow_le_mono_r; lia).
      assert (0 < 2 ^ (7 * c + h c)) by (apply Z.pow_pos_nonneg; lia).
      assert (2 ^ 48 < 2 ^ 49) by reflexivity.
      rewrite u64_small by lia. apply pow2_land_pred. lia.
Qed.

(** The part of a set of legal cells that lies in column [c]. *)
Lemma column_cell (X : Z) (c : Z) :
  0 <= c < 7 ->
  (forall i, 0 <= i -> Z.testbit X i = true ->
             Z.testbit (Position.possible P) i = true) ->
  Z.land X (Position.column_mask c) =
  if (h c <? 6) && Z.testbit X (7 * c + h c) then 2 ^ (7 * c + h c) else 0.
Proof.
  intros Hc Hsub. pose proof (wf_heights _ _ WF c Hc) as Hhc.
  apply Z.bits_inj'. intros i Hi.
  rewrite Z.land_spec, column_mask_spec by assumption.
  destruct (Z.testbit X i) eqn:BX.
  - pose proof (Hsub i Hi BX) as Bp. rewrite (possible_spec h P WF) in Bp by assumption.
    revert Bp BX. coords i Hi. intros Bp BX.
    destruct (Z.eqb_spec q c) as [->|Hne]; cbn [andb].
    + assert (r = h c /\ h c < 6) as (-> & Hlt) by (revert Bp; bsolve).
      rewrite BX. destruct (Z.ltb_spec (h c) 6); [|lia]. cbn [andb].
      rewrite Z.pow2_bits_eqb by lia. rewrite Z.eqb_refl. bsolve.
    + destruct ((h c <? 6) && Z.testbit X (7 * c + h c));
        [|rewrite Z.bits_0; reflexivity].
      rewrite Z.pow2_bits_eqb by lia. bsolve.
  - cbn [andb]. destruct ((h c <? 6) && Z.testbit X (7 * c + h c)) eqn:E;
      [|rewrite Z.bits_0; reflexivity].
    apply andb_true_iff in E. destruct E as (_ & E).
    rewrite Z.pow2_bits_eqb by lia.
    destruct (Z.eqb_spec (7 * c + h c) i) as [<-|]; [congruence|reflexivity].
Qed.

(** [next & column_mask(col)] is the move of column [col] when the column is
    not full and the opponent cannot win after it, and 0 otherwise. *)
Lemma non_losing_column (c : Z) :
  0 <= c < 7 ->
  Z.land (Position.possibleNonLosingMoves P) (Position.column_mask c) =
  if (Position.move_in P c =? 0)
     || Position.canWinNext (Position.play P (Position.move_in P c))
  then 0 else Position.move_in P c.
Proof.
  intros Hc. pose proof (wf_heights _ _ WF c Hc) as Hhc.
  rewrite (column_cell _ c Hc non_losing_subset).
  pose proof (move_in_spec h P WF c Hc) as Hmv.
  destruct (Z.ltb_spec (h c) 6) as [Hlt|Hge]; cbn [andb].
  - rewrite (non_losing_bit c Hc Hlt).
    destruct (Position.canWinNext _); rewrite Hmv.
    + rewrite orb_true_r. reflexivity.
    + assert (0 < 2 ^ (7 * c + h c)) by (apply Z.pow_pos_nonneg; lia).
      destruct (Z.eqb_spec (2 ^ (7 * c + h c)) 0); [lia|reflexivity].
  - rewrite Hmv. reflexivity.
Qed.

End Threats.

(** ** Legal positions *)

Lemma columns_spec (c : Z) : In c Game.columns <-> 0 <= c < 7.
Proof.
  unfold Game.columns. change (Z.to_nat Position.WIDTH) with 7%nat.
  cbn [seq map Z.of_nat Pos.of_succ_nat Pos.succ In]. lia.
Qed.

Lemma legal_moves_spec (P : Position.t) (move : Z) :
  In move (Game.legal_moves P) <->
  exists c, 0 <= c < 7 /\ move = Position.move_in P c /\ move <> 0.
Proof.
  unfold Game.legal_moves. rewrite filter_In, in_map_iff.
  rewrite negb_true_iff, Z.eqb_neq. split.
  - intros ((c & E & Hin) & Hne). exists c. rewrite <- columns_spec. auto.
  - intros (c & Hc & E & Hne). split; [|exact Hne].
    exists c. rewrite columns_spec. auto.
Qed.

Lemma legal_nbMoves (P : Position.t) : Game.legal P -> 0 <= Position.nbMoves P <= 42.
Proof.
  intros HL. destruct (legal_well_formed P HL) as (h & WF).
  unfold Position.nbMoves. rewrite (wf_moves _ _ WF).
  apply stones_bound, WF.
Qed.

Lemma legal_move_nbMoves (P : Position.t) (move : Z) :
  Game.legal P -> In move (Game.legal_moves P) -> Position.nbMoves P < 42.
Proof.
  intros HL Hin. destruct (legal_well_formed P HL) as (h & WF).
  apply legal_moves_spec in Hin. destruct Hin as (c & Hc & -> & Hne).
  rewrite (move_in_spec h P WF c Hc) in Hne.
  destruct (Z.ltb_spec (h c) 6) as [Hlt|]; [|congruence].
  pose proof (stones_bound h (wf_heights _ _ WF)).
  unfold Position.nbMoves. rewrite (wf_moves _ _ WF).
  destruct (Z.eq_dec (stones 7 h) 42) as [E|]; [|lia].
  pose proof (proj2 (stones_full h (wf_heights _ _ WF)) E c Hc). lia.
Qed.

Lemma no_legal_move_full (P : Position.t) :
  Game.legal P -> Game.legal_moves P = [] -> Position.nbMoves P = 42.
Proof.
  intros HL Hnil. destruct (legal_well_formed P HL) as (h & WF).
  unfold Position.nbMoves. rewrite (wf_moves _ _ WF).
  apply (stones_full h (wf_heights _ _ WF)). intros c Hc.
  pose proof (wf_heights _ _ WF c Hc).
  destruct (Z.eq_dec (h c) 6) as [E|Hne]; [exact E|exfalso].
  assert (Hin : In (Position.move_in P c) (Game.legal_moves P)).
  { apply legal_moves_spec. exists c. split; [exact Hc|split; [reflexivity|]].
    rewrite (move_in_spec h P WF c Hc).
    destruct (Z.ltb_spec (h c) 6); [|lia].
    assert (0 < 2 ^ (7 * c + h c)) by (apply Z.pow_pos_nonneg; lia). lia. }
  rewrite Hnil in Hin. exact Hin.
Qed.

Lemma can_win_has_move (P : Position.t) :
  Game.legal P -> Position.canWinNext P = true -> Position.nbMoves P < 42.
Proof.
  intros HL Hwin. destruct (legal_well_formed P HL) as (h & WF).
  unfold Position.canWinNext in Hwin. rewrite negb_true_iff, Z.eqb_neq in Hwin.
  apply (land_possible_nonzero h P WF) in Hwin.
  destruct Hwin as (c & Hc & Hlt & _).
  pose proof (stones_bound h (wf_heights _ _ WF)).
  unfold Position.nbMoves. rewrite (wf_moves _ _ WF).
  destruct (Z.eq_dec (stones 7 h) 42) as [E|]; [|lia].
  pose proof (proj2 (stones_full h (wf_heights _ _ WF)) E c Hc). lia.
Qed.

(** When the player to move cannot win at once, every legal move leads to a
    legal position. *)
Lemma legal_child (P : Position.t) (move : Z) :
  Game.legal P -> Position.canWinNext P = false ->
  In move (Game.legal_moves P) -> Game.legal (Position.play P move).
Proof.
  intros HL Hwin Hin. apply legal_moves_spec in Hin.
  destruct Hin as (c & Hc & -> & Hne).
  apply Game.legal_play; try assumption.
  unfold Position.canWinNext in Hwin. rewrite negb_false_iff, Z.eqb_eq in Hwin.
  unfold Position.move_in. rewrite Z.land_assoc, Hwin. apply Z.land_0_l.
Qed.

Lemma non_losing_moves_column (P : Position.t) (c : Z) :
  Game.legal P -> 0 <= c < 7 ->
  Z.land (Position.possibleNonLosingMoves P) (Position.column_mask c) =
  if (Position.move_in P c =? 0)
     || Position.canWinNext (Position.play P (Position.move_in P c))
  then 0 else Position.move_in P c.
Proof.
  intros HL Hc. destruct (legal_well_formed P HL) as (h & WF).
  apply (non_losing_column h P WF c Hc).
Qed.

(** A non-empty set of non-losing moves holds the move of some column. *)
Lemma non_losing_moves_nonzero (P : Position.t) :
  Game.legal P -> Position.possibleNonLosingMoves P <> 0 ->
  exists c, 0 <= c < 7 /\
    Z.land (Position.possibleNonLosingMoves P) (Position.column_mask c) <> 0.
Proof.
  intros HL Hne. destruct (legal_well_formed P HL) as (h & WF).
  assert (Hnn : 0 <= Position.possibleNonLosingMoves P).
  { pose proof (possible_nonneg P).
    unfold Position.possibleNonLosingMoves.
    destruct (negb _); [destruct (negb _); [lia|]|].
    - apply Z.land_nonneg; left. apply Z.land_nonneg; left. exact H.
    - apply Z.land_nonneg; left. exact H. }
  destruct (nonzero_bit _ Hnn Hne) as (i & Hi & Bi).
  pose proof (non_losing_subset P i Hi Bi) as Bp.
  rewrite (possible_spec h P WF) in Bp by assumption.
  exists (i / 7).
  destruct (cell_coords i Hi) as (_ & Hr & Hq).
  assert (Hq7 : i / 7 < 7) by (revert Bp; bsolve).
  split; [lia|]. apply (bit_nonzero _ i).
  rewrite Z.land_spec, Bi, column_mask_spec by lia.
  revert Bp. bsolve.
Qed.

Lemma legal_key_injective (P Q : Position.t) :
  Game.legal P -> Game.legal Q -> Position.key P = Position.key Q -> P = Q.
Proof.
  intros HP HQ. destruct (legal_well_formed P HP) as (hp & WFP).
  destruct (legal_well_formed Q HQ) as (hq & WFQ).
  apply (key_injective hp hq); assumption.
Qed.

Lemma legal_key_bound (P : Position.t) :
  Game.legal P -> 0 <= Position.key P < 2 ^ 49.
Proof.
  intros HP. destruct (legal_well_formed P HP) as (h & WF).
  apply (key_bound h P WF).
Qed.

(** ** The value of a position *)

Lemma feasible_flip (m : Z) (o : Game.Outcome) :
  feasible (m + 1) o -> feasible m (Game.flip o).
Proof. destruct o; unfold feasible, Game.flip; lia. Qed.

Lemma score_flip (m : Z) (o : Game.Outcome) :
  0 <= m -> Game.score_of m (Game.flip o) = - Game.score_of (m + 1) o.
Proof. intros Hm. destruct o; cbn [Game.flip Game.score_of]; zdiv. Qed.

Lemma prefers_score (m : Z) (a b : Game.Outcome) :
  0 <= m -> feasible m a -> feasible m b ->
  (Game.prefers a b = true <-> Game.score_of m b <= Game.score_of m a).
Proof.
  intros Hm Ha Hb.
  destruct a, b; cbn [Game.prefers Game.score_of feasible] in *;
    rewrite ?Z.leb_le; split; intros; try discriminate; try reflexivity; zdiv.
Qed.

Lemma better_score (m : Z) (a b : Game.Outcome) :
  0 <= m -> feasible m a -> feasible m b ->
  Game.score_of m (Game.better a b) = Z.max (Game.score_of m a) (Game.score_of m b).
Proof.
  intros Hm Ha Hb. unfold Game.better.
  pose proof (prefers_score m a b Hm Ha Hb) as H.
  destruct (Game.prefers a b).
  - assert (Game.score_of m b <= Game.score_of m a) by (apply H; reflexivity). lia.
  - assert (~ Game.score_of m b <= Game.score_of m a)
      by (intros C; apply H in C; discriminate). lia.
Qed.

Lemma better_feasible (m : Z) (a b : Game.Outcome) :
  feasible m a -> feasible m b -> feasible m (Game.better a b).
Proof. intros Ha Hb. unfold Game.better. destruct (Game.prefers a b); assumption. Qed.

Lemma fold_better_spec (m : Z) (rest : list Game.Outcome) (o : Game.Outcome) :
  0 <= m -> feasible m o -> (forall x, In x rest -> feasible m x) ->
  let b := fold_left Game.better rest o in
  In b (o :: rest) /\ feasible m b /\
  forall x, In x (o :: rest) -> Game.score_of m x <= Game.score_of m b.
Proof.
  intros Hm. revert o. induction rest as [|y rest IH]; intros o Ho Hrest; cbn [fold_left].
  - split; [left; reflexivity|]. split; [exact Ho|].
    intros x [<-|[]]. lia.
  - assert (Hy : feasible m y) by (apply Hrest; left; reflexivity).
    destruct (IH (Game.better o y) (better_feasible m o y Ho Hy)
                (fun x Hx => Hrest x (or_intror Hx))) as (Hin & Hf & Hmax).
    pose proof (better_score m o y Hm Ho Hy) as Hs.
    split; [|split; [exact Hf|]].
    + destruct Hin as [E|Hin]; [|right; right; exact Hin].
      rewrite <- E. unfold Game.better. destruct (Game.prefers o y); cbn; auto.
    + intros x [<-|[<-|Hx]].
      * specialize (Hmax _ (or_introl eq_refl)). lia.
      * specialize (Hmax _ (or_introl eq_refl)). lia.
      * apply Hmax. right. exact Hx.
Qed.

Lemma value_rec_can_win (n : nat) (P : Position.t) :
  Position.canWinNext P = true -> Game.value_rec n P = Game.Win 1.
Proof. intros H. destruct n; cbn [Game.value_rec]; rewrite H; reflexivity. Qed.

(** The value of a position where the player to move cannot win at once is
    the best of the values of the positions after each legal move. *)
Lemma value_unfold (P : Position.t) :
  Game.legal P -> Position.canWinNext P = false ->
  Game.value P =
  Game.best (map (fun move => Game.flip (Game.value (Position.play P move)))
               (Game.legal_moves P)).
Proof.
  intros HL Hwin. unfold Game.value.
  destruct (Game.legal_moves P) as [|mv rest] eqn:Emoves.
  - pose proof (no_legal_move_full P HL Emoves) as Hfull.
    rewrite Hfull. change (Z.to_nat (Position.WIDTH * Position.HEIGHT - 42)) with O.
    cbn [Game.value_rec]. rewrite Hwin. reflexivity.
  - assert (Hlt : Position.nbMoves P < 42).
    { apply (legal_move_nbMoves P mv HL). rewrite Emoves. left. reflexivity. }
    pose proof (legal_nbMoves P HL) as Hm.
    replace (Z.to_nat (Position.WIDTH * Position.HEIGHT - Position.nbMoves P))
      with (S (Z.to_nat (Position.WIDTH * Position.HEIGHT - (Position.nbMoves P + 1))))
      by (change (Position.WIDTH * Position.HEIGHT) with 42; lia).
    cbn [Game.value_rec]. rewrite Hwin, Emoves. reflexivity.
Qed.

Lemma value_feasible (P : Position.t) :
  Game.legal P -> feasible (Position.nbMoves P) (Game.value P).
Proof.
  remember (Z.to_nat (42 - Position.nbMoves P)) as k eqn:Ek.
  revert P Ek. induction k as [k IH] using lt_wf_ind. intros P Ek HL.
  pose proof (legal_nbMoves P HL) as Hm.
  destruct (Position.canWinNext P) eqn:Hwin.
  - unfold Game.value. rewrite value_rec_can_win by assumption.
    pose proof (can_win_has_move P HL Hwin). cbn. lia.
  - rewrite (value_unfold P HL Hwin).
    destruct (Game.legal_moves P) as [|mv rest] eqn:Emoves; [exact I|].
    assert (Hchild : forall x,
      In x (map (fun move => Game.flip (Game.value (Position.play P move))) (mv :: rest)) ->
      feasible (Position.nbMoves P) x).
    { intros x Hx. apply in_map_iff in Hx. destruct Hx as (move & <- & Hin).
      rewrite <- Emoves in Hin.
      pose proof (legal_move_nbMoves P move HL Hin).
      apply feasible_flip.
      apply (IH (Z.to_nat (42 - Position.nbMoves (Position.play P move)))).
      - subst k. cbn [Position.play Position.nbMoves Position.moves].
        unfold Position.nbMoves in *. lia.
      - reflexivity.
      - apply legal_child; assumption. }
    cbn [map Game.best].
    apply (fold_better_spec (Position.nbMoves P)); [lia| |].
    + apply Hchild. left. reflexivity.
    + intros x Hx. apply Hchild. right. exact Hx.
Qed.

Lemma true_score_can_win (P : Position.t) :
  Game.legal P -> Position.canWinNext P = true ->
  Game.true_score P =
  cdiv (Position.WIDTH * Position.HEIGHT + 1 - Position.nbMoves P) 2.
Proof.
  intros HL Hwin. pose proof (legal_nbMoves P HL).
  unfold Game.true_score, Game.value. rewrite value_rec_can_win by assumption.
  cbn [Game.score_of]. zdiv.
Qed.

Lemma true_score_full (P : Position.t) :
  Game.legal P -> Position.canWinNext P = false -> Game.legal_moves P = [] ->
  Game.true_score P = 0.
Proof.
  intros HL Hwin Hnil. unfold Game.true_score.
  rewrite (value_unfold P HL Hwin), Hnil. reflexivity.
Qed.

(** No move is better than the value. *)
Lemma true_score_child (P : Position.t) (move : Z) :
  Game.legal P -> Position.canWinNext P = false ->
  In move (Game.legal_moves P) ->
  - Game.true_score (Position.play P move) <= Game.true_score P.
Proof.
  intros HL Hwin Hin. pose proof (legal_nbMoves P HL) as Hm.
  unfold Game.true_score. rewrite (value_unfold P HL Hwin).
  assert (Hf : forall mv, In mv (Game.legal_moves P) ->
            feasible (Position.nbMoves P) (Game.flip (Game.value (Position.play P mv)))).
  { intros mv Hmv. apply feasible_flip.
    apply (value_feasible (Position.play P mv)). apply legal_child; assumption. }
  replace (- Game.score_of (Position.nbMoves (Position.play P move))
               (Game.value (Position.play P move)))
    with (Game.score_of (Position.nbMoves P)
            (Game.flip (Game.value (Position.play P move))))
    by (apply score_flip; lia).
  destruct (Game.legal_moves P) as [|mv rest] eqn:Emoves; [destruct Hin|].
  cbn [map Game.best].
  destruct (fold_better_spec (Position.nbMoves P)
              (map (fun m' => Game.flip (Game.value (Position.play P m'))) rest)
              (Game.flip (Game.value (Position.play P mv))) ltac:(lia)
              (Hf mv (or_introl eq_refl))) as (_ & _ & Hmax).
  { intros x Hx. apply in_map_iff in Hx. destruct Hx as (m' & <- & Hm').
    apply Hf. right. exact Hm'. }
  apply Hmax.
  exact (in_map (fun m' => Game.flip (Game.value (Position.play P m')))
           (mv :: rest) move Hin).
Qed.

(** Some move attains the value. *)
Lemma true_score_attained (P : Position.t) :
  Game.legal P -> Position.canWinNext P = false -> Game.legal_moves P <> [] ->
  exists move, In move (Game.legal_moves P) /\
    Game.true_score P = - Game.true_score (Position.play P move).
Proof.
  intros HL Hwin Hne. pose proof (legal_nbMoves P HL) as Hm.
  unfold Game.true_score. rewrite (value_unfold P HL Hwin).
  assert (Hf : forall mv, In mv (Game.legal_moves P) ->
            feasible (Position.nbMoves P) (Game.flip (Game.value (Position.play P mv)))).
  { intros mv Hmv. apply feasible_flip.
    apply (value_feasible (Position.play P mv)). apply legal_child; assumption. }
  destruct (Game.legal_moves P) as [|mv rest] eqn:Emoves; [congruence|].
  cbn [map Game.best].
  destruct (fold_better_spec (Position.nbMoves P)
              (map (fun m' => Game.flip (Game.value (Position.play P m'))) rest)
              (Game.flip (Game.value (Position.play P mv))) ltac:(lia)
              (Hf mv (or_introl eq_refl))) as (Hin & _ & _).
  { intros x Hx. apply in_map_iff in Hx. destruct Hx as (m' & <- & Hm').
    apply Hf. right. exact Hm'. }
  apply (in_map_iff (fun m' => Game.flip (Game.value (Position.play P m')))
           (mv :: rest)) in Hin.
  destruct Hin as (move & E & Hmove).
  exists move. split; [exact Hmove|].
  rewrite <- E. apply score_flip. lia.
Qed.

(** The bounds of the score that [solve] and [negamax] start from. *)
Lemma true_score_range (P : Position.t) :
  Game.legal P ->
  cdiv (- (Position.WIDTH * Position.HEIGHT - Position.nbMoves P)) 2
  <= Game.true_score P
  <= cdiv (Position.WIDTH * Position.HEIGHT + 1 - Position.nbMoves P) 2.
Proof.
  intros HL. pose proof (legal_nbMoves P HL) as Hm.
  pose proof (value_feasible P HL) as Hf. unfold Game.true_score.
  destruct (Game.value P); cbn [Game.score_of feasible] in *; zdiv.
Qed.

Lemma true_score_upper (P : Position.t) :
  Game.legal P -> Position.canWinNext P = false ->
  Game.true_score P
  <= cdiv (Position.WIDTH * Position.HEIGHT - 1 - Position.nbMoves P) 2.
Proof.
  intros HL Hwin. pose proof (legal_nbMoves P HL) as Hm.
  destruct (Game.legal_moves P) as [|mv rest] eqn:Emoves.
  - rewrite (true_score_full P HL Hwin Emoves).
    pose proof (no_legal_move_full P HL Emoves). zdiv.
  - destruct (true_score_attained P HL Hwin) as (move & Hin & ->); [congruence|].
    pose proof (true_score_range _ (legal_child P move HL Hwin Hin)) as Hr.
    zdiv.
Qed.

Lemma true_score_lower (P : Position.t) (move : Z) :
  Game.legal P -> Position.canWinNext P = false ->
  In move (Game.legal_moves P) ->
  Position.canWinNext (Position.play P move) = false ->
  cdiv (- (Position.WIDTH * Position.HEIGHT - 2 - Position.nbMoves P)) 2
  <= Game.true_score P.
Proof.
  intros HL Hwin Hin Hsafe. pose proof (legal_nbMoves P HL) as Hm.
  pose proof (true_score_child P move HL Hwin Hin) as Hc.
  pose proof (true_score_upper _ (legal_child P move HL Hwin Hin) Hsafe) as Hu.
  pose proof (legal_move_nbMoves P move HL Hin).
  zdiv.
Qed.

(** When every move lets the opponent win at once. *)
Lemma true_score_all_losing (P : Position.t) :
  Game.legal P -> Position.canWinNext P = false ->
  (forall move, In move (Game.legal_moves P) ->
                Position.canWinNext (Position.play P move) = true) ->
  Game.true_score P =
  cdiv (- (Position.WIDTH * Position.HEIGHT - Position.nbMoves P)) 2.
Proof.
  intros HL Hwin Hall. pose proof (legal_nbMoves P HL) as Hm.
  destruct (Game.legal_moves P) as [|mv rest] eqn:Emoves.
  - rewrite (true_score_full P HL Hwin Emoves).
    pose proof (no_legal_move_full P HL Emoves). zdiv.
  - destruct (true_score_attained P HL Hwin) as (move & Hin & ->); [congruence|].
    rewrite <- Emoves in Hall.
    rewrite (true_score_can_win _ (legal_child P move HL Hwin Hin) (Hall move Hin)).
    pose proof (legal_move_nbMoves P move HL Hin).
    zdiv.
Qed.

(** ** The move sorter *)

Lemma add_In (entries : MoveSorter.t) (move score : Z) (e : Z * Z) :
  In e (MoveSorter.add entries move score) <-> e = (move, score) \/ In e entries.
Proof.
  induction entries as [|[m s] rest IH]; cbn [MoveSorter.add].
  - cbn. intuition congruence.
  - destruct (s <? score); cbn [In]; [rewrite IH|]; intuition congruence.
Qed.

Lemma getNext_spec (entries : MoveSorter.t) :
  (entries = [] /\ MoveSorter.getNext entries = (0, [])) \/
  exists front m s,
    entries = front ++ [(m, s)] /\ MoveSorter.getNext entries = (m, front).
Proof.
  unfold MoveSorter.getNext.
  destruct (rev entries) as [|[m s] rest] eqn:E.
  - left. split; [|reflexivity].
    apply (f_equal (@rev _)) in E. rewrite rev_involutive in E. exact E.
  - right. exists (rev rest), m, s. split; [|reflexivity].
    apply (f_equal (@rev _)) in E. rewrite rev_involutive in E. exact E.
Qed.

Lemma columnOrder_spec (c : Z) : In c Solver.columnOrder <-> 0 <= c < 7.
Proof.
  change Solver.columnOrder with [3; 2; 4; 1; 5; 0; 6]. cbn [In]. lia.
Qed.

(** The sorter of [negamax] holds one entry per column whose cell is in
    [next]. *)
Lemma collect_moves_spec (P : Position.t) (next : Z) (e : Z * Z) :
  In e (Solver.collect_moves P next) <->
  exists col, 0 <= col < 7 /\
    Z.land next (Position.column_mask col) <> 0 /\
    e = (Z.land next (Position.column_mask col),
         Position.moveScore P (Z.land next (Position.column_mask col))).
Proof.
  unfold Solver.collect_moves.
  assert (Hgen : forall l acc,
    In e (fold_left
            (fun moves col =>
               let move := Z.land next (Position.column_mask col) in
               if move =? 0 then moves
               else MoveSorter.add moves move (Position.moveScore P move))
            l acc) <->
    In e acc \/ exists col, In col l /\
      Z.land next (Position.column_mask col) <> 0 /\
      e = (Z.land next (Position.column_mask col),
           Position.moveScore P (Z.land next (Position.column_mask col)))).
  { induction l as [|col l IH]; intros acc; cbn [fold_left].
    - split; [auto|]. intros [H|(col & [] & _)]. exact H.
    - rewrite IH. cbn zeta.
      destruct (Z.eqb_spec (Z.land next (Position.column_mask col)) 0) as [E|Hne].
      + split.
        * intros [H|(c & Hc & Hr)]; [auto|]. right. exists c. cbn [In]. tauto.
        * intros [H|(c & [<-|Hc] & Hn & Hr)]; [auto|contradiction|].
          right. exists c. auto.
      + rewrite add_In. split.
        * intros [[H|H]|(c & Hc & Hr)]; [right; exists col; cbn [In]; auto|auto|].
          right. exists c. cbn [In]. tauto.
        * intros [H|(c & [<-|Hc] & Hn & Hr)]; [auto|auto|].
          right. exists c. auto. }
  rewrite Hgen. cbn [MoveSorter.empty In]. split.
  - intros [[]|(col & Hc & Hr)]. exists col.
    rewrite <- in_rev in Hc. apply columnOrder_spec in Hc. tauto.
  - intros (col & Hc & Hr). right. exists col. rewrite <- in_rev, columnOrder_spec.
    tauto.
Qed.

(** The entries of the sorter are the non-losing moves. *)
Lemma collect_moves_safe (P : Position.t) (move score : Z) :
  Game.legal P ->
  In (move, score) (Solver.collect_moves P (Position.possibleNonLosingMoves P)) ->
  move <> 0 /\ In move (Game.legal_moves P) /\
  Position.canWinNext (Position.play P move) = false.
Proof.
  intros HL Hin. apply collect_moves_spec in Hin.
  destruct Hin as (col & Hcol & Hne & E). injection E as E _.
  rewrite (non_losing_moves_column P col HL Hcol) in Hne, E.
  destruct (Z.eqb_spec (Position.move_in P col) 0) as [|Hmv]; cbn [orb] in *;
    [congruence|].
  destruct (Position.canWinNext (Position.play P (Position.move_in P col))) eqn:Hw;
    [congruence|].
  subst move. split; [exact Hmv|]. split; [|exact Hw].
  apply legal_moves_spec. exists col. auto.
Qed.

Lemma collect_moves_complete (P : Position.t) (move : Z) :
  Game.legal P -> In move (Game.legal_moves P) ->
  Position.canWinNext (Position.play P move) = false ->
  In move (map fst (Solver.collect_moves P (Position.possibleNonLosingMoves P))).
Proof.
  intros HL Hin Hw. apply legal_moves_spec in Hin.
  destruct Hin as (col & Hcol & -> & Hne).
  pose proof (non_losing_moves_column P col HL Hcol) as E.
  rewrite Hw in E. destruct (Z.eqb_spec (Position.move_in P col) 0); [congruence|].
  cbn [orb] in E. apply in_map_iff.
  exists (Position.move_in P col, Position.moveScore P (Position.move_in P col)).
  split; [reflexivity|]. apply collect_moves_spec. exists col.
  rewrite E. auto.
Qed.

(** ** The transposition table keeps upper bounds *)

Lemma get_put (T : TranspositionTable.t) (k v k' : Z) :
  TranspositionTable.get (TranspositionTable.put T k v) k' =
  if TranspositionTable.index k' =? TranspositionTable.index k then
    if TranspositionTable.truncate k =? TranspositionTable.truncate k' then v
    else 0
  else TranspositionTable.get T k'.
Proof.
  unfold TranspositionTable.get, TranspositionTable.put.
  cbn [TranspositionTable.K TranspositionTable.V].
  destruct (TranspositionTable.index k' =? TranspositionTable.index k); reflexivity.
Qed.

Lemma bound_valid_reset : Game.bound_valid TranspositionTable.reset.
Proof.
  intros Q v _ E Hv. unfold TranspositionTable.get, TranspositionTable.reset in E.
  cbn [TranspositionTable.K TranspositionTable.V] in E.
  destruct (0 =? TranspositionTable.truncate (Position.key Q)); congruence.
Qed.

(** Storing an upper bound of a legal position under its key keeps the
    table valid: no other legal position reads the new entry. *)
Lemma bound_valid_put (T : TranspositionTable.t) (P : Position.t) (a : Z) :
  Game.bound_valid T -> Game.legal P -> Game.true_score P <= a ->
  Game.bound_valid
    (TranspositionTable.put T (Position.key P) (a - Position.MIN_SCORE + 1)).
Proof.
  intros Hvalid HL Hub Q v HQ E Hv. rewrite get_put in E.
  destruct (Z.eqb_spec (TranspositionTable.index (Position.key Q))
              (TranspositionTable.index (Position.key P))) as [Hi|Hi].
  - destruct (Z.eqb_spec (TranspositionTable.truncate (Position.key P))
                (TranspositionTable.truncate (Position.key Q))) as [Ht|Ht];
      [|congruence].
    assert (Q = P).
    { apply legal_key_injective; try assumption.
      apply slot_determines_key; auto using legal_key_bound. }
    subst Q v. lia.
  - apply (Hvalid Q v HQ E Hv).
Qed.

(** ** Soundness of negamax *)

Lemma explore_sound
    (rec : Position.t -> Z -> Z -> Solver.t -> option (Z * Solver.t))
    (P : Position.t) (budget : nat) :
  forall (moves : MoveSorter.t) (alpha beta : Z) (s : Solver.t),
  (List.length moves < budget)%nat ->
  (forall move, In move (map fst moves) ->
     move <> 0 /\ sound_on rec (Position.play P move)) ->
  alpha < beta -> Game.bound_valid (Solver.transTable s) ->
  exists ex s',
    Solver.explore rec budget P moves alpha beta s = Some (ex, s') /\
    Game.bound_valid (Solver.transTable s') /\
    match ex with
    | Solver.Cutoff score =>
        beta <= score /\
        exists move, In move (map fst moves) /\
          score <= - Game.true_score (Position.play P move)
    | Solver.Exhausted a =>
        alpha <= a < beta /\
        (forall move, In move (map fst moves) ->
           - Game.true_score (Position.play P move) <= a) /\
        (a = alpha \/
         exists move, In move (map fst moves) /\
           a = - Game.true_score (Position.play P move))
    end.
Proof.
  induction budget as [|budget IH]; intros moves alpha beta s Hlen Hmoves Hab Hvalid;
    [lia|].
  cbn [Solver.explore].
  destruct (getNext_spec moves) as [(-> & ->)|(front & m & sc & -> & ->)].
  - cbn. exists (Solver.Exhausted alpha), s. split; [reflexivity|].
    split; [exact Hvalid|]. split; [lia|]. split; [intros ? []|left; reflexivity].
  - assert (Hm : In m (map fst (front ++ [(m, sc)])))
      by (rewrite map_app, in_app_iff; right; left; reflexivity).
    destruct (Hmoves m Hm) as (Hne & Hrec).
    destruct (Z.eqb_spec m 0) as [|_]; [contradiction|].
    destruct (Hrec (- beta) (- alpha) s ltac:(lia) Hvalid) as (r & s1 & -> & Hfs & Hv1).
    destruct Hfs as (F1 & F2 & F3).
    destruct (- r >=? beta) eqn:Ecut; b2p.
    + exists (Solver.Cutoff (- r)), s1. split; [reflexivity|]. split; [exact Hv1|].
      split; [lia|]. exists m. split; [exact Hm|]. lia.
    + rewrite length_app in Hlen. cbn [List.length] in Hlen.
      destruct (IH front (if alpha <? - r then - r else alpha) beta s1) as (ex & s' & -> & Hv' & Hex).
      * lia.
      * intros mv Hmv. apply Hmoves. rewrite map_app, in_app_iff. left. exact Hmv.
      * destruct (alpha <? - r); lia.
      * exact Hv1.
      * exists ex, s'. split; [reflexivity|]. split; [exact Hv'|].
        destruct ex as [score|a].
        -- destruct Hex as (Hb & mv & Hmv & Hs). split; [exact Hb|].
           exists mv. split; [|exact Hs]. rewrite map_app, in_app_iff. left. exact Hmv.
        -- destruct Hex as (Ha & Hall & Hatt). revert Ha Hall Hatt.
           destruct (Z.ltb_spec alpha (- r)) as [Hgt|Hle]; intros Ha Hall Hatt.
           ++ split; [lia|]. split.
              ** intros mv Hmv. rewrite map_app, in_app_iff in Hmv.
                 destruct Hmv as [Hmv|[<-|[]]]; [apply Hall, Hmv|]. cbn [fst]. lia.
              ** right. destruct Hatt as [->|(mv & Hmv & ->)].
                 --- exists m. split; [exact Hm|]. lia.
                 --- exists mv. split; [|reflexivity].
                     rewrite map_app, in_app_iff. left. exact Hmv.
           ++ split; [lia|]. split.
              ** intros mv Hmv. rewrite map_app, in_app_iff in Hmv.
                 destruct Hmv as [Hmv|[<-|[]]]; [apply Hall, Hmv|]. cbn [fst]. lia.
              ** destruct Hatt as [->|(mv & Hmv & ->)]; [left; reflexivity|].
                 right. exists mv. split; [|reflexivity].
                 rewrite map_app, in_app_iff. left. exact Hmv.
Qed.

(** The loop over the sorted non-losing moves, for any recursive call that
    is sound on the positions after those moves: a cutoff score is a lower
    bound of the score of the position, the final [alpha] an upper bound. *)
Lemma explore_moves_sound
    (rec : Position.t -> Z -> Z -> Solver.t -> option (Z * Solver.t))
    (P : Position.t) (alpha beta : Z) (s : Solver.t) :
  Game.legal P -> Position.canWinNext P = false ->
  Position.possibleNonLosingMoves P <> 0 ->
  Position.nbMoves P < Position.WIDTH * Position.HEIGHT - 2 ->
  score_min P <= alpha -> alpha < beta ->
  Game.bound_valid (Solver.transTable s) ->
  (forall move, In move (Game.legal_moves P) ->
     Position.canWinNext (Position.play P move) = false ->
     sound_on rec (Position.play P move)) ->
  exists ex s',
    Solver.explore rec
      (S (MoveSorter.size
            (Solver.collect_moves P (Position.possibleNonLosingMoves P))))
      P (Solver.collect_moves P (Position.possibleNonLosingMoves P))
      alpha beta s = Some (ex, s') /\
    Game.bound_valid (Solver.transTable s') /\
    match ex with
    | Solver.Cutoff score => beta <= score <= Game.true_score P
    | Solver.Exhausted a =>
        alpha <= a < beta /\ Game.true_score P <= a /\
        (a = alpha \/ a <= Game.true_score P)
    end.
Proof.
  intros HL Hwin Hnext Hdraw Hmin Hab Hvalid Hrec.
  pose proof (legal_nbMoves P HL) as Hm.
  set (moves := Solver.collect_moves P (Position.possibleNonLosingMoves P)).
  assert (Hchild : forall move, In move (map fst moves) ->
            move <> 0 /\ In move (Game.legal_moves P) /\
            Position.canWinNext (Position.play P move) = false).
  { intros move Hin. apply in_map_iff in Hin. destruct Hin as ([mv sc] & <- & Hin).
    cbn [fst]. apply (collect_moves_safe P mv sc HL Hin). }
  destruct (explore_sound rec P (S (MoveSorter.size moves)) moves alpha beta s)
    as (ex & s' & E & Hv' & Hex).
  - unfold MoveSorter.size. lia.
  - intros move Hin. destruct (Hchild move Hin) as (Hne & Hlegal & Hsafe).
    split; [exact Hne|]. apply Hrec; assumption.
  - exact Hab.
  - exact Hvalid.
  - exists ex, s'. split; [exact E|]. split; [exact Hv'|].
    destruct ex as [score|a].
    + destruct Hex as (Hcut & move & Hin & Hscore).
      destruct (Hchild move Hin) as (_ & Hlegal & _).
      pose proof (true_score_child P move HL Hwin Hlegal). lia.
    + destruct Hex as (Hrange & Hall & Hatt).
      split; [exact Hrange|]. split.
      * destruct (true_score_attained P HL Hwin) as (move & Hlegal & ->).
        -- destruct (non_losing_moves_nonzero P HL Hnext) as (c & Hc & Hne).
           rewrite (non_losing_moves_column P c HL Hc) in Hne.
           destruct (Z.eqb_spec (Position.move_in P c) 0) as [|Hmv]; cbn [orb] in Hne;
             [destruct (Position.canWinNext _); congruence|].
           intros Hnil.
           assert (Hin : In (Position.move_in P c) (Game.legal_moves P))
             by (apply legal_moves_spec; exists c; auto).
           rewrite Hnil in Hin. exact Hin.
        -- destruct (Position.canWinNext (Position.play P move)) eqn:Hw.
           ++ rewrite (true_score_can_win _ (legal_child P move HL Hwin Hlegal) Hw).
              unfold score_min in Hmin. zdiv.
           ++ apply Hall. apply collect_moves_complete; assumption.
      * destruct Hatt as [->|(move & Hin & ->)]; [left; reflexivity|right].
        destruct (Hchild move Hin) as (_ & Hlegal & _).
        apply true_score_child; assumption.
Qed.

Lemma negamax_sound (fuel : nat) :
  forall (P : Position.t) (alpha beta : Z) (s : Solver.t),
  Game.legal P -> Position.canWinNext P = false -> alpha < beta ->
  Game.bound_valid (Solver.transTable s) -> enough_fuel fuel P ->
  exists r s',
    Solver.negamax fuel P alpha beta s = Some (r, s') /\
    Game.fail_soft (Game.true_score P) alpha beta r /\
    Game.bound_valid (Solver.transTable s').
Proof.
  induction fuel as [|fuel IH]; intros P alpha beta s HL Hwin Hab Hvalid Hfuel.
  { pose proof (legal_nbMoves P HL). unfold enough_fuel in Hfuel.
    change (Position.WIDTH * Position.HEIGHT) with 42 in Hfuel. lia. }
  pose proof (legal_nbMoves P HL) as Hm.
  pose proof (true_score_upper P HL Hwin) as Hup.
  cbn [Solver.negamax]. fold (counted s).
  destruct (Z.eqb_spec (Position.possibleNonLosingMoves P) 0) as [Hnext|Hnext].
  { eexists _, (counted s). split; [reflexivity|]. split; [|exact Hvalid].
    rewrite (true_score_all_losing P HL Hwin).
    - unfold Game.fail_soft. lia.
    - intros move Hin. apply legal_moves_spec in Hin.
      destruct Hin as (c & Hc & -> & Hne).
      pose proof (non_losing_moves_column P c HL Hc) as E.
      rewrite Hnext, Z.land_0_l in E.
      destruct (Z.eqb_spec (Position.move_in P c) 0); [contradiction|].
      cbn [orb] in E.
      destruct (Position.canWinNext (Position.play P (Position.move_in P c)));
        [reflexivity|congruence]. }
  assert (Hlow : score_min P <= Game.true_score P).
  { destruct (non_losing_moves_nonzero P HL Hnext) as (c & Hc & Hne).
    rewrite (non_losing_moves_column P c HL Hc) in Hne.
    destruct (Z.eqb_spec (Position.move_in P c) 0) as [|Hmv]; cbn [orb] in Hne;
      [congruence|].
    destruct (Position.canWinNext (Position.play P (Position.move_in P c))) eqn:Hw;
      [congruence|].
    apply (true_score_lower P (Position.move_in P c)); try assumption.
    apply legal_moves_spec. exists c. auto. }
  destruct (Position.nbMoves P >=? Position.WIDTH * Position.HEIGHT - 2) eqn:Hdraw.
  { exists 0, (counted s). split; [reflexivity|]. split; [|exact Hvalid].
    unfold score_min in Hlow. b2p. unfold Game.fail_soft. zdiv. }
  fold (score_min P). cbn [counted Solver.transTable]. fold (counted s).
  fold (score_max P s).
  assert (Hmax : Game.true_score P <= score_max P s).
  { unfold score_max.
    destruct (Z.eqb_spec (TranspositionTable.get (Solver.transTable s) (Position.key P)) 0)
      as [|Hval]; [exact Hup|].
    apply (Hvalid P _ HL eq_refl Hval). }
  destruct ((alpha <? score_min P) && (score_min P >=? beta)) eqn:Hlo.
  { exists (score_min P), (counted s). split; [reflexivity|]. split; [|exact Hvalid].
    b2p. unfold Game.fail_soft. lia. }
  fold (tightened_alpha P alpha).
  assert (Ha1 : tightened_alpha P alpha = Z.max alpha (score_min P))
    by (unfold tightened_alpha; destruct (Z.ltb_spec alpha (score_min P)); lia).
  destruct ((beta >? score_max P s) && (tightened_alpha P alpha >=? score_max P s))
    eqn:Hhi.
  { exists (score_max P s), (counted s). split; [reflexivity|]. split; [|exact Hvalid].
    b2p. unfold Game.fail_soft. lia. }
  fold (tightened_beta P beta s).
  assert (Hb1 : tightened_beta P beta s = Z.min beta (score_max P s))
    by (unfold tightened_beta; rewrite Z.gtb_ltb;
        destruct (Z.ltb_spec (score_max P s) beta); lia).
  assert (Hwindow : tightened_alpha P alpha < tightened_beta P beta s) by (b2p; lia).
  destruct (explore_moves_sound (Solver.negamax fuel) P (tightened_alpha P alpha)
              (tightened_beta P beta s) (counted s) HL Hwin Hnext)
    as (ex & s' & -> & Hv' & Hex); try assumption.
  - b2p. lia.
  - lia.
  - intros move Hlegal Hsafe a b s2 Hab2 Hv2. apply IH; try assumption.
    + apply legal_child; assumption.
    + unfold enough_fuel in *. cbn [Position.nbMoves Position.play Position.moves].
      unfold Position.nbMoves in Hfuel. lia.
  - destruct ex as [score|a].
    + exists score, s'. split; [reflexivity|]. split; [|exact Hv'].
      unfold Game.fail_soft. lia.
    + eexists a, _. split; [reflexivity|]. cbn [Solver.transTable]. split.
      * unfold Game.fail_soft. lia.
      * apply bound_valid_put; try assumption. lia.
Qed.

(** ** Soundness of solve *)

Lemma median_range (min max : Z) :
  min < max -> min <= Solver.median min max < max.
Proof.
  intros Hlt. unfold Solver.median.
  destruct ((min + cdiv (max - min) 2 <=? 0) && (cdiv min 2 <? min + cdiv (max - min) 2)) eqn:E1;
    [b2p; zdiv|].
  destruct ((min + cdiv (max - min) 2 >=? 0) && (cdiv max 2 >? min + cdiv (max - min) 2)) eqn:E2;
    [b2p; zdiv|].
  zdiv.
Qed.

Lemma narrow_sound (fuel : nat) (P : Position.t) (iterations : nat) :
  Game.legal P -> Position.canWinNext P = false -> enough_fuel fuel P ->
  forall (lo hi : Z) (s : Solver.t),
  hi - lo <= Z.of_nat iterations ->
  Game.bound_valid (Solver.transTable s) ->
  exists v s',
    Solver.narrow fuel iterations P lo hi s = Some (v, s') /\
    Game.bound_valid (Solver.transTable s') /\
    narrowed (Game.true_score P) lo hi v.
Proof.
  intros HL Hwin Hfuel.
  induction iterations as [|iterations IH]; intros lo hi s Hit Hvalid.
  - cbn [Solver.narrow]. destruct (Z.ltb_spec lo hi); [lia|].
    exists lo, s. split; [reflexivity|]. split; [exact Hvalid|].
    unfold narrowed. lia.
  - cbn [Solver.narrow]. destruct (Z.ltb_spec lo hi) as [Hlt|Hge].
    + pose proof (median_range lo hi Hlt) as Hmed.
      destruct (negamax_sound fuel P (Solver.median lo hi) (Solver.median lo hi + 1) s
                  HL Hwin ltac:(lia) Hvalid Hfuel) as (r & s1 & -> & (F1 & F2 & F3) & Hv1).
      destruct (Z.leb_spec r (Solver.median lo hi)) as [Hle|Hgt].
      * destruct (IH lo r s1 ltac:(lia) Hv1) as (v & s' & -> & Hv' & N1 & N2 & N3).
        exists v, s'. split; [reflexivity|]. split; [exact Hv'|].
        unfold narrowed. lia.
      * destruct (IH r hi s1 ltac:(lia) Hv1) as (v & s' & -> & Hv' & N1 & N2 & N3).
        exists v, s'. split; [reflexivity|]. split; [exact Hv'|].
        unfold narrowed. lia.
    + exists lo, s. split; [reflexivity|]. split; [exact Hvalid|].
      unfold narrowed. lia.
Qed.

Lemma enough_fuel_43 (fuel : nat) (P : Position.t) :
  Game.legal P -> (43 <= fuel)%nat -> enough_fuel fuel P.
Proof.
  intros HL Hf. pose proof (legal_nbMoves P HL). unfold enough_fuel.
  change (Position.WIDTH * Position.HEIGHT) with 42. lia.
Qed.

Lemma solve_strong_sound (fuel : nat) (P : Position.t) (s : Solver.t) :
  Game.legal P -> Game.bound_valid (Solver.transTable s) -> (43 <= fuel)%nat ->
  exists s',
    Solver.solve fuel P false s = Some (Game.true_score P, s') /\
    Game.bound_valid (Solver.transTable s').
Proof.
  intros HL Hvalid Hfuel. pose proof (legal_nbMoves P HL) as Hm.
  unfold Solver.solve. destruct (Position.canWinNext P) eqn:Hwin.
  - exists s. rewrite (true_score_can_win P HL Hwin). split; [reflexivity|assumption].
  - pose proof (true_score_range P HL) as Hr.
    destruct (narrow_sound fuel P fuel HL Hwin (enough_fuel_43 fuel P HL Hfuel)
                (cdiv (- (Position.WIDTH * Position.HEIGHT - Position.nbMoves P)) 2)
                (cdiv (Position.WIDTH * Position.HEIGHT + 1 - Position.nbMoves P) 2)
                s) as (v & s' & E & Hv' & N1 & N2 & N3).
    + zdiv.
    + exact Hvalid.
    + exists s'. rewrite E. rewrite (N2 Hr). split; [reflexivity|assumption].
Qed.

Lemma solve_weak_sound (fuel : nat) (P : Position.t) (s : Solver.t) :
  Game.legal P -> Game.bound_valid (Solver.transTable s) -> (43 <= fuel)%nat ->
  exists v s',
    Solver.solve fuel P true s = Some (v, s') /\
    Game.bound_valid (Solver.transTable s') /\
    (Position.canWinNext P = true -> v = Game.true_score P) /\
    (Position.canWinNext P = false ->
       narrowed (Game.true_score P) (-1) 1 v).
Proof.
  intros HL Hvalid Hfuel. pose proof (legal_nbMoves P HL) as Hm.
  unfold Solver.solve. destruct (Position.canWinNext P) eqn:Hwin.
  - exists (Game.true_score P), s. rewrite (true_score_can_win P HL Hwin).
    split; [reflexivity|]. split; [assumption|]. split; [reflexivity|discriminate].
  - destruct (narrow_sound fuel P fuel HL Hwin (enough_fuel_43 fuel P HL Hfuel)
                (-1) 1 s) as (v & s' & E & Hv' & HN).
    + lia.
    + exact Hvalid.
    + exists v, s'. split; [exact E|]. split; [exact Hv'|]. split; [discriminate|].
      intros _. exact HN.
Qed.

(** Every state a solver goes through has a valid table. *)
Lemma reachable_valid (s : Solver.t) :
  Game.reachable s -> Game.bound_valid (Solver.transTable s).
Proof.
  induction 1 as [s|s s' fuel P weak r Hr IH HL Hfuel Hsolve].
  - apply bound_valid_reset.
  - destruct weak.
    + destruct (solve_weak_sound fuel P s HL IH Hfuel) as (v & s1 & E & Hv & _).
      rewrite E in Hsolve. injection Hsolve as _ <-. exact Hv.
    + destruct (solve_strong_sound fuel P s HL IH Hfuel) as (s1 & E & Hv).
      rewrite E in Hsolve. injection Hsolve as _ <-. exact Hv.
Qed.

(** ** Termination *)

Lemma explore_total
    (rec : Position.t -> Z -> Z -> Solver.t -> option (Z * Solver.t))
    (P : Position.t) (budget : nat) :
  (forall move a b s, exists x, rec (Position.play P move) a b s = Some x) ->
  forall (moves : MoveSorter.t) (alpha beta : Z) (s : Solver.t),
  (List.length moves < budget)%nat ->
  exists y, Solver.explore rec budget P moves alpha beta s = Some y.
Proof.
  intros Hrec. induction budget as [|budget IH]; intros moves alpha beta s Hlen; [lia|].
  cbn [Solver.explore].
  destruct (getNext_spec moves) as [(-> & ->)|(front & m & sc & -> & ->)].
  - cbn. eauto.
  - destruct (m =? 0); [eauto|].
    destruct (Hrec m (- beta) (- alpha) s) as ([r s1] & ->).
    destruct (- r >=? beta); [eauto|].
    apply IH. rewrite length_app in Hlen. cbn [List.length] in Hlen. lia.
Qed.

(** [negamax] returns on every position, whatever the table holds: the
    recursion stops at the latest when two cells are left. *)
Lemma negamax_total (fuel : nat) :
  forall (P : Position.t) (alpha beta : Z) (s : Solver.t),
  (0 < fuel)%nat -> enough_fuel fuel P ->
  exists x, Solver.negamax fuel P alpha beta s = Some x.
Proof.
  induction fuel as [|fuel IH]; intros P alpha beta s Hpos Hfuel; [lia|].
  cbn [Solver.negamax].
  destruct (Position.possibleNonLosingMoves P =? 0); [eauto|].
  destruct (Position.nbMoves P >=? Position.WIDTH * Position.HEIGHT - 2) eqn:Hdraw;
    [eauto|].
  destruct (_ && _); [eauto|].
  destruct (_ && _); [eauto|].
  match goal with
  | |- context [Solver.explore ?r ?b ?p ?m ?a ?bb ?st] =>
      destruct (explore_total r p b) with (moves := m) (alpha := a) (beta := bb) (s := st)
        as ([ex s'] & ->)
  end.
  - intros move a b s0. unfold enough_fuel in *. b2p.
    change (Position.WIDTH * Position.HEIGHT) with 42 in *.
    apply IH; [lia|].
    unfold enough_fuel. cbn [Position.nbMoves Position.play Position.moves].
    unfold Position.nbMoves in *. change (Position.WIDTH * Position.HEIGHT) with 42. lia.
  - unfold MoveSorter.size. lia.
  - destruct ex; eauto.
Qed.

Lemma narrow_total (fuel : nat) (P : Position.t) (iterations : nat) :
  (forall a b s, exists x, Solver.negamax fuel P a b s = Some x) ->
  forall (lo hi : Z) (s : Solver.t),
  hi - lo <= Z.of_nat iterations ->
  exists y, Solver.narrow fuel iterations P lo hi s = Some y.
Proof.
  intros Hrec. induction iterations as [|iterations IH]; intros lo hi s Hit;
    cbn [Solver.narrow]; destruct (Z.ltb_spec lo hi) as [Hlt|Hge]; eauto; [lia|].
  pose proof (median_range lo hi Hlt) as Hmed.
  destruct (Hrec (Solver.median lo hi) (Solver.median lo hi + 1) s) as ([r s1] & ->).
  destruct (Z.leb_spec r (Solver.median lo hi)); apply IH; lia.
Qed.

(** ** Move sequences *)

Lemma play_seq_legal (seq : string) :
  forall P, Game.legal P -> Game.legal (fst (Position.play_seq P seq)).
Proof.
  induction seq as [|ch rest IH]; intros P HL; cbn [Position.play_seq]; [exact HL|].
  destruct (Position.valid_char P ch) eqn:Hv; [|exact HL].
  specialize (IH (Position.play_char P ch)).
  destruct (Position.play_seq (Position.play_char P ch) rest) as [P' n]. cbn [fst] in *.
  apply IH. unfold Position.valid_char in Hv. unfold Position.play_char.
  apply andb_true_iff in Hv. destruct Hv as (Hv & Hnowin).
  apply andb_true_iff in Hv. destruct Hv as (Hv & Hfree).
  apply andb_true_iff in Hv. destruct Hv as (Hlo & Hhi).
  apply negb_true_iff in Hfree. b2p.
  apply Game.legal_play; try assumption. lia.
Qed.

(** The number returned by [play(sequence_string)] is the number of stones
    it has added. *)
Lemma play_seq_count (seq : string) :
  forall P,
  Position.nbMoves (fst (Position.play_seq P seq)) =
  Position.nbMoves P + snd (Position.play_seq P seq) /\
  0 <= snd (Position.play_seq P seq) <= Z.of_nat (String.length seq).
Proof.
  induction seq as [|ch rest IH]; intros P; cbn [Position.play_seq String.length].
  - cbn. lia.
  - destruct (Position.valid_char P ch); [|cbn; lia].
    specialize (IH (Position.play_char P ch)).
    destruct (Position.play_seq (Position.play_char P ch) rest) as [P' n].
    cbn [fst snd] in *. unfold Position.play_char, Position.nbMoves in *.
    cbn [Position.play Position.moves] in *. lia.
Qed.

Lemma position_legal (seq : string) : Game.legal (position seq).
Proof. apply play_seq_legal, Game.legal_empty. Qed.

Lemma fresh_reachable : Game.reachable fresh.
Proof. exact (Game.reachable_reset fresh). Qed.

(** ** The shape of one call of negamax *)

Lemma negamax_early (fuel : nat) (P : Position.t) (alpha beta : Z) (s : Solver.t) :
  returns_early P alpha beta s = true ->
  exists r, Solver.negamax (S fuel) P alpha beta s = Some (r, counted s).
Proof.
  unfold returns_early, tightened_alpha, score_max, score_min. cbn [Solver.negamax].
  fold (counted s). cbn [counted Solver.transTable].
  destruct (Position.possibleNonLosingMoves P =? 0); [eauto|].
  destruct (Position.nbMoves P >=? Position.WIDTH * Position.HEIGHT - 2); [eauto|].
  destruct (_ && _); [eauto|].
  destruct (_ && _); [eauto|]. cbn. discriminate.
Qed.

Lemma negamax_late (fuel : nat) (P : Position.t) (alpha beta : Z) (s : Solver.t) :
  returns_early P alpha beta s = false ->
  Solver.negamax (S fuel) P alpha beta s =
  match moves_loop fuel P alpha beta s with
  | None => None
  | Some (Solver.Cutoff score, s') => Some (score, s')
  | Some (Solver.Exhausted a, s') =>
      Some (a, Solver.mk (Solver.nodeCount s')
                 (TranspositionTable.put (Solver.transTable s') (Position.key P)
                    (a - Position.MIN_SCORE + 1)))
  end.
Proof.
  unfold returns_early, moves_loop, tightened_beta, tightened_alpha, score_max, score_min.
  cbn [Solver.negamax]. fold (counted s). cbn [counted Solver.transTable].
  destruct (Position.possibleNonLosingMoves P =? 0); [discriminate|].
  destruct (Position.nbMoves P >=? Position.WIDTH * Position.HEIGHT - 2); [discriminate|].
  destruct (_ && _); [discriminate|].
  destruct (_ && _); [discriminate|]. reflexivity.
Qed.

(** The loop of a call that does not return early: a cutoff score is a
    lower bound of the score, and when the moves run out the final [alpha]
    is an upper bound. *)
Lemma moves_loop_sound (fuel : nat) (P : Position.t) (alpha beta : Z) (s : Solver.t) :
  Game.legal P -> Position.canWinNext P = false -> alpha < beta ->
  Game.bound_valid (Solver.transTable s) -> enough_fuel (S fuel) P ->
  returns_early P alpha beta s = false ->
  exists ex s1,
    moves_loop fuel P alpha beta s = Some (ex, s1) /\
    Game.bound_valid (Solver.transTable s1) /\
    match ex with
    | Solver.Cutoff score => score <= Game.true_score P
    | Solver.Exhausted a => Game.true_score P <= a
    end.
Proof.
  intros HL Hwin Hab Hvalid Hfuel Hearly.
  pose proof (legal_nbMoves P HL) as Hm.
  unfold returns_early in Hearly.
  apply orb_false_iff in Hearly. destruct Hearly as (Hearly & Hhi).
  apply orb_false_iff in Hearly. destruct Hearly as (Hearly & Hlo).
  apply orb_false_iff in Hearly. destruct Hearly as (Hnext & Hdraw).
  apply Z.eqb_neq in Hnext.
  assert (Ha1 : tightened_alpha P alpha = Z.max alpha (score_min P))
    by (unfold tightened_alpha; destruct (Z.ltb_spec alpha (score_min P)); lia).
  assert (Hb1 : tightened_beta P beta s = Z.min beta (score_max P s))
    by (unfold tightened_beta; rewrite Z.gtb_ltb;
        destruct (Z.ltb_spec (score_max P s) beta); lia).
  unfold moves_loop.
  destruct (explore_moves_sound (Solver.negamax fuel) P (tightened_alpha P alpha)
              (tightened_beta P beta s) (counted s) HL Hwin Hnext)
    as (ex & s' & E & Hv' & Hex); try assumption.
  - b2p. lia.
  - lia.
  - b2p. lia.
  - intros move Hlegal Hsafe a b s2 Hab2 Hv2. apply negamax_sound; try assumption.
    + apply legal_child; assumption.
    + unfold enough_fuel in *. cbn [Position.nbMoves Position.play Position.moves].
      unfold Position.nbMoves in Hfuel. lia.
  - exists ex, s'. split; [exact E|]. split; [exact Hv'|].
    destruct ex as [score|a]; lia.
Qed.

Lemma solve_total (fuel : nat) (P : Position.t) (weak : bool) (s : Solver.t) :
  Game.legal P -> (43 <= fuel)%nat ->
  exists x, Solver.solve fuel P weak s = Some x.
Proof.
  intros HL Hfuel. pose proof (legal_nbMoves P HL) as Hm.
  unfold Solver.solve. destruct (Position.canWinNext P); [eauto|].
  apply narrow_total.
  - intros a b s0. apply negamax_total; [lia|]. apply enough_fuel_43; assumption.
  - destruct weak; [lia|]. zdiv.
Qed.

Lemma play_seq_stops (line : string) :
  forall P,
  snd (Position.play_seq P line) <> Z.of_nat (String.length line) ->
  exists (prefix : string) (ch : ascii) (rest : string) (Q : Position.t),
    line = (prefix ++ String ch rest)%string /\
    Z.of_nat (String.length prefix) = snd (Position.play_seq P line) /\
    Position.play_seq P prefix = (Q, snd (Position.play_seq P line)) /\
    Position.valid_char Q ch = false.
Proof.
  induction line as [|c line IH]; intros P Hne.
  - cbn in Hne. congruence.
  - cbn [Position.play_seq String.length] in *.
    destruct (Position.valid_char P c) eqn:Hv.
    + specialize (IH (Position.play_char P c)).
      destruct (Position.play_seq (Position.play_char P c) line) as [P' n] eqn:E.
      cbn [snd] in *.
      destruct IH as (prefix & ch & rest & Q & -> & Hlen & Hplay & Hbad); [lia|].
      exists (String c prefix), ch, rest, Q. cbn [String.append String.length Position.play_seq].
      rewrite Hv, Hplay. repeat split; try assumption. lia.
    + exists EmptyString, c, line, P. cbn. auto.
Qed.

Lemma main_loop_spec (fuel : nat) (weak : bool) (clock : Z -> Z * Z) :
  (43 <= fuel)%nat ->
  forall (lines : list string) (l : Z) (solver : Solver.t),
  exists out,
    Driver.main_loop fuel weak clock l lines solver = Some out /\
    forall (n : nat) (line : string),
      nth_error lines n = Some line ->
      snd (Position.play_seq Position.empty line) <> Z.of_nat (String.length line) ->
      nth_error out n =
      Some (Driver.mk_emitted Driver.endl
              [Driver.diagnostic (l + Z.of_nat n)
                 (snd (Position.play_seq Position.empty line) + 1) line]).
Proof.
  intros Hfuel. induction lines as [|line0 lines IH]; intros l solver.
  - exists []. split; [reflexivity|]. intros [|n] line E; discriminate.
  - cbn [Driver.main_loop]. unfold Driver.main_line.
    pose proof (play_seq_count line0 Position.empty) as (Hcount & _).
    pose proof (play_seq_legal line0 Position.empty Game.legal_empty) as HL.
    destruct (Position.play_seq Position.empty line0) as [P played] eqn:Eplay.
    cbn [fst snd] in *.
    destruct (Z.eqb_spec played (Z.of_nat (String.length line0))) as [Heq|Hne];
      cbn [negb].
    + destruct (solve_total fuel P weak (Solver.reset solver) HL Hfuel) as ([score s'] & ->).
      destruct (IH (l + 1) s') as (out & -> & Hout).
      eexists. split; [reflexivity|]. intros [|n] line E Hbad; cbn [nth_error] in *.
      * injection E as <-. rewrite Eplay in Hbad. cbn [snd] in Hbad. contradiction.
      * rewrite (Hout n line E Hbad).
        replace (l + Z.of_nat (S n)) with (l + 1 + Z.of_nat n) by lia. reflexivity.
    + destruct (IH (l + 1) solver) as (out & -> & Hout).
      eexists. split; [reflexivity|]. intros [|n] line E Hbad; cbn [nth_error] in *.
      * injection E as <-. rewrite Eplay. cbn [snd]. rewrite Hcount.
        replace (l + Z.of_nat 0) with l by lia. reflexivity.
      * rewrite (Hout n line E Hbad).
        replace (l + Z.of_nat (S n)) with (l + 1 + Z.of_nat n) by lia. reflexivity.
Qed.

(** ** The writes of one call *)

Lemma explore_threaded
    (rec : Position.t -> Z -> Z -> Solver.t -> option (Z * Solver.t))
    (P : Position.t) (all : list Z) (budget : nat) :
  forall (moves : MoveSorter.t) (alpha beta : Z) (s : Solver.t)
         (ex : Solver.loop_exit) (s1 : Solver.t),
  incl (map fst moves) all ->
  Solver.explore rec budget P moves alpha beta s = Some (ex, s1) ->
  match ex with
  | Solver.Cutoff score =>
      exists move a0 s0,
        In move all /\ threaded rec P all s s0 /\
        rec (Position.play P move) (- beta) (- a0) s0 = Some (- score, s1)
  | Solver.Exhausted a => threaded rec P all s s1
  end.
Proof.
  induction budget as [|budget IH]; intros moves alpha beta s ex s1 Hincl E;
    cbn [Solver.explore] in E; [discriminate|].
  destruct (getNext_spec moves) as [(-> & Hnext)|(front & m & sc & -> & Hnext)];
    rewrite Hnext in E.
  - cbn in E. injection E as <- <-. apply threaded_none.
  - assert (Hm : In m all).
    { apply Hincl. rewrite map_app, in_app_iff. right. left. reflexivity. }
    assert (Hfront : incl (map fst front) all).
    { intros x Hx. apply Hincl. rewrite map_app, in_app_iff. left. exact Hx. }
    destruct (m =? 0); [injection E as <- <-; apply threaded_none|].
    destruct (rec (Position.play P m) (- beta) (- alpha) s) as [[r s']|] eqn:Er;
      [|discriminate].
    destruct (- r >=? beta).
    + injection E as <- <-. exists m, alpha, s. rewrite Z.opp_involutive.
      split; [exact Hm|]. split; [apply threaded_none|exact Er].
    + specialize (IH front _ beta s' ex s1 Hfront E). destruct ex as [score|a].
      * destruct IH as (move & a0 & s0 & Hin & Hth & Ecut).
        exists move, a0, s0. split; [exact Hin|]. split; [|exact Ecut].
        eapply threaded_call; [exact Hm|exact Er|exact Hth].
      * eapply threaded_call; [exact Hm|exact Er|exact IH].
Qed.

Lemma kept_refl (m : Z) (T : TranspositionTable.t) : kept m T T.
Proof. intros Q _ _. left. reflexivity. Qed.

Lemma kept_trans (m : Z) (T1 T2 T3 : TranspositionTable.t) :
  kept m T1 T2 -> kept m T2 T3 -> kept m T1 T3.
Proof.
  intros H12 H23 Q HQ Hm.
  destruct (H23 Q HQ Hm) as [E|E]; [|right; exact E].
  rewrite E. exact (H12 Q HQ Hm).
Qed.

Lemma kept_le (m m' : Z) (T T' : TranspositionTable.t) :
  m' <= m -> kept m T T' -> kept m' T T'.
Proof. intros Hle H Q HQ Hm. apply H; [exact HQ|lia]. Qed.

Lemma kept_put (m : Z) (T : TranspositionTable.t) (P : Position.t) (v : Z) :
  Game.legal P -> m < Position.nbMoves P ->
  kept m T (TranspositionTable.put T (Position.key P) v).
Proof.
  intros HP Hlt Q HQ Hm. rewrite get_put.
  destruct (Z.eqb_spec (TranspositionTable.index (Position.key Q))
              (TranspositionTable.index (Position.key P))) as [Hi|Hi];
    [|left; reflexivity].
  destruct (Z.eqb_spec (TranspositionTable.truncate (Position.key P))
              (TranspositionTable.truncate (Position.key Q))) as [Ht|Ht];
    [|right; reflexivity].
  assert (Q = P).
  { apply legal_key_injective; try assumption.
    apply slot_determines_key; auto using legal_key_bound. }
  subst Q. lia.
Qed.

Lemma threaded_kept
    (rec : Position.t -> Z -> Z -> Solver.t -> option (Z * Solver.t))
    (P : Position.t) (moves : list Z) (m : Z) (s s1 : Solver.t) :
  (forall move a b s0 r s0', In move moves ->
     rec (Position.play P move) a b s0 = Some (r, s0') ->
     kept m (Solver.transTable s0) (Solver.transTable s0')) ->
  threaded rec P moves s s1 ->
  kept m (Solver.transTable s) (Solver.transTable s1).
Proof.
  intros Hrec H. induction H as [s|s t1 t2 mv a b r Hin E _ IH].
  - apply kept_refl.
  - eapply kept_trans; [exact (Hrec mv a b s r t1 Hin E)|exact IH].
Qed.

(** What one call of [negamax] that reaches the loop does to the state. *)
Lemma loop_threaded (fuel : nat) (P : Position.t) (alpha beta : Z) (s : Solver.t)
    (ex : Solver.loop_exit) (s1 : Solver.t) :
  moves_loop fuel P alpha beta s = Some (ex, s1) ->
  match ex with
  | Solver.Cutoff score =>
      exists move a0 s0,
        In move (candidates P) /\
        threaded (Solver.negamax fuel) P (candidates P) (counted s) s0 /\
        Solver.negamax fuel (Position.play P move)
          (- tightened_beta P beta s) (- a0) s0 = Some (- score, s1)
  | Solver.Exhausted a =>
      threaded (Solver.negamax fuel) P (candidates P) (counted s) s1
  end.
Proof.
  unfold moves_loop. intros E.
  exact (explore_threaded (Solver.negamax fuel) P (candidates P) _ _ _ _ _ ex s1
           (incl_refl _) E).
Qed.

Lemma loop_kept (fuel : nat) (P : Position.t) (alpha beta : Z) (s : Solver.t)
    (ex : Solver.loop_exit) (s1 : Solver.t) :
  (forall move a b s0 r s0', In move (candidates P) ->
     Solver.negamax fuel (Position.play P move) a b s0 = Some (r, s0') ->
     kept (Position.nbMoves P) (Solver.transTable s0) (Solver.transTable s0')) ->
  moves_loop fuel P alpha beta s = Some (ex, s1) ->
  kept (Position.nbMoves P) (Solver.transTable s) (Solver.transTable s1).
Proof.
  intros Hrec E. apply loop_threaded in E.
  change (Solver.transTable s) with (Solver.transTable (counted s)).
  destruct ex as [score|a].
  - destruct E as (move & a0 & s0 & Hin & Hth & Ecut).
    eapply kept_trans; [exact (threaded_kept _ P _ _ _ _ Hrec Hth)|].
    exact (Hrec move _ _ s0 _ s1 Hin Ecut).
  - exact (threaded_kept _ P _ _ _ _ Hrec E).
Qed.

Lemma negamax_kept (fuel : nat) :
  forall (P : Position.t) (alpha beta : Z) (s : Solver.t) (r : Z) (s' : Solver.t),
  Game.legal P -> Position.canWinNext P = false ->
  Solver.negamax fuel P alpha beta s = Some (r, s') ->
  kept (Position.nbMoves P - 1) (Solver.transTable s) (Solver.transTable s').
Proof.
  induction fuel as [|fuel IH]; intros P alpha beta s r s' HL Hwin E; [discriminate|].
  destruct (returns_early P alpha beta s) eqn:Hearly.
  - destruct (negamax_early fuel P alpha beta s Hearly) as (r0 & E0).
    rewrite E0 in E. injection E as _ <-. apply kept_refl.
  - rewrite (negamax_late fuel P alpha beta s Hearly) in E.
    destruct (moves_loop fuel P alpha beta s) as [[ex s1]|] eqn:Eloop; [|discriminate].
    assert (Hloop : kept (Position.nbMoves P) (Solver.transTable s) (Solver.transTable s1)).
    { apply (loop_kept fuel P alpha beta s ex s1); [|exact Eloop].
      intros move a b s0 r0 s0' Hin E0. unfold candidates in Hin.
      apply in_map_iff in Hin. destruct Hin as ([mv sc] & Hfst & Hin).
      cbn [fst] in Hfst. subst mv.
      destruct (collect_moves_safe P move sc HL Hin) as (_ & Hlegal & Hsafe).
      pose proof (IH (Position.play P move) a b s0 r0 s0'
                    (legal_child P move HL Hwin Hlegal) Hsafe E0) as H.
      cbn [Position.nbMoves Position.play Position.moves] in H.
      unfold Position.nbMoves. eapply kept_le; [|exact H]. lia. }
    pose proof (kept_le (Position.nbMoves P) (Position.nbMoves P - 1) _ _
                  ltac:(lia) Hloop) as Hless.
    destruct ex as [score|a]; injection E as _ <-; [exact Hless|].
    cbn [Solver.transTable]. eapply kept_trans; [exact Hless|].
    apply kept_put; [exact HL|lia].
Qed.

(** * The claims *)

(** C1, as stated, fails: after the moves 112233 the player to move wins
    with one more stone, their fourth of the game; [solve] returns 18, and
    the claimed encoding, [(WIDTH*HEIGHT+1)/2 - v] stones, gives 3 stones,
    which is neither the stones still to place nor the stones placed in
    all. *)
Lemma solve_score_is_not_stones_to_go :
  Solver.solve 43 (position "112233") false fresh = Some (18, fresh) /\
  Game.value (position "112233") = Game.Win 1 /\
  cdiv (Position.WIDTH * Position.HEIGHT + 1) 2 - 18 = 3 /\
  3 <> 1 /\
  Position.nbMoves (position "112233") / 2 + 1 = 4 /\
  3 <> 4.
Proof. vm_compute. repeat split; discriminate. Qed.

(** C1, amended.  For every legal position and every solver state reached
    by resets and solves, the strong [solve] returns the game-theoretic value
    of the position for the player to move under optimal play by both
    players: a positive value [v] means the player to move forces a win with
    their own [WIDTH*HEIGHT/2 + 1 - v]-th stone, which is
    [WIDTH*HEIGHT/2 + 1 - v - nbMoves/2] more stones, 0 means a draw, and a
    negative value means the opponent forces a win with their own
    [WIDTH*HEIGHT/2 + 1 + v]-th stone. *)
Theorem solve_strong_value (fuel : nat) (P : Position.t) (s : Solver.t) :
  Game.legal P -> Game.reachable s -> (43 <= fuel)%nat ->
  exists v s',
    Solver.solve fuel P false s = Some (v, s') /\
    encodes (Position.nbMoves P) (Game.value P) v.
Proof.
  intros HL Hs Hfuel.
  destruct (solve_strong_sound fuel P s HL (reachable_valid s Hs) Hfuel) as (s' & E & _).
  exists (Game.true_score P), s'. split; [exact E|].
  pose proof (legal_nbMoves P HL) as Hm.
  pose proof (value_feasible P HL) as Hf. unfold Game.true_score.
  destruct (Game.value P); cbn [encodes Game.score_of feasible] in *; [|reflexivity|]; zdiv.
Qed.

Lemma solve_strong_value_witness :
  exists v s',
    Solver.solve 43 (position "2252576253462244111563365343671351441") false fresh
    = Some (v, s') /\
    encodes (Position.nbMoves (position "2252576253462244111563365343671351441"))
      (Game.value (position "2252576253462244111563365343671351441")) v.
Proof.
  apply (solve_strong_value 43 (position "2252576253462244111563365343671351441") fresh).
  - apply position_legal.
  - apply fresh_reachable.
  - lia.
Defined.

(** C2, as stated, fails: after the moves 112233 the player to move can win
    at once and the weak [solve] returns the immediate-win score 18, which is
    not the sign of the strong score; after 7422341735127 the player to move
    cannot win at once and the weak [solve] returns 14. *)
Lemma weak_solve_is_not_a_sign :
  Solver.solve 43 (position "112233") true fresh = Some (18, fresh) /\
  Solver.solve 43 (position "112233") false fresh = Some (18, fresh) /\
  Game.sign 18 = 1 /\
  Position.canWinNext (position "7422341735127") = false /\
  option_map fst (Solver.solve 43 (position "7422341735127") true fresh) = Some 14.
Proof. vm_compute. repeat split; reflexivity. Qed.

(** C2, amended.  For every legal position, the weak [solve] has the sign of
    the strong [solve]: it is -1 when the strong score is negative, 0 when
    the strong score is 0, and a positive value that does not exceed the
    strong score when that is positive. *)
Theorem weak_solve_sign (fuel : nat) (P : Position.t) (s1 s2 : Solver.t) :
  Game.legal P -> Game.reachable s1 -> Game.reachable s2 -> (43 <= fuel)%nat ->
  exists w v s1' s2',
    Solver.solve fuel P true s1 = Some (w, s1') /\
    Solver.solve fuel P false s2 = Some (v, s2') /\
    Game.sign w = Game.sign v /\
    (v <= 0 -> w = Game.sign v) /\
    (0 < v -> 1 <= w <= v).
Proof.
  intros HL Hs1 Hs2 Hfuel.
  destruct (solve_weak_sound fuel P s1 HL (reachable_valid s1 Hs1) Hfuel)
    as (w & s1' & E1 & _ & Hwin & Hnowin).
  destruct (solve_strong_sound fuel P s2 HL (reachable_valid s2 Hs2) Hfuel)
    as (s2' & E2 & _).
  exists w, (Game.true_score P), s1', s2'.
  split; [exact E1|]. split; [exact E2|].
  pose proof (legal_nbMoves P HL) as Hm. unfold Game.sign.
  destruct (Position.canWinNext P) eqn:Hw.
  - rewrite (Hwin eq_refl).
    assert (0 < Game.true_score P).
    { rewrite (true_score_can_win P HL Hw).
      pose proof (can_win_has_move P HL Hw). zdiv. }
    lia.
  - destruct (Hnowin eq_refl) as (N1 & N2 & N3). lia.
Qed.

Lemma weak_solve_sign_witness :
  exists w v s1' s2',
    Solver.solve 43 (position "7422341735127") true fresh = Some (w, s1') /\
    Solver.solve 43 (position "7422341735127") false fresh = Some (v, s2') /\
    Game.sign w = Game.sign v /\
    (v <= 0 -> w = Game.sign v) /\
    (0 < v -> 1 <= w <= v).
Proof.
  apply (weak_solve_sign 43 (position "7422341735127") fresh fresh).
  - apply position_legal.
  - apply fresh_reachable.
  - apply fresh_reachable.
  - lia.
Defined.

(** C3.  Bound validity: when the table holds only upper bounds, it still
    does after [negamax]; and the value [alpha - MIN_SCORE + 1] written under
    the key of the position once the moves are exhausted is the upper bound
    [alpha] of its score. *)
Theorem negamax_stores_upper_bounds (fuel : nat) (P : Position.t)
    (alpha beta : Z) (s : Solver.t) :
  Game.legal P -> Position.canWinNext P = false -> alpha < beta ->
  Game.bound_valid (Solver.transTable s) -> enough_fuel (S fuel) P ->
  exists r s',
    Solver.negamax (S fuel) P alpha beta s = Some (r, s') /\
    Game.bound_valid (Solver.transTable s') /\
    (returns_early P alpha beta s = false ->
     forall a s1, moves_loop fuel P alpha beta s = Some (Solver.Exhausted a, s1) ->
       Solver.transTable s' =
       TranspositionTable.put (Solver.transTable s1) (Position.key P)
         (a - Position.MIN_SCORE + 1) /\
       Game.true_score P <= (a - Position.MIN_SCORE + 1) + Position.MIN_SCORE - 1).
Proof.
  intros HL Hwin Hab Hvalid Hfuel.
  destruct (negamax_sound (S fuel) P alpha beta s HL Hwin Hab Hvalid Hfuel)
    as (r & s' & E & _ & Hv').
  exists r, s'. split; [exact E|]. split; [exact Hv'|].
  intros Hearly a s1 Eloop.
  destruct (moves_loop_sound fuel P alpha beta s HL Hwin Hab Hvalid Hfuel Hearly)
    as (ex & s2 & Eloop' & _ & Hex).
  rewrite Eloop in Eloop'. injection Eloop' as <- <-.
  rewrite (negamax_late fuel P alpha beta s Hearly), Eloop in E.
  injection E as _ <-. cbn [Solver.transTable]. split; [reflexivity|lia].
Qed.

Lemma negamax_stores_upper_bounds_witness :
  exists r s',
    Solver.negamax 5 (position "45264264221442616645161175215777737335") 0 1 fresh
    = Some (r, s') /\
    Game.bound_valid (Solver.transTable s') /\
    (returns_early (position "45264264221442616645161175215777737335") 0 1 fresh
     = false ->
     forall a s1,
       moves_loop 4 (position "45264264221442616645161175215777737335") 0 1 fresh
       = Some (Solver.Exhausted a, s1) ->
       Solver.transTable s' =
       TranspositionTable.put (Solver.transTable s1)
         (Position.key (position "45264264221442616645161175215777737335"))
         (a - Position.MIN_SCORE + 1) /\
       Game.true_score (position "45264264221442616645161175215777737335")
       <= (a - Position.MIN_SCORE + 1) + Position.MIN_SCORE - 1).
Proof.
  apply (negamax_stores_upper_bounds 4
           (position "45264264221442616645161175215777737335") 0 1 fresh).
  - apply position_legal.
  - vm_compute. reflexivity.
  - lia.
  - apply bound_valid_reset.
  - vm_compute. reflexivity.
Defined.

(** C4.  The strong [solve] of a legal position returns the same integer
    from any two solver states reached by resets and earlier solves,
    whatever those solves left in the table; no entry is read for a position
    other than the one it was stored for. *)
Theorem solve_deterministic (fuel1 fuel2 : nat) (P : Position.t)
    (s1 s2 : Solver.t) :
  Game.legal P -> Game.reachable s1 -> Game.reachable s2 ->
  (43 <= fuel1)%nat -> (43 <= fuel2)%nat ->
  exists v s1' s2',
    Solver.solve fuel1 P false s1 = Some (v, s1') /\
    Solver.solve fuel2 P false s2 = Some (v, s2').
Proof.
  intros HL Hs1 Hs2 Hf1 Hf2.
  destruct (solve_strong_sound fuel1 P s1 HL (reachable_valid s1 Hs1) Hf1) as (s1' & E1 & _).
  destruct (solve_strong_sound fuel2 P s2 HL (reachable_valid s2 Hs2) Hf2) as (s2' & E2 & _).
  exists (Game.true_score P), s1', s2'. auto.
Qed.

Lemma solved_reachable (seq : string) : Game.reachable (solved seq).
Proof.
  unfold solved.
  destruct (Solver.solve 43 (position seq) false fresh) as [[r s]|] eqn:E.
  - apply (Game.reachable_solve fresh s 43 (position seq) false r).
    + apply fresh_reachable.
    + apply position_legal.
    + lia.
    + exact E.
  - apply fresh_reachable.
Qed.

Lemma solve_deterministic_witness :
  exists v s1' s2',
    Solver.solve 43 (position "7422341735127") false fresh = Some (v, s1') /\
    Solver.solve 44 (position "7422341735127") false
      (solved "6112326322661524332745113765545473657") = Some (v, s2').
Proof.
  apply (solve_deterministic 43 44 (position "7422341735127") fresh
           (solved "6112326322661524332745113765545473657")).
  - apply position_legal.
  - apply fresh_reachable.
  - apply solved_reachable.
  - lia.
  - lia.
Defined.

(** C5.  Under the preconditions of [negamax] (a window [alpha < beta], a
    position where the player to move cannot win at once): when
    [possibleNonLosingMoves] is empty, [negamax] returns
    [-(WIDTH*HEIGHT - nbMoves)/2]; otherwise, when
    [nbMoves >= WIDTH*HEIGHT - 2], it returns 0.  Both returns only count the
    node. *)
Theorem negamax_early_returns (fuel : nat) (P : Position.t) (alpha beta : Z)
    (s : Solver.t) :
  alpha < beta -> Position.canWinNext P = false ->
  (Position.possibleNonLosingMoves P = 0 ->
   Solver.negamax (S fuel) P alpha beta s =
   Some (cdiv (- (Position.WIDTH * Position.HEIGHT - Position.nbMoves P)) 2,
         counted s)) /\
  (Position.possibleNonLosingMoves P <> 0 ->
   Position.nbMoves P >= Position.WIDTH * Position.HEIGHT - 2 ->
   Solver.negamax (S fuel) P alpha beta s = Some (0, counted s)).
Proof.
  intros _ _. cbn [Solver.negamax]. fold (counted s). split.
  - intros ->. reflexivity.
  - intros Hne Hm. destruct (Z.eqb_spec (Position.possibleNonLosingMoves P) 0);
      [contradiction|].
    destruct (Z.geb_spec (Position.nbMoves P) (Position.WIDTH * Position.HEIGHT - 2));
      [reflexivity|lia].
Qed.

Lemma negamax_early_returns_witness :
  Solver.negamax 1 (position "22443") (-1) 0 fresh = Some (-18, counted fresh) /\
  Solver.negamax 1 (position "6754231124237473575746756236135263612544") (-1) 0 fresh
  = Some (0, counted fresh).
Proof.
  split.
  - apply (negamax_early_returns 0 (position "22443") (-1) 0 fresh).
    + lia.
    + vm_compute. reflexivity.
    + vm_compute. reflexivity.
  - apply (negamax_early_returns 0
             (position "6754231124237473575746756236135263612544") (-1) 0 fresh).
    + lia.
    + vm_compute. reflexivity.
    + vm_compute. discriminate.
    + vm_compute. discriminate.
Defined.

(** C6.  When the player to move can win with the next stone, [solve]
    returns the immediate-win score [(WIDTH*HEIGHT + 1 - nbMoves)/2] for
    either value of the weak flag and leaves the solver as it was: no node
    is counted and no fuel is needed, [negamax] is not called. *)
Theorem solve_immediate_win (fuel : nat) (P : Position.t) (weak : bool)
    (s : Solver.t) :
  Position.canWinNext P = true ->
  Solver.solve fuel P weak s =
  Some (cdiv (Position.WIDTH * Position.HEIGHT + 1 - Position.nbMoves P) 2, s).
Proof. intros Hwin. unfold Solver.solve. rewrite Hwin. reflexivity. Qed.

Lemma solve_immediate_win_witness :
  Solver.solve 0 (position "112233") true fresh = Some (18, fresh) /\
  Solver.solve 0 (position "112233") false fresh = Some (18, fresh).
Proof.
  split; apply (solve_immediate_win 0 (position "112233")); vm_compute; reflexivity.
Defined.

(** C7, as stated, fails on the beta cutoff: on the position after
    6112326322661524332745113765545473657, [negamax] with the window
    [(-1, 0)] and an empty table leaves by a beta cutoff with score 0, and
    the table has changed: the recursive call on the position with key
    122825129408941 has stored an upper bound there. *)
Lemma beta_cutoff_leaves_table_changed :
  returns_early (position "6112326322661524332745113765545473657") (-1) 0 fresh
  = false /\
  option_map fst
    (moves_loop 5 (position "6112326322661524332745113765545473657") (-1) 0 fresh)
  = Some (Solver.Cutoff 0) /\
  option_map
    (fun x => (fst x,
               TranspositionTable.get (Solver.transTable (snd x)) 122825129408941))
    (Solver.negamax 6 (position "6112326322661524332745113765545473657") (-1) 0 fresh)
  = Some (0, 22) /\
  TranspositionTable.get (Solver.transTable fresh) 122825129408941 = 0.
Proof. vm_compute. repeat split; reflexivity. Qed.

(** C7, amended.  A call of [negamax] itself writes to the transposition
    table only after the loop over the moves has run out of moves, and then
    it stores [alpha - MIN_SCORE + 1] under the key of the position.  On the
    four returns before the loop (no non-losing move, draw cutoff, window
    closed by either bound) the state is the one at entry with the node
    counted.  On a beta cutoff the call adds nothing: the state it returns
    is the very state the recursive call that cut has returned, and the
    recursive calls, each on the position after a candidate move, have
    started one after the other in the state the one before has returned,
    the first in the state at entry with the node counted.  So the table
    holds what the recursive calls have stored, which for a legal position
    are entries of positions with more stones: for the position itself and
    every legal position with no more stones the table returns what it
    returned at entry, or nothing. *)
Theorem negamax_table_writes (fuel : nat) (P : Position.t) (alpha beta : Z)
    (s : Solver.t) (r : Z) (s' : Solver.t) :
  Solver.negamax (S fuel) P alpha beta s = Some (r, s') ->
  if returns_early P alpha beta s
  then s' = counted s
  else
    exists ex s1,
      moves_loop fuel P alpha beta s = Some (ex, s1) /\
      (Game.legal P -> Position.canWinNext P = false ->
       kept (Position.nbMoves P) (Solver.transTable s) (Solver.transTable s1)) /\
      match ex with
      | Solver.Cutoff score =>
          r = score /\ s' = s1 /\
          exists move a0 s0,
            In move (candidates P) /\
            threaded (Solver.negamax fuel) P (candidates P) (counted s) s0 /\
            Solver.negamax fuel (Position.play P move)
              (- tightened_beta P beta s) (- a0) s0 = Some (- score, s1)
      | Solver.Exhausted a =>
          r = a /\
          threaded (Solver.negamax fuel) P (candidates P) (counted s) s1 /\
          s' = Solver.mk (Solver.nodeCount s1)
                 (TranspositionTable.put (Solver.transTable s1) (Position.key P)
                    (a - Position.MIN_SCORE + 1))
      end.
Proof.
  intros E. destruct (returns_early P alpha beta s) eqn:Hearly.
  - destruct (negamax_early fuel P alpha beta s Hearly) as (r0 & E0).
    rewrite E0 in E. injection E as _ <-. reflexivity.
  - rewrite (negamax_late fuel P alpha beta s Hearly) in E.
    destruct (moves_loop fuel P alpha beta s) as [[ex s1]|] eqn:Eloop; [|discriminate].
    exists ex, s1. split; [reflexivity|]. split.
    + intros HL Hwin. apply (loop_kept fuel P alpha beta s ex s1); [|exact Eloop].
      intros move a b s0 r0 s0' Hin E0. unfold candidates in Hin.
      apply in_map_iff in Hin. destruct Hin as ([mv sc] & Hfst & Hin).
      cbn [fst] in Hfst. subst mv.
      destruct (collect_moves_safe P move sc HL Hin) as (_ & Hlegal & Hsafe).
      pose proof (negamax_kept fuel (Position.play P move) a b s0 r0 s0'
                    (legal_child P move HL Hwin Hlegal) Hsafe E0) as H.
      cbn [Position.nbMoves Position.play Position.moves] in H.
      unfold Position.nbMoves. eapply kept_le; [|exact H]. lia.
    + pose proof (loop_threaded fuel P alpha beta s ex s1 Eloop) as Hth.
      destruct ex as [score|a]; injection E as <- <-.
      * split; [reflexivity|]. split; [reflexivity|exact Hth].
      * split; [reflexivity|]. split; [exact Hth|reflexivity].
Qed.

Lemma negamax_table_writes_witness :
  exists ex s1,
    moves_loop 5 (position "6112326322661524332745113765545473657") (-1) 0 fresh
    = Some (ex, s1) /\
    (Game.legal (position "6112326322661524332745113765545473657") ->
     Position.canWinNext (position "6112326322661524332745113765545473657") = false ->
     kept (Position.nbMoves (position "6112326322661524332745113765545473657"))
       (Solver.transTable fresh) (Solver.transTable s1)) /\
    match ex with
    | Solver.Cutoff score =>
        0 = score /\
        final_state
          (Solver.negamax 6 (position "6112326322661524332745113765545473657")
             (-1) 0 fresh)
        = s1 /\
        exists move a0 s0,
          In move (candidates (position "6112326322661524332745113765545473657")) /\
          threaded (Solver.negamax 5)
            (position "6112326322661524332745113765545473657")
            (candidates (position "6112326322661524332745113765545473657"))
            (counted fresh) s0 /\
          Solver.negamax 5
            (Position.play (position "6112326322661524332745113765545473657") move)
            (- tightened_beta (position "6112326322661524332745113765545473657") 0
                 fresh)
            (- a0) s0
          = Some (- score, s1)
    | Solver.Exhausted a =>
        0 = a /\
        threaded (Solver.negamax 5)
          (position "6112326322661524332745113765545473657")
          (candidates (position "6112326322661524332745113765545473657"))
          (counted fresh) s1 /\
        final_state
          (Solver.negamax 6 (position "6112326322661524332745113765545473657")
             (-1) 0 fresh)
        = Solver.mk (Solver.nodeCount s1)
            (TranspositionTable.put (Solver.transTable s1)
               (Position.key (position "6112326322661524332745113765545473657"))
               (a - Position.MIN_SCORE + 1))
    end.
Proof.
  apply (negamax_table_writes 5
           (position "6112326322661524332745113765545473657") (-1) 0 fresh 0
           (final_state
              (Solver.negamax 6 (position "6112326322661524332745113765545473657")
                 (-1) 0 fresh))).
  vm_compute. reflexivity.
Defined.

(** C8.  The narrowing loop of [solve] terminates on every legal position:
    [solve] returns a value; in an iteration with [min < max] the probe point
    [med] satisfies [min <= med < max], and whatever [negamax] returns the
    update ([max = r] when [r <= med], [min = r] otherwise) makes
    [max - min] strictly smaller. *)
Theorem solve_terminates (fuel : nat) (P : Position.t) (weak : bool)
    (s : Solver.t) :
  Game.legal P -> (43 <= fuel)%nat ->
  (exists v s', Solver.solve fuel P weak s = Some (v, s')) /\
  (forall min max r, min < max ->
     min <= Solver.median min max < max /\
     (r <= Solver.median min max -> r - min < max - min) /\
     (Solver.median min max < r -> max - r < max - min)).
Proof.
  intros HL Hfuel. split.
  - destruct (solve_total fuel P weak s HL Hfuel) as ([v s'] & E). eauto.
  - intros min max r Hlt. pose proof (median_range min max Hlt). lia.
Qed.

Lemma solve_terminates_witness :
  (exists v s', Solver.solve 43 Position.empty false fresh = Some (v, s')) /\
  (forall min max r, min < max ->
     min <= Solver.median min max < max /\
     (r <= Solver.median min max -> r - min < max - min) /\
     (Solver.median min max < r -> max - r < max - min)).
Proof.
  apply (solve_terminates 43 Position.empty false fresh).
  - apply Game.legal_empty.
  - lia.
Defined.

(** C9, as stated, fails on the third kind of invalid move.  On the line
    12121211 the driver reports move 7: that move is in range, its column is
    not full and nobody has won when it is played; it is the move that
    completes an alignment, and the first move played after the game is won
    is the eighth. *)
Lemma diagnostic_names_the_winning_move :
  Driver.main 43 [] (fun _ => (0, 0)) ["12121211"]%string
  = Some [Driver.mk_emitted Driver.endl [Driver.diagnostic 1 7 "12121211"]] /\
  Game.already_won (position "121212") = false /\
  negb (Position.move_in (position "121212") 0 =? 0) = true /\
  Position.valid_char (position "121212") "1" = false /\
  Game.already_won
    (Position.play (position "121212") (Position.move_in (position "121212") 0))
  = true.
Proof. vm_compute. repeat split; reflexivity. Qed.

(** C9, amended.  For an input line that [play] does not apply in full (it
    stops at a character out of range, at a full column or at a move that
    completes an alignment), the driver writes exactly one diagnostic to
    standard error, whose move number [k] is the number of moves [play] has
    applied plus one and is the index of the first character [play] rejects,
    and the line it writes to standard output is empty. *)
Theorem invalid_line_diagnostic (fuel : nat) (args : list string)
    (clock : Z -> Z * Z) (lines : list string) (n : nat) (line : string) :
  (43 <= fuel)%nat ->
  nth_error lines n = Some line ->
  snd (Position.play_seq Position.empty line) <> Z.of_nat (String.length line) ->
  exists out k,
    Driver.main fuel args clock lines = Some out /\
    k = snd (Position.play_seq Position.empty line) + 1 /\
    k = Position.nbMoves (fst (Position.play_seq Position.empty line)) + 1 /\
    first_invalid line k /\
    nth_error out n =
    Some (Driver.mk_emitted Driver.endl
            [Driver.diagnostic (Z.of_nat n + 1) k line]).
Proof.
  intros Hfuel Hnth Hbad. unfold Driver.main.
  destruct (main_loop_spec fuel (Driver.weak_flag args) clock Hfuel lines 1
              (Solver.mk 0 TranspositionTable.reset)) as (out & E & Hout).
  exists out, (snd (Position.play_seq Position.empty line) + 1).
  split; [exact E|]. split; [reflexivity|]. split.
  { destruct (play_seq_count line Position.empty) as (Hc & _). rewrite Hc. reflexivity. }
  split.
  - destruct (play_seq_stops line Position.empty Hbad)
      as (prefix & ch & rest & Q & Hline & Hlen & Hplay & Hch).
    exists prefix, ch, rest, Q.
    replace (snd (Position.play_seq Position.empty line) + 1 - 1)
      with (snd (Position.play_seq Position.empty line)) by lia.
    auto.
  - rewrite (Hout n line Hnth Hbad).
    replace (1 + Z.of_nat n) with (Z.of_nat n + 1) by lia. reflexivity.
Qed.

Lemma invalid_line_diagnostic_witness :
  exists out k,
    Driver.main 43 ["-w"]%string (fun _ => (0, 0)) ["112233"; "1212121"]%string
    = Some out /\
    k = 7 /\
    k = Position.nbMoves (fst (Position.play_seq Position.empty "1212121")) + 1 /\
    first_invalid "1212121" k /\
    nth_error out 1 =
    Some (Driver.mk_emitted Driver.endl [Driver.diagnostic 2 k "1212121"]).
Proof.
  apply (invalid_line_diagnostic 43 ["-w"]%string (fun _ => (0, 0))
           ["112233"; "1212121"]%string 1 "1212121").
  - lia.
  - reflexivity.
  - vm_compute. discriminate.
Defined.

(** C10.  [negamax] is fail-soft: on a legal position where the player to
    move cannot win at once, with a window [alpha < beta] and a table that
    holds only upper bounds, the returned value [r] and the score [s] of the
    position satisfy: if [s <= alpha] then [s <= r <= alpha]; if [s >= beta]
    then [beta <= r <= s]; if [alpha <= s <= beta] then [r = s]. *)
Theorem negamax_fail_soft (fuel : nat) (P : Position.t) (alpha beta : Z)
    (s : Solver.t) :
  Game.legal P -> Position.canWinNext P = false -> alpha < beta ->
  Game.bound_valid (Solver.transTable s) -> enough_fuel fuel P ->
  exists r s',
    Solver.negamax fuel P alpha beta s = Some (r, s') /\
    (Game.true_score P <= alpha -> Game.true_score P <= r <= alpha) /\
    (Game.true_score P >= beta -> beta <= r <= Game.true_score P) /\
    (alpha <= Game.true_score P <= beta -> r = Game.true_score P).
Proof.
  intros HL Hwin Hab Hvalid Hfuel.
  destruct (negamax_sound fuel P alpha beta s HL Hwin Hab Hvalid Hfuel)
    as (r & s' & E & Hfs & _).
  exists r, s'. split; [exact E|exact Hfs].
Qed.

Lemma negamax_fail_soft_witness :
  exists r s',
    Solver.negamax 43 (position "7422341735127") 0 1 fresh = Some (r, s') /\
    (Game.true_score (position "7422341735127") <= 0 ->
     Game.true_score (position "7422341735127") <= r <= 0) /\
    (Game.true_score (position "7422341735127") >= 1 ->
     1 <= r <= Game.true_score (position "7422341735127")) /\
    (0 <= Game.true_score (position "7422341735127") <= 1 ->
     r = Game.true_score (position "7422341735127")).
Proof.
  apply (negamax_fail_soft 43 (position "7422341735127") 0 1 fresh).
  - apply position_legal.
  - vm_compute. reflexivity.
  - lia.
  - apply bound_valid_reset.
  - vm_compute. reflexivity.
Defined.

(** * Further properties of the solver *)

(** ** The constants of the solver *)

Lemma log2_rec_spec (fuel : nat) :
  forall n, 0 <= n < 2 ^ Z.of_nat fuel -> Solver.log2_rec fuel n = Z.log2 n.
Proof.
  induction fuel as [|fuel IH]; intros n Hn.
  - cbn. change (2 ^ Z.of_nat 0) with 1 in Hn. assert (n = 0) by lia. subst. reflexivity.
  - cbn [Solver.log2_rec]. destruct (Z.leb_spec n 1) as [Hle|Hgt].
    + assert (n = 0 \/ n = 1) as [-> | ->] by lia; reflexivity.
    + rewrite IH.
      * rewrite <- Z.div2_div, Z.div2_spec, Z.log2_shiftr by lia.
        pose proof (Z.log2_pos n ltac:(lia)). lia.
      * rewrite Nat2Z.inj_succ, Z.pow_succ_r in Hn by lia. zdiv.
Qed.

(** X1.  [log2] is the integer logarithm of the comment above it: it is 0 at
    0 and 1, and for every other [unsigned int] [n] it is the exponent of
    the largest power of 2 that is at most [n]. *)
Theorem log2_floor (n : Z) :
  0 <= n < 2 ^ 32 ->
  (n <= 1 -> Solver.log2 n = 0) /\
  (1 <= n -> 2 ^ Solver.log2 n <= n < 2 ^ (Solver.log2 n + 1)).
Proof.
  intros Hn. unfold Solver.log2. rewrite (log2_rec_spec 32 n Hn). split.
  - intros Hle. assert (n = 0 \/ n = 1) as [-> | ->] by lia; reflexivity.
  - intros Hpos. pose proof (Z.log2_spec n ltac:(lia)) as H.
    rewrite <- Z.add_1_r in H. exact H.
Qed.

Lemma log2_floor_witness :
  (43 <= 1 -> Solver.log2 43 = 0) /\
  (1 <= 43 -> 2 ^ Solver.log2 43 <= 43 < 2 ^ (Solver.log2 43 + 1)).
Proof. apply (log2_floor 43). lia. Defined.

(** X2.  The constructor fills [columnOrder] with every column exactly once,
    the centre column first and then outwards, the column on the left of
    the centre before the one on the right at the same distance:
    [columnOrder[i]] is [WIDTH/2 - (i+1)/2] for odd [i] and [WIDTH/2 + i/2]
    for even [i]. *)
Theorem columnOrder_centre_out (i : Z) :
  0 <= i < Position.WIDTH ->
  nth_error Solver.columnOrder (Z.to_nat i) = Some (Solver.columnOrder_at i) /\
  Solver.columnOrder_at i =
    (if Z.odd i then Position.WIDTH / 2 - (i + 1) / 2
     else Position.WIDTH / 2 + i / 2) /\
  0 <= Solver.columnOrder_at i < Position.WIDTH /\
  (forall j, 0 <= j < Position.WIDTH ->
     Solver.columnOrder_at j = Solver.columnOrder_at i -> j = i).
Proof.
  change Position.WIDTH with 7. intros Hi.
  assert (Hcases : i = 0 \/ i = 1 \/ i = 2 \/ i = 3 \/ i = 4 \/ i = 5 \/ i = 6) by lia.
  split; [|split; [|split]].
  - destruct Hcases as [->|[->|[->|[->|[->|[->| ->]]]]]]; reflexivity.
  - destruct Hcases as [->|[->|[->|[->|[->|[->| ->]]]]]]; reflexivity.
  - destruct Hcases as [->|[->|[->|[->|[->|[->| ->]]]]]]; vm_compute; split; congruence.
  - intros j Hj.
    assert (Hj' : j = 0 \/ j = 1 \/ j = 2 \/ j = 3 \/ j = 4 \/ j = 5 \/ j = 6) by lia.
    destruct Hcases as [->|[->|[->|[->|[->|[->| ->]]]]]];
      destruct Hj' as [->|[->|[->|[->|[->|[->| ->]]]]]];
      vm_compute; congruence.
Qed.

Lemma columnOrder_centre_out_witness :
  nth_error Solver.columnOrder (Z.to_nat 1) = Some (Solver.columnOrder_at 1) /\
  Solver.columnOrder_at 1 =
    (if Z.odd 1 then Position.WIDTH / 2 - (1 + 1) / 2
     else Position.WIDTH / 2 + 1 / 2) /\
  0 <= Solver.columnOrder_at 1 < Position.WIDTH /\
  (forall j, 0 <= j < Position.WIDTH ->
     Solver.columnOrder_at j = Solver.columnOrder_at 1 -> j = 1).
Proof. apply (columnOrder_centre_out 1). vm_compute. split; congruence. Defined.

(** ** The candidate moves of a node *)

Lemma add_size (entries : MoveSorter.t) (move score : Z) :
  MoveSorter.size (MoveSorter.add entries move score) = S (MoveSorter.size entries).
Proof.
  unfold MoveSorter.size. induction entries as [|[m s] rest IH]; cbn; [reflexivity|].
  destruct (s <? score); cbn; [rewrite IH|]; reflexivity.
Qed.

Lemma collect_size (P : Position.t) (next : Z) (cols : list Z) :
  forall acc,
  (MoveSorter.size
     (fold_left
        (fun moves col =>
           let move := Z.land next (Position.column_mask col) in
           if (move =? 0)%Z then moves
           else MoveSorter.add moves move (Position.moveScore P move))
        cols acc)
   <= MoveSorter.size acc + List.length cols)%nat.
Proof.
  induction cols as [|c cols IH]; intros acc; cbn [fold_left List.length]; [lia|].
  eapply Nat.le_trans; [apply IH|].
  destruct (_ =? 0); [lia|]. rewrite add_size. lia.
Qed.

(** X3.  The sorter of a node receives at most [WIDTH] moves, whatever
    [next] is; each one is a non-zero part of [next] inside one column,
    scored by [moveScore], so that the value 0 of [getNext] only ever means
    that the moves have run out. *)
Theorem collect_moves_capacity (P : Position.t) (next : Z) :
  (MoveSorter.size (Solver.collect_moves P next) <= Z.to_nat Position.WIDTH)%nat /\
  forall move score, In (move, score) (Solver.collect_moves P next) ->
    move <> 0 /\ Z.land move next = move /\ score = Position.moveScore P move /\
    exists col, 0 <= col < Position.WIDTH /\
      move = Z.land next (Position.column_mask col).
Proof.
  split.
  - unfold Solver.collect_moves.
    eapply Nat.le_trans; [apply collect_size|]. rewrite length_rev. vm_compute. lia.
  - intros move score Hin. apply collect_moves_spec in Hin.
    destruct Hin as (col & Hcol & Hne & E). injection E as -> ->.
    split; [exact Hne|]. split; [|split; [reflexivity|exists col; split; [exact Hcol|reflexivity]]].
    rewrite <- Z.land_assoc, (Z.land_comm (Position.column_mask col)), Z.land_assoc,
      Z.land_diag. reflexivity.
Qed.

(** ** The keys and the values of the table *)

(** X4.  The key [negamax] hands to the table for a legal position fits in
    the [WIDTH*(HEIGHT+1)] bits the table is instantiated with. *)
Theorem keys_fit (P : Position.t) :
  Game.legal P -> 0 <= Position.key P < 2 ^ Solver.table_key_size.
Proof. intros HL. exact (legal_key_bound P HL). Qed.

Lemma keys_fit_witness :
  0 <= Position.key (position "4453") < 2 ^ Solver.table_key_size.
Proof. apply (keys_fit (position "4453")). apply position_legal. Defined.

Lemma values_fit_get (T : TranspositionTable.t) (k : Z) :
  values_fit T -> 0 <= TranspositionTable.get T k < 64.
Proof.
  intros H. unfold TranspositionTable.get.
  destruct (_ =? _); [exact (H _)|lia].
Qed.

Lemma values_fit_put (T : TranspositionTable.t) (k v : Z) :
  values_fit T -> 0 <= v < 64 -> values_fit (TranspositionTable.put T k v).
Proof.
  intros H Hv i. cbn [TranspositionTable.put TranspositionTable.V].
  destruct (i =? TranspositionTable.index k); [exact Hv|exact (H i)].
Qed.

Lemma explore_values_fit
    (rec : Position.t -> Z -> Z -> Solver.t -> option (Z * Solver.t))
    (P : Position.t) (budget : nat) :
  (forall move a b s r s', a < b -> values_fit (Solver.transTable s) ->
     rec (Position.play P move) a b s = Some (r, s') ->
     values_fit (Solver.transTable s')) ->
  forall (moves : MoveSorter.t) (alpha beta : Z) (s : Solver.t)
         (ex : Solver.loop_exit) (s' : Solver.t),
  alpha < beta -> values_fit (Solver.transTable s) ->
  Solver.explore rec budget P moves alpha beta s = Some (ex, s') ->
  values_fit (Solver.transTable s') /\
  match ex with
  | Solver.Cutoff score => beta <= score
  | Solver.Exhausted a => alpha <= a < beta
  end.
Proof.
  intros Hrec. induction budget as [|budget IH];
    intros moves alpha beta s ex s' Hab Hfit E; cbn [Solver.explore] in E;
    [discriminate|].
  destruct (MoveSorter.getNext moves) as [next moves'].
  destruct (next =? 0).
  - injection E as <- <-. split; [exact Hfit|lia].
  - destruct (rec (Position.play P next) (- beta) (- alpha) s) as [[r s1]|] eqn:Er;
      [|discriminate].
    assert (Hfit1 : values_fit (Solver.transTable s1))
      by (apply (Hrec next (- beta) (- alpha) s r s1); [lia|exact Hfit|exact Er]).
    destruct (Z.geb_spec (- r) beta) as [Hcut|Hno].
    + injection E as <- <-. split; [exact Hfit1|lia].
    + destruct (Z.gtb_spec (- r) alpha) as [Hup|Hkeep].
      * destruct (IH moves' (- r) beta s1 ex s' ltac:(lia) Hfit1 E) as (H1 & H2).
        split; [exact H1|]. destruct ex; lia.
      * exact (IH moves' alpha beta s1 ex s' Hab Hfit1 E).
Qed.

Lemma loop_window (P : Position.t) (alpha beta : Z) (s : Solver.t) :
  alpha < beta -> 0 <= Position.nbMoves P -> values_fit (Solver.transTable s) ->
  returns_early P alpha beta s = false ->
  tightened_alpha P alpha < tightened_beta P beta s /\
  -20 <= tightened_alpha P alpha /\ tightened_beta P beta s <= 41.
Proof.
  intros Hab Hm Hfit Hearly. unfold returns_early in Hearly.
  apply orb_false_iff in Hearly. destruct Hearly as (Hearly & Hhi).
  apply orb_false_iff in Hearly. destruct Hearly as (Hearly & Hlo).
  apply orb_false_iff in Hearly. destruct Hearly as (Hnext & Hdraw).
  pose proof (values_fit_get (Solver.transTable s) (Position.key P) Hfit) as Hval.
  assert (Hmin : -20 <= score_min P <= 0).
  { unfold score_min. change (Position.WIDTH * Position.HEIGHT) with 42 in *.
    b2p. zdiv. }
  assert (Hmax : score_max P s <= 41).
  { unfold score_max. change (Position.WIDTH * Position.HEIGHT) with 42 in *.
    change Position.MIN_SCORE with (-21).
    destruct (TranspositionTable.get (Solver.transTable s) (Position.key P) =? 0);
      [b2p; zdiv|lia]. }
  unfold tightened_beta, tightened_alpha in *. b2p.
  destruct (Z.ltb_spec alpha (score_min P));
    destruct (Z.ltb_spec (score_max P s) beta); lia.
Qed.

Lemma negamax_fit (fuel : nat) :
  forall (P : Position.t) (alpha beta : Z) (s : Solver.t) (r : Z) (s' : Solver.t),
  alpha < beta -> 0 <= Position.nbMoves P -> values_fit (Solver.transTable s) ->
  Solver.negamax fuel P alpha beta s = Some (r, s') ->
  values_fit (Solver.transTable s').
Proof.
  induction fuel as [|fuel IH]; intros P alpha beta s r s' Hab Hm Hfit E;
    [discriminate|].
  destruct (returns_early P alpha beta s) eqn:Hearly.
  - destruct (negamax_early fuel P alpha beta s Hearly) as (r0 & E0).
    rewrite E0 in E. injection E as _ <-. exact Hfit.
  - rewrite (negamax_late fuel P alpha beta s Hearly) in E.
    pose proof (loop_window P alpha beta s Hab Hm Hfit Hearly) as Hwindow.
    unfold moves_loop in E.
    destruct (Solver.explore _ _ _ _ _ _ _) as [[ex s1]|] eqn:Ex; [|discriminate].
    apply explore_values_fit in Ex.
    + destruct Ex as (Hfit1 & Hex). destruct ex as [score|a].
      * injection E as _ <-. exact Hfit1.
      * injection E as _ <-. cbn [Solver.transTable].
        apply values_fit_put; [exact Hfit1|]. change Position.MIN_SCORE with (-21). lia.
    + intros move a b s0 r0 s0' Hab0 Hfit0 E0.
      apply (IH (Position.play P move) a b s0 r0 s0' Hab0); [|exact Hfit0|exact E0].
      cbn [Position.nbMoves Position.play Position.moves].
      unfold Position.nbMoves in Hm. lia.
    + apply Hwindow.
    + exact Hfit.
Qed.

(** X5.  Called with [alpha < beta] on a table whose values fit in
    [table_value_size] bits, [negamax] leaves such a table; the value it
    stores when the moves run out is at least 1, so never the 0 that stands
    for a missing entry, and below [2^table_value_size]. *)
Theorem negamax_values_fit (fuel : nat) (P : Position.t) (alpha beta : Z)
    (s : Solver.t) (r : Z) (s' : Solver.t) :
  alpha < beta -> 0 <= Position.nbMoves P -> values_fit (Solver.transTable s) ->
  Solver.negamax (S fuel) P alpha beta s = Some (r, s') ->
  values_fit (Solver.transTable s') /\
  (returns_early P alpha beta s = false ->
   forall a s1, moves_loop fuel P alpha beta s = Some (Solver.Exhausted a, s1) ->
     1 <= a - Position.MIN_SCORE + 1 < 2 ^ Solver.table_value_size).
Proof.
  intros Hab Hm Hfit E. split.
  - exact (negamax_fit (S fuel) P alpha beta s r s' Hab Hm Hfit E).
  - intros Hearly a s1 Ex.
    pose proof (loop_window P alpha beta s Hab Hm Hfit Hearly) as Hwindow.
    unfold moves_loop in Ex. apply explore_values_fit in Ex.
    + destruct Ex as (_ & Hex). change Position.MIN_SCORE with (-21).
      change (2 ^ Solver.table_value_size) with 64. lia.
    + intros move a0 b0 s0 r0 s0' Hab0 Hfit0 E0.
      apply (negamax_fit fuel (Position.play P move) a0 b0 s0 r0 s0' Hab0);
        [|exact Hfit0|exact E0].
      cbn [Position.nbMoves Position.play Position.moves].
      unfold Position.nbMoves in Hm. lia.
    + apply Hwindow.
    + exact Hfit.
Qed.

Lemma values_fit_reset : values_fit TranspositionTable.reset.
Proof. intros i. cbn. change (2 ^ Solver.table_value_size) with 64. lia. Qed.

Lemma negamax_values_fit_witness :
  values_fit
    (Solver.transTable
       (final_state
          (Solver.negamax 5 (position "45264264221442616645161175215777737335")
             0 1 fresh))) /\
  (returns_early (position "45264264221442616645161175215777737335") 0 1 fresh
   = false ->
   forall a s1,
     moves_loop 4 (position "45264264221442616645161175215777737335") 0 1 fresh
     = Some (Solver.Exhausted a, s1) ->
     1 <= a - Position.MIN_SCORE + 1 < 2 ^ Solver.table_value_size).
Proof.
  apply (negamax_values_fit 4 (position "45264264221442616645161175215777737335")
           0 1 fresh 0).
  - lia.
  - vm_compute. congruence.
  - apply values_fit_reset.
  - vm_compute. reflexivity.
Defined.

Lemma explore_exhausted
    (rec : Position.t -> Z -> Z -> Solver.t -> option (Z * Solver.t))
    (P : Position.t) (budget : nat) :
  forall (moves : MoveSorter.t) (alpha beta : Z) (s : Solver.t) (a : Z) (s' : Solver.t),
  Solver.explore rec budget P moves alpha beta s = Some (Solver.Exhausted a, s') ->
  alpha <= a.
Proof.
  induction budget as [|budget IH]; intros moves alpha beta s a s' E;
    cbn [Solver.explore] in E; [discriminate|].
  destruct (MoveSorter.getNext moves) as [next moves'].
  destruct (next =? 0); [injection E as <- _; lia|].
  destruct (rec (Position.play P next) (- beta) (- alpha) s) as [[r s1]|];
    [|discriminate].
  destruct (- r >=? beta); [discriminate|].
  apply IH in E. destruct (Z.gtb_spec (- r) alpha); lia.
Qed.

(** X6.  The bound a call stores is found by the next call on the position:
    when the moves of [negamax(P, alpha, beta)] run out with the result
    [a], the table returns [a - MIN_SCORE + 1] for the key of [P], and a call
    [negamax(P, alpha2, beta2)] with [a <= alpha2 < beta2] on the state left
    returns [a] at once: it counts one node, searches no move and writes
    nothing. *)
Theorem negamax_reuses_bound (fuel fuel2 : nat) (P : Position.t)
    (alpha beta : Z) (s : Solver.t) (a : Z) (s1 : Solver.t) (alpha2 beta2 : Z) :
  0 <= Position.nbMoves P ->
  returns_early P alpha beta s = false ->
  moves_loop fuel P alpha beta s = Some (Solver.Exhausted a, s1) ->
  a <= alpha2 -> alpha2 < beta2 ->
  exists s',
    Solver.negamax (S fuel) P alpha beta s = Some (a, s') /\
    TranspositionTable.get (Solver.transTable s') (Position.key P)
    = a - Position.MIN_SCORE + 1 /\
    Solver.negamax (S fuel2) P alpha2 beta2 s' = Some (a, counted s').
Proof.
  intros Hm Hearly Hloop Ha Hab.
  rewrite (negamax_late fuel P alpha beta s Hearly), Hloop.
  eexists. split; [reflexivity|].
  set (T := TranspositionTable.put (Solver.transTable s1) (Position.key P)
              (a - Position.MIN_SCORE + 1)).
  assert (Hget : TranspositionTable.get T (Position.key P) = a - Position.MIN_SCORE + 1).
  { unfold T. rewrite get_put, !Z.eqb_refl. reflexivity. }
  split; [exact Hget|].
  unfold moves_loop in Hloop. apply explore_exhausted in Hloop.
  unfold returns_early in Hearly.
  apply orb_false_iff in Hearly. destruct Hearly as (Hearly & _).
  apply orb_false_iff in Hearly. destruct Hearly as (Hearly & _).
  apply orb_false_iff in Hearly. destruct Hearly as (Hnext & Hdraw).
  assert (Hmin : -20 <= score_min P <= tightened_alpha P alpha).
  { unfold tightened_alpha, score_min.
    change (Position.WIDTH * Position.HEIGHT) with 42 in *. b2p.
    destruct (Z.ltb_spec alpha (cdiv (- (42 - 2 - Position.nbMoves P)) 2)); zdiv. }
  unfold score_min in Hmin. cbn [Solver.negamax counted Solver.transTable Solver.nodeCount].
  rewrite Hnext, Hdraw, Hget.
  change Position.MIN_SCORE with (-21) in *.
  destruct (Z.ltb_spec alpha2 (cdiv (- (Position.WIDTH * Position.HEIGHT - 2
                                         - Position.nbMoves P)) 2)) as [H|_]; [lia|].
  cbn [andb]. destruct (Z.eqb_spec (a - -21 + 1) 0) as [H|_]; [lia|].
  destruct (Z.gtb_spec beta2 (a - -21 + 1 + -21 - 1)) as [_|H]; [|lia].
  destruct (Z.geb_spec alpha2 (a - -21 + 1 + -21 - 1)) as [_|H]; [|lia].
  cbn [andb]. f_equal. f_equal. lia.
Qed.

Lemma negamax_reuses_bound_witness :
  exists s',
    Solver.negamax 5 (position "45264264221442616645161175215777737335") 0 1 fresh
    = Some (0, s') /\
    TranspositionTable.get (Solver.transTable s')
      (Position.key (position "45264264221442616645161175215777737335"))
    = 0 - Position.MIN_SCORE + 1 /\
    Solver.negamax 1 (position "45264264221442616645161175215777737335") 0 1 s'
    = Some (0, counted s').
Proof.
  apply (negamax_reuses_bound 4 0
           (position "45264264221442616645161175215777737335") 0 1 fresh 0
           (loop_end
              (moves_loop 4 (position "45264264221442616645161175215777737335")
                 0 1 fresh))
           0 1).
  - vm_compute. congruence.
  - vm_compute. reflexivity.
  - vm_compute. reflexivity.
  - lia.
  - lia.
Defined.

(** ** The node counter *)

Lemma counters_apart_counted (d : Z) (c1 c2 : Z) (T : TranspositionTable.t) :
  u64 (c1 - c2) = u64 d ->
  counters_apart d (Solver.mk (u64 (c1 + 1)) T) (Solver.mk (u64 (c2 + 1)) T).
Proof.
  intros H. split; [reflexivity|]. cbn [Solver.nodeCount]. rewrite <- H.
  unfold u64. rewrite <- Zminus_mod. f_equal. lia.
Qed.

Lemma explore_same_run
    (rec : Position.t -> Z -> Z -> Solver.t -> option (Z * Solver.t))
    (d : Z) (P : Position.t) (budget : nat) :
  (forall Q a b s1 s2, counters_apart d s1 s2 ->
     same_run d (rec Q a b s1) (rec Q a b s2)) ->
  forall (moves : MoveSorter.t) (alpha beta : Z) (s1 s2 : Solver.t),
  counters_apart d s1 s2 ->
  match Solver.explore rec budget P moves alpha beta s1,
        Solver.explore rec budget P moves alpha beta s2 with
  | Some (e1, t1), Some (e2, t2) => e1 = e2 /\ counters_apart d t1 t2
  | None, None => True
  | _, _ => False
  end.
Proof.
  intros Hrec. induction budget as [|budget IH]; intros moves alpha beta s1 s2 Hs;
    cbn [Solver.explore]; [exact I|].
  destruct (MoveSorter.getNext moves) as [next moves'].
  destruct (next =? 0); [split; [reflexivity|exact Hs]|].
  pose proof (Hrec (Position.play P next) (- beta) (- alpha) s1 s2 Hs) as H.
  unfold same_run in H.
  destruct (rec (Position.play P next) (- beta) (- alpha) s1) as [[r1 t1]|],
           (rec (Position.play P next) (- beta) (- alpha) s2) as [[r2 t2]|];
    try contradiction; [|exact I].
  destruct H as (-> & Ht).
  destruct (- r2 >=? beta); [split; [reflexivity|exact Ht]|].
  apply IH. exact Ht.
Qed.

Lemma negamax_same_run (d : Z) (fuel : nat) :
  forall (P : Position.t) (alpha beta : Z) (s1 s2 : Solver.t),
  counters_apart d s1 s2 ->
  same_run d (Solver.negamax fuel P alpha beta s1) (Solver.negamax fuel P alpha beta s2).
Proof.
  induction fuel as [|fuel IH]; intros P alpha beta [c1 T1] [c2 T2] (HT & Hc);
    cbn [Solver.negamax]; [exact I|].
  cbn [Solver.transTable Solver.nodeCount] in *. subst T2.
  pose proof (counters_apart_counted d c1 c2 T1 Hc) as Hs.
  destruct (Position.possibleNonLosingMoves P =? 0); [split; [reflexivity|exact Hs]|].
  destruct (Position.nbMoves P >=? Position.WIDTH * Position.HEIGHT - 2);
    [split; [reflexivity|exact Hs]|].
  destruct (_ && _); [split; [reflexivity|exact Hs]|].
  destruct (_ && _); [split; [reflexivity|exact Hs]|].
  match goal with
  | |- context [Solver.explore ?r ?b ?p ?m ?a ?bb (Solver.mk (u64 (c1 + 1)) T1)] =>
      pose proof (explore_same_run r d p b IH m a bb _ _ Hs) as H
  end.
  match type of H with
  | match ?x with _ => _ end => destruct x as [[e1 t1]|]
  end;
  match type of H with
  | match ?x with _ => _ end => destruct x as [[e2 t2]|]
  end; try contradiction; [|exact I].
  destruct H as (-> & (HT & Hn)). destruct e2 as [score|a].
  - split; [reflexivity|]. split; assumption.
  - split; [reflexivity|]. split; cbn [Solver.transTable Solver.nodeCount];
      [rewrite HT; reflexivity|exact Hn].
Qed.

(** X7.  The node counter does not steer the search: from two counter
    values [n] and [m] on the same table, [negamax] returns the same score
    and the same table, and the counters are as far apart after the call as
    before it, modulo [2^64]. *)
Theorem negamax_counter_independent (fuel : nat) (P : Position.t) (alpha beta : Z)
    (T : TranspositionTable.t) (n m : Z) :
  same_run (n - m)
    (Solver.negamax fuel P alpha beta (Solver.mk n T))
    (Solver.negamax fuel P alpha beta (Solver.mk m T)).
Proof. apply negamax_same_run. split; reflexivity. Qed.

(** ** The assertions of negamax *)

Lemma explore_asserting
    (rec : Position.t -> Z -> Z -> Solver.t -> option (Z * Solver.t))
    (rec' : Position.t -> Z -> Z -> Solver.t -> Asserting.run (Z * Solver.t))
    (P : Position.t) (budget : nat) :
  forall (moves : MoveSorter.t) (alpha beta : Z) (s : Solver.t),
  (forall move a b s0, In move (map fst moves) -> move <> 0 -> a < b ->
     rec' (Position.play P move) a b s0
     = Asserting.of_option (rec (Position.play P move) a b s0)) ->
  alpha < beta ->
  Asserting.explore rec' budget P moves alpha beta s
  = Asserting.of_option (Solver.explore rec budget P moves alpha beta s).
Proof.
  induction budget as [|budget IH]; intros moves alpha beta s Hrec Hab;
    cbn [Asserting.explore Solver.explore]; [reflexivity|].
  destruct (getNext_spec moves) as [(-> & ->)|(front & m & sc & -> & ->)].
  - reflexivity.
  - destruct (Z.eqb_spec m 0) as [Hz|Hnz]; [reflexivity|].
    rewrite Hrec; [|rewrite map_app, in_app_iff; right; left; reflexivity
                   |exact Hnz|lia].
    destruct (rec (Position.play P m) (- beta) (- alpha) s) as [[r s1]|];
      [|reflexivity].
    cbn [Asserting.of_option].
    destruct (Z.geb_spec (- r) beta) as [Hcut|Hno]; [reflexivity|].
    apply IH.
    + intros move a b s0 Hin. apply Hrec.
      rewrite map_app, in_app_iff. left. exact Hin.
    + destruct (Z.gtb_spec (- r) alpha); lia.
Qed.

Lemma negamax_asserting (fuel : nat) :
  forall (P : Position.t) (alpha beta : Z) (s : Solver.t),
  Game.legal P -> Position.canWinNext P = false -> alpha < beta ->
  Asserting.negamax fuel P alpha beta s
  = Asserting.of_option (Solver.negamax fuel P alpha beta s).
Proof.
  induction fuel as [|fuel IH]; intros P alpha beta s HL Hwin Hab;
    cbn [Asserting.negamax Solver.negamax]; [reflexivity|].
  rewrite Hwin. destruct (Z.ltb_spec alpha beta) as [_|H]; [|lia]. cbn [negb].
  destruct (Position.possibleNonLosingMoves P =? 0); [reflexivity|].
  destruct (Position.nbMoves P >=? Position.WIDTH * Position.HEIGHT - 2);
    [reflexivity|].
  lazymatch goal with
  | |- (if ?c then _ else _) = _ => destruct c eqn:Hlo; [reflexivity|]
  end.
  lazymatch goal with
  | |- (if ?c then _ else _) = _ => destruct c eqn:Hhi; [reflexivity|]
  end.
  rewrite (explore_asserting (Solver.negamax fuel) (Asserting.negamax fuel)).
  - destruct (Solver.explore _ _ _ _ _ _ _) as [[[score|a] s1]|]; reflexivity.
  - intros move a b s0 Hin Hnz Hab0.
    apply in_map_iff in Hin. destruct Hin as ([mv sc] & Hfst & Hin).
    cbn [fst] in Hfst. subst mv.
    destruct (collect_moves_safe P move sc HL Hin) as (_ & Hlegal & Hsafe).
    apply IH; [apply legal_child; assumption|exact Hsafe|exact Hab0].
  - set (mn := cdiv (- (Position.WIDTH * Position.HEIGHT - 2 - Position.nbMoves P)) 2)
      in *.
    match goal with |- context [beta >? ?m] => set (mx := m) in * end.
    destruct (Z.ltb_spec alpha mn); destruct (Z.geb_spec mn beta);
      cbn [andb] in Hlo; try discriminate;
      destruct (Z.gtb_spec beta mx); cbn [andb] in Hhi; try lia;
      match type of Hhi with (?a >=? ?b) = false => destruct (Z.geb_spec a b) end;
      try discriminate; lia.
Qed.

Lemma narrow_asserting (fuel : nat) (P : Position.t) (iterations : nat) :
  Game.legal P -> Position.canWinNext P = false ->
  forall (lo hi : Z) (s : Solver.t),
  Asserting.narrow fuel iterations P lo hi s
  = Asserting.of_option (Solver.narrow fuel iterations P lo hi s).
Proof.
  intros HL Hwin. induction iterations as [|iterations IH]; intros lo hi s;
    cbn [Asserting.narrow Solver.narrow]; destruct (lo <? hi); try reflexivity.
  rewrite (negamax_asserting fuel P _ _ s HL Hwin) by lia.
  destruct (Solver.negamax fuel P _ _ s) as [[r s1]|]; [|reflexivity].
  cbn [Asserting.of_option]. destruct (r <=? Solver.median lo hi); apply IH.
Qed.

(** X9.  No assertion of [negamax] fails while [solve] runs on a legal
    position, whatever the table holds: every call, the recursive ones
    included, has [alpha < beta] and a position whose player cannot win at
    once, and the run with the assertions in force returns what the run
    without them returns. *)
Theorem solve_assertions_hold (fuel : nat) (P : Position.t) (weak : bool)
    (s : Solver.t) :
  Game.legal P -> (43 <= fuel)%nat ->
  exists v s',
    Asserting.solve fuel P weak s = Asserting.Returned (v, s') /\
    Solver.solve fuel P weak s = Some (v, s').
Proof.
  intros HL Hfuel.
  destruct (solve_total fuel P weak s HL Hfuel) as ([v s'] & E).
  exists v, s'. split; [|exact E].
  unfold Asserting.solve, Solver.solve in *.
  destruct (Position.canWinNext P) eqn:Hwin.
  - injection E as <- <-. reflexivity.
  - rewrite (narrow_asserting fuel P fuel HL Hwin), E. reflexivity.
Qed.

Lemma solve_assertions_hold_witness :
  exists v s',
    Asserting.solve 43 (position "4453") true fresh = Asserting.Returned (v, s') /\
    Solver.solve 43 (position "4453") true fresh = Some (v, s').
Proof.
  apply (solve_assertions_hold 43 (position "4453") true fresh).
  - apply position_legal.
  - lia.
Defined.

(** ** The depth of the recursion *)

Lemma explore_ends
    (rec : Position.t -> Z -> Z -> Solver.t -> Asserting.run (Z * Solver.t))
    (P : Position.t) (budget : nat) :
  (forall move a b s, rec (Position.play P move) a b s <> Asserting.Unfinished) ->
  forall (moves : MoveSorter.t) (alpha beta : Z) (s : Solver.t),
  (List.length moves < budget)%nat ->
  Asserting.explore rec budget P moves alpha beta s <> Asserting.Unfinished.
Proof.
  intros Hrec. induction budget as [|budget IH]; intros moves alpha beta s Hlen; [lia|].
  cbn [Asserting.explore].
  destruct (getNext_spec moves) as [(-> & ->)|(front & m & sc & -> & ->)].
  - cbn. discriminate.
  - destruct (m =? 0); [discriminate|].
    pose proof (Hrec m (- beta) (- alpha) s) as Hcall.
    destruct (rec (Position.play P m) (- beta) (- alpha) s) as [[r s1]| |];
      [|discriminate|contradiction].
    destruct (- r >=? beta); [discriminate|].
    apply IH. rewrite length_app in Hlen. cbn [List.length] in Hlen. lia.
Qed.

Lemma negamax_ends (fuel : nat) :
  forall (P : Position.t) (alpha beta : Z) (s : Solver.t),
  (1 <= fuel)%nat ->
  Position.WIDTH * Position.HEIGHT - 1 - Position.nbMoves P <= Z.of_nat fuel ->
  Asserting.negamax fuel P alpha beta s <> Asserting.Unfinished.
Proof.
  induction fuel as [|fuel IH]; intros P alpha beta s Hpos Hfuel; [lia|].
  cbn [Asserting.negamax].
  destruct (negb (alpha <? beta)); [discriminate|].
  destruct (negb (negb (Position.canWinNext P))); [discriminate|].
  destruct (Position.possibleNonLosingMoves P =? 0); [discriminate|].
  destruct (Position.nbMoves P >=? Position.WIDTH * Position.HEIGHT - 2) eqn:Hdraw;
    [discriminate|].
  lazymatch goal with
  | |- (if ?c then _ else _) <> _ => destruct c; [discriminate|]
  end.
  lazymatch goal with
  | |- (if ?c then _ else _) <> _ => destruct c; [discriminate|]
  end.
  match goal with
  | |- context [Asserting.explore ?r ?b ?p ?m ?a ?bb ?st] =>
      pose proof (explore_ends r p b) as Hloop;
      specialize (fun H => Hloop H m a bb st)
  end.
  destruct (Asserting.explore _ _ _ _ _ _ _) as [[[score|a] s1]| |];
    try discriminate.
  exfalso. apply Hloop; [|unfold MoveSorter.size; lia|reflexivity].
  intros move a b s0. b2p. change (Position.WIDTH * Position.HEIGHT) with 42 in *.
  apply IH; [lia|].
  cbn [Position.nbMoves Position.play Position.moves].
  unfold Position.nbMoves in *. lia.
Qed.

(** X8.  Within a recursion depth of [WIDTH*HEIGHT - 1 - nbMoves] (and at
    least 1) a call of [negamax] ends, on any position, window and table:
    it returns or one of its assertions fails, since the draw check ends
    the recursion when two cells are left.  Called as its comment requires,
    on a legal position whose player cannot win at once and with
    [alpha < beta], it returns. *)
Theorem negamax_depth (fuel : nat) (P : Position.t) (alpha beta : Z)
    (s : Solver.t) :
  (1 <= fuel)%nat ->
  Position.WIDTH * Position.HEIGHT - 1 - Position.nbMoves P <= Z.of_nat fuel ->
  Asserting.negamax fuel P alpha beta s <> Asserting.Unfinished /\
  (Game.legal P -> Position.canWinNext P = false -> alpha < beta ->
   exists r s',
     Asserting.negamax fuel P alpha beta s = Asserting.Returned (r, s')).
Proof.
  intros Hpos Hfuel.
  pose proof (negamax_ends fuel P alpha beta s Hpos Hfuel) as Hends.
  split; [exact Hends|]. intros HL Hwin Hab.
  rewrite (negamax_asserting fuel P alpha beta s HL Hwin Hab) in *.
  destruct (Solver.negamax fuel P alpha beta s) as [[r s']|];
    [exists r, s'; reflexivity|contradiction].
Qed.

Lemma negamax_depth_witness :
  Asserting.negamax 3 (position "45264264221442616645161175215777737335") 0 1 fresh
  <> Asserting.Unfinished /\
  (Game.legal (position "45264264221442616645161175215777737335") ->
   Position.canWinNext (position "45264264221442616645161175215777737335") = false ->
   0 < 1 ->
   exists r s',
     Asserting.negamax 3 (position "45264264221442616645161175215777737335") 0 1 fresh
     = Asserting.Returned (r, s')).
Proof.
  apply (negamax_depth 3 (position "45264264221442616645161175215777737335") 0 1
           fresh).
  - lia.
  - vm_compute. congruence.
Defined.

(** ** The loop of solve *)

(** X10.  The probe point of [solve] is the midpoint of the window or a
    point farther from zero, never one closer to it: below zero the lower
    of the midpoint and [min/2], above zero the higher of the midpoint and
    [max/2]; a midpoint 0 gives way to [min/2] when that is negative and to
    [max/2] otherwise. *)
Theorem median_bias (min max : Z) :
  (midpoint min max < 0 ->
   Solver.median min max = Z.min (midpoint min max) (cdiv min 2)) /\
  (0 < midpoint min max ->
   Solver.median min max = Z.max (midpoint min max) (cdiv max 2)) /\
  (midpoint min max = 0 ->
   Solver.median min max =
   if cdiv min 2 <? 0 then cdiv min 2 else Z.max 0 (cdiv max 2)) /\
  Z.abs (midpoint min max) <= Z.abs (Solver.median min max).
Proof.
  unfold Solver.median, midpoint.
  set (m0 := min + cdiv (max - min) 2). set (lo := cdiv min 2). set (hi := cdiv max 2).
  destruct (Z.leb_spec m0 0); destruct (Z.ltb_spec lo m0);
    destruct (Z.geb_spec m0 0); destruct (Z.gtb_spec hi m0); cbn [andb];
    repeat split; intros; try lia;
    try (destruct (Z.ltb_spec lo 0); lia).
Qed.

Lemma narrow_done (fuel iterations : nat) (P : Position.t) (lo hi : Z) (s : Solver.t) :
  hi <= lo -> Solver.narrow fuel iterations P lo hi s = Some (lo, s).
Proof.
  intros H. destruct iterations; cbn [Solver.narrow];
    destruct (Z.ltb_spec lo hi); try lia; reflexivity.
Qed.

Lemma narrow_step (fuel iterations : nat) (P : Position.t) (lo hi : Z)
    (s : Solver.t) :
  lo < hi ->
  Solver.narrow fuel (S iterations) P lo hi s =
  match Solver.negamax fuel P (Solver.median lo hi) (Solver.median lo hi + 1) s with
  | None => None
  | Some (r, s') =>
      if r <=? Solver.median lo hi then Solver.narrow fuel iterations P lo r s'
      else Solver.narrow fuel iterations P r hi s'
  end.
Proof.
  intros H. cbn [Solver.narrow]. destruct (Z.ltb_spec lo hi); [reflexivity|lia].
Qed.

(** X11.  On a position without an immediate win the weak [solve] makes at
    most two searches: the null window [0, 1] first; a positive result is
    returned as it is and a negative one as -1; only after the result 0 the
    null window [-1, 0] is searched, whose result is returned as -1 when
    negative and as it is otherwise. *)
Theorem weak_solve_two_probes (fuel : nat) (P : Position.t) (s : Solver.t) :
  Position.canWinNext P = false -> (2 <= fuel)%nat ->
  Solver.solve fuel P true s = two_probes fuel P s.
Proof.
  intros Hwin Hfuel. unfold Solver.solve, two_probes. rewrite Hwin.
  destruct fuel as [|[|fuel]]; [lia|lia|].
  remember (S (S fuel)) as f eqn:Ef.
  assert (E1 : forall s0, Solver.narrow f f P (-1) 1 s0
                          = Solver.narrow f (S (S fuel)) P (-1) 1 s0)
    by (intros s0; rewrite Ef; reflexivity).
  rewrite E1, narrow_step by lia.
  change (Solver.median (-1) 1) with 0. change (0 + 1) with 1.
  destruct (Solver.negamax f P 0 1 s) as [[r1 s1]|]; [|reflexivity].
  destruct (Z.leb_spec r1 0) as [Hle|Hgt].
  - destruct (Z.gtb_spec r1 0) as [H|_]; [lia|].
    destruct (Z.ltb_spec r1 0) as [Hneg|Hzero].
    + apply narrow_done. lia.
    + assert (r1 = 0) by lia. subst r1. rewrite narrow_step by lia.
      change (Solver.median (-1) 0) with (-1). change (-1 + 1) with 0.
      destruct (Solver.negamax f P (-1) 0 s1) as [[r2 s2]|]; [|reflexivity].
      destruct (Z.leb_spec r2 (-1)) as [Hle2|Hgt2];
        destruct (Z.ltb_spec r2 0); try lia; apply narrow_done; lia.
  - destruct (Z.gtb_spec r1 0) as [_|H]; [|lia]. apply narrow_done. lia.
Qed.

Lemma weak_solve_two_probes_witness :
  Solver.solve 43 (position "7422341735127") true fresh
  = two_probes 43 (position "7422341735127") fresh.
Proof.
  apply (weak_solve_two_probes 43 (position "7422341735127") fresh).
  - vm_compute. reflexivity.
  - lia.
Defined.

(** ** The full board *)

Lemma full_board_no_move (P : Position.t) :
  Game.legal P -> Position.nbMoves P = 42 ->
  Position.canWinNext P = false /\ Position.possibleNonLosingMoves P = 0.
Proof.
  intros HL Hfull. split.
  - destruct (Position.canWinNext P) eqn:Hwin; [|reflexivity].
    pose proof (can_win_has_move P HL Hwin). lia.
  - destruct (Z.eq_dec (Position.possibleNonLosingMoves P) 0) as [E|Hne]; [exact E|].
    destruct (non_losing_moves_nonzero P HL Hne) as (c & Hc & Hland).
    rewrite (non_losing_moves_column P c HL Hc) in Hland.
    destruct (Z.eqb_spec (Position.move_in P c) 0) as [Hz|Hnz];
      [cbn [orb] in Hland; congruence|].
    assert (Hin : In (Position.move_in P c) (Game.legal_moves P))
      by (apply legal_moves_spec; exists c; auto).
    pose proof (legal_move_nbMoves P _ HL Hin). lia.
Qed.

(** X12.  On a legal position with all [WIDTH*HEIGHT] cells taken the
    strong [solve] returns 0 without a search, the solver untouched; the
    weak [solve] returns 0 after two calls of [negamax], which count two
    nodes and write nothing to the table. *)
Theorem solve_full_board (fuel : nat) (P : Position.t) (s : Solver.t) :
  Game.legal P -> Position.nbMoves P = Position.WIDTH * Position.HEIGHT ->
  Solver.solve fuel P false s = Some (0, s) /\
  ((2 <= fuel)%nat -> Solver.solve fuel P true s = Some (0, counted (counted s))).
Proof.
  intros HL Hfull. destruct (full_board_no_move P HL Hfull) as (Hwin & Hnone).
  unfold Solver.solve. rewrite Hwin. split.
  - rewrite Hfull. apply narrow_done. vm_compute. congruence.
  - intros Hfuel. destruct fuel as [|[|fuel]]; [lia|lia|].
    assert (E : forall f a b s0, Solver.negamax (S f) P a b s0 = Some (0, counted s0)).
    { intros f a b s0. cbn [Solver.negamax]. rewrite Hnone, Hfull. reflexivity. }
    rewrite narrow_step, E by lia.
    change (0 <=? Solver.median (-1) 1) with true. cbn iota.
    rewrite narrow_step, E by lia.
    change (0 <=? Solver.median (-1) 0) with false. cbn iota.
    apply narrow_done. lia.
Qed.

Lemma solve_full_board_witness :
  Solver.solve 2 (position "675423112423747357574675623613526361254411") false fresh
  = Some (0, fresh) /\
  ((2 <= 2)%nat ->
   Solver.solve 2 (position "675423112423747357574675623613526361254411") true fresh
   = Some (0, counted (counted fresh))).
Proof.
  apply (solve_full_board 2 (position "675423112423747357574675623613526361254411")
           fresh).
  - apply position_legal.
  - vm_compute. reflexivity.
Defined.

(** ** The range of the scores *)

(** X13.  On a legal position, from a solver that was reset or has run
    solves, [solve] returns a score between [MIN_SCORE] and [MAX_SCORE];
    the strong score lies between the two bounds [solve] starts from,
    [-(WIDTH*HEIGHT - nbMoves)/2] and [(WIDTH*HEIGHT + 1 - nbMoves)/2]. *)
Theorem solve_score_range (fuel : nat) (P : Position.t) (weak : bool)
    (s : Solver.t) :
  Game.legal P -> Game.reachable s -> (43 <= fuel)%nat ->
  exists v s',
    Solver.solve fuel P weak s = Some (v, s') /\
    Position.MIN_SCORE <= v <= Position.MAX_SCORE /\
    (weak = false ->
     cdiv (- (Position.WIDTH * Position.HEIGHT - Position.nbMoves P)) 2 <= v
     <= cdiv (Position.WIDTH * Position.HEIGHT + 1 - Position.nbMoves P) 2).
Proof.
  intros HL Hs Hfuel. pose proof (reachable_valid s Hs) as Hvalid.
  pose proof (legal_nbMoves P HL) as Hm.
  pose proof (true_score_range P HL) as Hrange.
  change (Position.WIDTH * Position.HEIGHT) with 42 in *.
  change Position.MIN_SCORE with (-21). change Position.MAX_SCORE with 21.
  assert (Hwide : -21 <= Game.true_score P <= 21) by (revert Hrange; zdiv).
  destruct weak.
  - destruct (solve_weak_sound fuel P s HL Hvalid Hfuel) as (v & s' & E & _ & Hwin & Hno).
    exists v, s'. split; [exact E|]. split; [|discriminate].
    destruct (Position.canWinNext P).
    + rewrite (Hwin eq_refl). exact Hwide.
    + destruct (Hno eq_refl) as (H1 & H2 & H3). lia.
  - destruct (solve_strong_sound fuel P s HL Hvalid Hfuel) as (s' & E & _).
    exists (Game.true_score P), s'. split; [exact E|]. split; [exact Hwide|].
    intros _. exact Hrange.
Qed.

Lemma solve_score_range_witness :
  exists v s',
    Solver.solve 43 (position "4453") true fresh = Some (v, s') /\
    Position.MIN_SCORE <= v <= Position.MAX_SCORE /\
    (true = false ->
     cdiv (- (Position.WIDTH * Position.HEIGHT - Position.nbMoves (position "4453"))) 2
     <= v
     <= cdiv (Position.WIDTH * Position.HEIGHT + 1 - Position.nbMoves (position "4453")) 2).
Proof.
  apply (solve_score_range 43 (position "4453") true fresh).
  - apply position_legal.
  - apply fresh_reachable.
  - lia.
Defined.

(** ** The lines of the input *)

Lemma main_loop_any_solver (fuel : nat) (weak : bool) (clock : Z -> Z * Z)
    (lines : list string) :
  forall (l : Z) (s s' : Solver.t),
  Driver.main_loop fuel weak clock l lines s
  = Driver.main_loop fuel weak clock l lines s'.
Proof.
  induction lines as [|line lines IH]; intros l s s'; [reflexivity|].
  cbn [Driver.main_loop]. unfold Driver.main_line.
  destruct (Position.play_seq Position.empty line) as [P played].
  destruct (negb (played =? Z.of_nat (String.length line))).
  - rewrite (IH (l + 1) s s'). reflexivity.
  - unfold Solver.reset. reflexivity.
Qed.

(** X14.  What [main] writes for a line does not depend on the lines
    before it: the output for the lines [before ++ after] is the output for
    [before] followed by the output for [after] numbered from where
    [before] ends, whatever state the solver is in when [after] starts,
    since the solver is reset before each solve. *)
Theorem main_lines_independent (fuel : nat) (weak : bool) (clock : Z -> Z * Z)
    (before after : list string) :
  forall (l : Z) (s s' : Solver.t),
  Driver.main_loop fuel weak clock l (before ++ after) s =
  match Driver.main_loop fuel weak clock l before s,
        Driver.main_loop fuel weak clock (l + Z.of_nat (List.length before)) after s'
  with
  | Some out1, Some out2 => Some (out1 ++ out2)
  | _, _ => None
  end.
Proof.
  induction before as [|line before IH]; intros l s s'.
  - cbn [app List.length Driver.main_loop Z.of_nat]. rewrite Z.add_0_r.
    rewrite (main_loop_any_solver fuel weak clock after l s s').
    destruct (Driver.main_loop fuel weak clock l after s'); reflexivity.
  - cbn [app List.length Driver.main_loop].
    destruct (Driver.main_line fuel weak (fst (clock l)) (snd (clock l)) l line s)
      as [[e s1]|]; [|reflexivity].
    rewrite (IH (l + 1) s1 s').
    replace (l + 1 + Z.of_nat (List.length before))
      with (l + Z.of_nat (S (List.length before))) by lia.
    destruct (Driver.main_loop fuel weak clock (l + 1) before s1); [|reflexivity].
    destruct (Driver.main_loop fuel weak clock _ after s'); reflexivity.
Qed.

Lemma main_loop_valid (fuel : nat) (weak : bool) (clock : Z -> Z * Z) :
  (43 <= fuel)%nat ->
  forall (lines : list string) (l : Z) (solver : Solver.t) (n : nat) (line : string),
  nth_error lines n = Some line ->
  snd (Position.play_seq Position.empty line) = Z.of_nat (String.length line) ->
  exists out score s',
    Driver.main_loop fuel weak clock l lines solver = Some out /\
    Solver.solve fuel (position line) weak fresh = Some (score, s') /\
    nth_error out n =
    Some (Driver.mk_emitted
            (solved_line line score (Solver.nodeCount s')
               (u64 (snd (clock (l + Z.of_nat n)) - fst (clock (l + Z.of_nat n)))))
            []).
Proof.
  intros Hfuel. induction lines as [|line0 lines IH]; intros l solver n line E Hok.
  - destruct n; discriminate.
  - destruct n as [|n]; cbn [nth_error] in E.
    + injection E as ->.
      pose proof (play_seq_legal line Position.empty Game.legal_empty) as HL.
      unfold position. cbn [Driver.main_loop]. unfold Driver.main_line.
      destruct (Position.play_seq Position.empty line) as [P played] eqn:Eplay.
      cbn [fst snd] in *. rewrite Hok, Z.eqb_refl. cbn [negb].
      change (Solver.reset solver) with fresh.
      destruct (solve_total fuel P weak fresh HL Hfuel) as ([score s'] & Esolve).
      destruct (main_loop_spec fuel weak clock Hfuel lines (l + 1) s')
        as (es & Erest & _).
      rewrite Esolve, Erest. eexists; exists score, s'.
      split; [reflexivity|]. split; [reflexivity|].
      cbn [nth_error]. rewrite Z.add_0_r. reflexivity.
    + destruct (main_loop_spec fuel weak clock Hfuel [line0] l solver)
        as (out0 & Eout0 & _).
      cbn [Driver.main_loop] in Eout0.
      destruct (Driver.main_line fuel weak (fst (clock l)) (snd (clock l)) l line0 solver)
        as [[e s1]|] eqn:E0; [|discriminate].
      destruct (IH (l + 1) s1 n line E Hok) as (out & score & s' & Eout & Esolve & Hn).
      exists (e :: out), score, s'. cbn [Driver.main_loop]. rewrite E0, Eout.
      split; [reflexivity|]. split; [exact Esolve|]. cbn [nth_error].
      rewrite Hn. replace (l + 1 + Z.of_nat n) with (l + Z.of_nat (S n)) by lia.
      reflexivity.
Qed.

(** X15.  For a line that [play] applies in full, [main] writes nothing to
    standard error and one line to standard output: the input line, the
    score [solve] gives for its position from a solver just reset (the
    score of the position when the solve is strong), the node count of that
    solve and the difference of the two clock readings, modulo [2^64]. *)
Theorem valid_line_output (fuel : nat) (args : list string) (clock : Z -> Z * Z)
    (lines : list string) (n : nat) (line : string) :
  (43 <= fuel)%nat ->
  nth_error lines n = Some line ->
  snd (Position.play_seq Position.empty line) = Z.of_nat (String.length line) ->
  exists out score s',
    Driver.main fuel args clock lines = Some out /\
    Solver.solve fuel (position line) (Driver.weak_flag args) fresh
    = Some (score, s') /\
    (Driver.weak_flag args = false -> score = Game.true_score (position line)) /\
    nth_error out n =
    Some (Driver.mk_emitted
            (solved_line line score (Solver.nodeCount s')
               (u64 (snd (clock (Z.of_nat n + 1)) - fst (clock (Z.of_nat n + 1)))))
            []).
Proof.
  intros Hfuel E Hok.
  destruct (main_loop_valid fuel (Driver.weak_flag args) clock Hfuel lines 1
              (Solver.mk 0 TranspositionTable.reset) n line E Hok)
    as (out & score & s' & Eout & Esolve & Hn).
  exists out, score, s'. split; [exact Eout|]. split; [exact Esolve|].
  split.
  - intros Hstrong. rewrite Hstrong in Esolve.
    destruct (solve_strong_sound fuel (position line) fresh (position_legal line)
                bound_valid_reset Hfuel) as (s2 & E2 & _).
    rewrite E2 in Esolve. injection Esolve as <- _. reflexivity.
  - rewrite Hn. replace (1 + Z.of_nat n) with (Z.of_nat n + 1) by lia. reflexivity.
Qed.

Lemma valid_line_output_witness :
  exists out score s',
    Driver.main 43 [] (fun l => (100 * l, 100 * l + 7)) ["1212121"; "112233"]%string
    = Some out /\
    Solver.solve 43 (position "112233") (Driver.weak_flag []) fresh
    = Some (score, s') /\
    (Driver.weak_flag [] = false -> score = Game.true_score (position "112233")) /\
    nth_error out 1 =
    Some (Driver.mk_emitted
            (solved_line "112233" score (Solver.nodeCount s')
               (u64 (snd ((fun l => (100 * l, 100 * l + 7)) (Z.of_nat 1 + 1))
                     - fst ((fun l => (100 * l, 100 * l + 7)) (Z.of_nat 1 + 1)))))
            []).
Proof.
  apply (valid_line_output 43 [] (fun l => (100 * l, 100 * l + 7))
           ["1212121"; "112233"]%string 1 "112233").
  - lia.
  - reflexivity.
  - vm_compute. reflexivity.
Defined.

(** X16.  [main] ends on every input and emits one entry for each line, in
    order: for a line [play] does not apply in full an empty line on
    standard output with one diagnostic, for any other line one result line
    and no diagnostic. *)
Theorem main_one_entry_per_line (fuel : nat) (args : list string)
    (clock : Z -> Z * Z) (lines : list string) :
  (43 <= fuel)%nat ->
  exists out,
    Driver.main fuel args clock lines = Some out /\ Forall2 line_entry lines out.
Proof.
  intros Hfuel. unfold Driver.main.
  generalize (Solver.mk 0 TranspositionTable.reset) as solver.
  generalize 1 as l. induction lines as [|line lines IH]; intros l solver.
  - exists []. split; [reflexivity|constructor].
  - cbn [Driver.main_loop]. unfold Driver.main_line.
    pose proof (play_seq_legal line Position.empty Game.legal_empty) as HL.
    destruct (Position.play_seq Position.empty line) as [P played] eqn:Eplay.
    cbn [fst] in HL.
    destruct (Z.eqb_spec played (Z.of_nat (String.length line))) as [Heq|Hne];
      cbn [negb].
    + destruct (solve_total fuel P (Driver.weak_flag args) (Solver.reset solver)
                  HL Hfuel) as ([score s'] & ->).
      destruct (IH (l + 1) s') as (out & -> & Hout).
      eexists. split; [reflexivity|]. constructor; [|exact Hout].
      right. rewrite Eplay. split; [exact Heq|]. do 3 eexists. reflexivity.
    + destruct (IH (l + 1) solver) as (out & -> & Hout).
      eexists. split; [reflexivity|]. constructor; [|exact Hout].
      left. rewrite Eplay. split; [exact Hne|]. do 2 eexists. reflexivity.
Qed.

Lemma main_one_entry_per_line_witness :
  exists out,
    Driver.main 43 ["-w"]%string (fun _ => (0, 0)) ["1212121"; "112233"]%string
    = Some out /\
    Forall2 line_entry ["1212121"; "112233"]%string out.
Proof.
  apply (main_one_entry_per_line 43 ["-w"]%string (fun _ => (0, 0))
           ["1212121"; "112233"]%string).
  lia.
Defined.

(** ** The clock *)

(** X17.  For clock readings with a second count in [0, 2^43) and a
    microsecond count below 1000000, [getTimeMicrosec] is increasing in the
    reading, and the difference [end_time - start_time] that [main] prints
    is the number of microseconds between the two readings when the second
    is not earlier than the first; when the clock went backwards it is that
    negative number plus [2^64]. *)
Theorem elapsed_microseconds (start finish : timeval) :
  plausible start -> plausible finish ->
  (not_later start finish <-> getTimeMicrosec start <= getTimeMicrosec finish) /\
  (not_later start finish ->
   u64 (getTimeMicrosec finish - getTimeMicrosec start)
   = microseconds_between start finish) /\
  (~ not_later start finish ->
   u64 (getTimeMicrosec finish - getTimeMicrosec start)
   = 2 ^ 64 + microseconds_between start finish).
Proof.
  unfold plausible, not_later, microseconds_between, getTimeMicrosec, u64.
  destruct start as [s1 u1], finish as [s2 u2]. cbn [tv_sec tv_usec].
  change (2 ^ 43) with 8796093022208. change (2 ^ 64) with 18446744073709551616.
  intros (Hs1 & Hu1) (Hs2 & Hu2).
  rewrite (Z.mod_small (s1 * 1000000 + u1)) by lia.
  rewrite (Z.mod_small (s2 * 1000000 + u2)) by lia.
  split; [|split].
  - split; [intros [H|(-> & H)]; lia|]. intros H.
    destruct (Z.lt_trichotomy s1 s2) as [Hlt|[Heq|Hgt]]; [lia|lia|lia].
  - intros H. rewrite Z.mod_small; lia.
  - intros H.
    assert (Hneg : s2 * 1000000 + u2 - (s1 * 1000000 + u1) < 0) by lia.
    symmetry. apply Z.mod_unique with (q := -1); lia.
Qed.

Lemma elapsed_microseconds_witness :
  (not_later (mk_timeval 10 999999) (mk_timeval 11 5) <->
   getTimeMicrosec (mk_timeval 10 999999) <= getTimeMicrosec (mk_timeval 11 5)) /\
  (not_later (mk_timeval 10 999999) (mk_timeval 11 5) ->
   u64 (getTimeMicrosec (mk_timeval 11 5) - getTimeMicrosec (mk_timeval 10 999999))
   = microseconds_between (mk_timeval 10 999999) (mk_timeval 11 5)) /\
  (~ not_later (mk_timeval 10 999999) (mk_timeval 11 5) ->
   u64 (getTimeMicrosec (mk_timeval 11 5) - getTimeMicrosec (mk_timeval 10 999999))
   = 2 ^ 64 + microseconds_between (mk_timeval 10 999999) (mk_timeval 11 5)).
Proof.
  apply (elapsed_microseconds (mk_timeval 10 999999) (mk_timeval 11 5));
    unfold plausible; cbn [tv_sec tv_usec]; lia.
Defined.
